(** * Org-hierarchy rollups and the proportional allocator

    A shallow embedding of the two algorithmic pieces of the planning
    front-end:

    - [Hierarchy]: the functions of [data/hierarchy.ts] that roll headcount
      and validated capacity up an [OrgNode] tree and that rebuild the tree
      on an edit ([getRolledUpHeadcount], [getRolledUpValidatedCapacity],
      [updateNodeInTree], [updateHeadcountAndRollUp],
      [recalcParentHeadcounts], [flattenTree]);
    - [TerritoryPlanning] and [TerritoryPlanning64]: the [handleOptimize]
      callback of the territory-planning component, which splits 1000
      units and 12000 TAM over the territory rows in proportion to their
      owners' validated capacity.

    Modelling conventions.  A JavaScript [number] that holds a count or a
    currency amount of the tree is an integer of [Z]; integers below 2^53
    are exact in a double, so nothing is lost there.  [null]/[undefined]
    is [None].  An optional [children] array distinguishes an absent array
    ([None]) from an empty one ([Some []]), as the source's tests do.

    The allocator divides, and the outcome of a division depends on the
    arithmetic.  It is embedded twice, statement by statement in both
    cases.  [TerritoryPlanning] reads the quotient [c / totalCapacity] and
    everything derived from it as exact rationals of [Q]: it states what
    the callback computes when no operation rounds.  [TerritoryPlanning64]
    reads every number as a binary64 value of [Binary64] and rounds every
    operation as IEEE 754 does; the two differ in which entity wins a tie
    between remainders that are equal exactly, and in what happens beyond
    the range of a double.  The exactness of the sums and the order of
    service are settled on [TerritoryPlanning64]. *)

From Stdlib Require Import ZArith QArith Qround Qabs Qpower List Lia Lqa String.
From Stdlib Require Import Sorted Permutation.
From stdpp Require Import base gmap strings list.
Import ListNotations.

Local Open Scope Z_scope.

(** Sum of a list of integers, used to state the rollup properties
    independently of the [reduce] calls of the source. *)
Definition sumZ (l : list Z) : Z := fold_right Z.add 0 l.

Module Hierarchy.

Inductive PlanStatus := Cascaded | Drafting | PlanInProgress | NotStarted.
Inductive RepType := Veteran | TBH.
Inductive Industry := AERO | MFG.

(** [interface OrgNode] of [types.ts]; fields marked [?] there are options. *)
Unset Elimination Schemes.
Inductive OrgNode : Type := MkOrgNode {
  id : string;
  rowNumber : Z;
  name : string;
  personName : string;
  role : string;
  directReports : option Z;
  avatarUrl : option string;
  avatarInitials : option string;
  avatarColor : option string;
  targetCapacity : Z;
  headcount : Z;
  expectedCapacity : Z;
  validatedCapacity : option Z;
  difference : Z;
  status : PlanStatus;
  children : option (list OrgNode);
  depth : Z;
  segments : option (list string);
  repType : option RepType;
  industry : option Industry;
  startDate : option string;
  allocatedHC : option Z;
  validatedVeterans : option Z;
  validatedTBH : option Z;
  totalHC : option Z
}.
Set Elimination Schemes.

(** [{ ...n, headcount: h }] *)
Definition with_headcount (h : Z) (n : OrgNode) : OrgNode :=
  MkOrgNode (id n) (rowNumber n) (name n) (personName n) (role n)
    (directReports n) (avatarUrl n) (avatarInitials n) (avatarColor n)
    (targetCapacity n) h (expectedCapacity n) (validatedCapacity n)
    (difference n) (status n) (children n) (depth n) (segments n)
    (repType n) (industry n) (startDate n) (allocatedHC n)
    (validatedVeterans n) (validatedTBH n) (totalHC n).

(** [{ ...n, children: cs }] *)
Definition with_children (cs : option (list OrgNode)) (n : OrgNode) : OrgNode :=
  MkOrgNode (id n) (rowNumber n) (name n) (personName n) (role n)
    (directReports n) (avatarUrl n) (avatarInitials n) (avatarColor n)
    (targetCapacity n) (headcount n) (expectedCapacity n) (validatedCapacity n)
    (difference n) (status n) cs (depth n) (segments n)
    (repType n) (industry n) (startDate n) (allocatedHC n)
    (validatedVeterans n) (validatedTBH n) (totalHC n).

(** [!node.children || node.children.length === 0] *)
Definition isLeaf (node : OrgNode) : bool :=
  match children node with
  | None => true
  | Some [] => true
  | Some (_ :: _) => false
  end.

(** [getRolledUpHeadcount]: a leaf answers its own headcount, a parent the
    [reduce] of its children's rolled-up headcounts. *)
Fixpoint getRolledUpHeadcount (node : OrgNode) : Z :=
  match children node with
  | None => headcount node
  | Some [] => headcount node
  | Some cs =>
      fold_left (fun sum child => sum + getRolledUpHeadcount child) cs 0
  end.

(** [getRolledUpValidatedCapacity]: the loop carries [total] and [hasAny]. *)
Fixpoint getRolledUpValidatedCapacity (node : OrgNode) : option Z :=
  match children node with
  | None => validatedCapacity node
  | Some [] => validatedCapacity node
  | Some cs =>
      let '(total, hasAny) :=
        fold_left
          (fun (acc : Z * bool) child =>
             match getRolledUpValidatedCapacity child with
             | Some childVal => (fst acc + childVal, true)
             | None => acc
             end)
          cs (0, false) in
      if hasAny then Some total else None
  end.

(** [updateNodeInTree]: the first node met on a path from the root whose
    id is [nodeId] is handed to [updater]; nothing below it is visited. *)
Fixpoint updateNodeInTree (root : OrgNode) (nodeId : string)
    (updater : OrgNode -> OrgNode) : OrgNode :=
  if String.eqb (id root) nodeId then updater root
  else
    match children root with
    | None => root
    | Some cs =>
        with_children
          (Some (map (fun child => updateNodeInTree child nodeId updater) cs))
          root
    end.

(** [recalcParentHeadcounts]: bottom-up, every node with a non-empty
    [children] array gets the sum of its rebuilt children's headcounts. *)
Fixpoint recalcParentHeadcounts (node : OrgNode) : OrgNode :=
  match children node with
  | None => node
  | Some [] => node
  | Some cs =>
      let updatedChildren := map recalcParentHeadcounts cs in
      let sum := fold_left (fun s c => s + headcount c) updatedChildren 0 in
      with_headcount sum (with_children (Some updatedChildren) node)
  end.

(** [updateHeadcountAndRollUp] *)
Definition updateHeadcountAndRollUp (root : OrgNode) (nodeId : string)
    (newHeadcount : Z) : OrgNode :=
  let updated :=
    updateNodeInTree root nodeId (fun n => with_headcount newHeadcount n) in
  recalcParentHeadcounts updated.

(** [flattenTree]: the node, then the flattened children in order. *)
Fixpoint flattenTree (node : OrgNode) : list OrgNode :=
  node ::
  match children node with
  | None => []
  | Some cs => flat_map flattenTree cs
  end.

(** ** Vocabulary of the properties *)

(** Headcounts of the direct children of a node. *)
Definition childHeadcounts (n : OrgNode) : list Z :=
  match children n with
  | None => []
  | Some cs => map headcount cs
  end.

(** Invariant 2 at one node: a node with children stores the sum of its
    direct children's headcounts. *)
Definition rollupOK (n : OrgNode) : Prop :=
  isLeaf n = false -> headcount n = sumZ (childHeadcounts n).

(** The leaves below (or at) a node, left to right. *)
Fixpoint leaves (node : OrgNode) : list OrgNode :=
  match children node with
  | None => [node]
  | Some [] => [node]
  | Some cs => flat_map leaves cs
  end.

(** The node reached from [t] by following child positions [p]. *)
Fixpoint nodeAt (p : list nat) (t : OrgNode) : option OrgNode :=
  match p with
  | [] => Some t
  | i :: p' =>
      match children t with
      | None => None
      | Some cs =>
          match nth_error cs i with
          | None => None
          | Some c => nodeAt p' c
          end
      end
  end.

(** [nodeId] is the id of some node of the tree. *)
Definition occursIn (nodeId : string) (t : OrgNode) : Prop :=
  In nodeId (map id (flattenTree t)).

(** Locality of a headcount edit as the claim states it: a node whose
    subtree holds no node with the edited id (so it is neither the edited
    node nor one of its ancestors) is still found at the same position
    afterwards, with the same headcount. *)
Definition editIsLocal (t : OrgNode) (nodeId : string) (h : Z) : Prop :=
  forall p n,
    nodeAt p t = Some n ->
    ~ occursIn nodeId n ->
    exists n',
      nodeAt p (updateHeadcountAndRollUp t nodeId h) = Some n' /\
      headcount n' = headcount n.

(** Invariant 2 away from the edit: every node whose subtree holds no node
    with the edited id stores the sum of its children, if it has any.
    Nothing is asked of the edited node or of its ancestors. *)
Definition rolledUpOffPath (nodeId : string) (t : OrgNode) : Prop :=
  forall n, In n (flattenTree t) -> ~ occursIn nodeId n -> rollupOK n.

(** Validated capacities that are set, in list order. *)
Definition setValues (ls : list OrgNode) : list Z := omap validatedCapacity ls.

(** Every node of the list has an unset validated capacity. *)
Definition allUnset (ls : list OrgNode) : bool :=
  forallb (fun l => match validatedCapacity l with
                    | None => true
                    | Some _ => false
                    end) ls.

(** The validated-capacity rollup as the specification words it, over the
    leaves below a node: unset when every leaf is unset, otherwise the sum
    of the values that are set. *)
Definition rollUpValidatedSpec (ls : list OrgNode) : option Z :=
  if allUnset ls then None else Some (sumZ (setValues ls)).

(** A node with the given id, headcount, validated capacity and children
    and neutral values elsewhere, for writing small trees. *)
Definition sampleNode (i : string) (h : Z) (v : option Z)
    (cs : option (list OrgNode)) : OrgNode :=
  MkOrgNode i 0 i "" "AE" None None None None 0 h 0 v 0 NotStarted cs 0
    None None None None None None None None.

(** The same tree with every headcount reset to [0]: what is left when the
    headcount field is ignored (shape, child order and all other fields). *)
Fixpoint forgetHeadcount (node : OrgNode) : OrgNode :=
  with_headcount 0
    (with_children
       (match children node with
        | None => None
        | Some cs => Some (map forgetHeadcount cs)
        end)
       node).

(** ** Sample trees *)

(** [orgHierarchy], the tree the application starts from. *)
Definition aeLeaf (i : string) (row : Z) (nm : string) (v : Z) (seg : string)
    : OrgNode :=
  MkOrgNode i row nm "" "AE" None None None (Some "#9ca3af") 0 1 0 (Some v) 0
    NotStarted None 4 (Some [seg]) None None None None None None None.

Definition rvpUs : OrgNode :=
  MkOrgNode "rvp-us" 4 "RVP US" "Emily Thompson" "RVP" None None None
    (Some "#22a06b") 0 4 0 None 0 NotStarted
    (Some [aeLeaf "ae1" 5 "AE1" 1200 "AERO";
           aeLeaf "ae2" 6 "AE2" 1150 "AERO";
           aeLeaf "ae3" 7 "AE3" 1100 "Manufacturing";
           aeLeaf "ae4" 8 "AE4" 1050 "Manufacturing"])
    3 None None None None None None None None.

Definition rvpCanada : OrgNode :=
  MkOrgNode "rvp-canada" 9 "RVP Canada" "David Patel" "RVP" None None None
    (Some "#e0a030") 0 4 0 None 0 NotStarted
    (Some [aeLeaf "ae5" 10 "AE5" 1200 "AERO";
           aeLeaf "ae6" 11 "AE6" 1150 "AERO";
           aeLeaf "ae7" 12 "AE7" 1100 "Manufacturing";
           aeLeaf "ae8" 13 "AE8" 1050 "Manufacturing"])
    3 None None None None None None None None.

Definition amerAvp : OrgNode :=
  MkOrgNode "amer-industries-avp" 3 "AMER Industries AVP" "James Carter" "AVP"
    None None None (Some "#3b82f6") 0 8 0 None 0 Drafting
    (Some [rvpUs; rvpCanada]) 2 (Some ["AERO"; "Manufacturing"])
    None None None None None None None.

Definition svpAmer : OrgNode :=
  MkOrgNode "svp-amer" 2 "SVP AMER" "Sarah Mitchell" "SVP" None None None
    (Some "#e0a030") 0 8 0 None 0 Cascaded (Some [amerAvp]) 1
    None None None None None None None None.

Definition orgHierarchy : OrgNode :=
  MkOrgNode "cro" 1 "CRO" "Michael Reynolds" "CRO" None None None
    (Some "#2e2e2e") 0 8 0 None 0 Cascaded (Some [svpAmer]) 0
    None None None None None None None None.

(** A root with two leaves, A with headcount 3 and B with headcount 5. *)
Definition twoLeafTree : OrgNode :=
  sampleNode "root" 8 None
    (Some [sampleNode "A" 3 None None; sampleNode "B" 5 (Some 0) None]).

(** A tree whose node "a" stores 99 although its only child stores 1. *)
Definition staleTree : OrgNode :=
  sampleNode "root" 6 None
    (Some [sampleNode "a" 99 None (Some [sampleNode "a1" 1 None None]);
           sampleNode "b" 5 None None]).

(** A tree whose root stores 99 over two leaves that store 3 and 5. *)
Definition staleRootTree : OrgNode :=
  sampleNode "root" 99 None
    (Some [sampleNode "A" 3 None None; sampleNode "B" 5 None None]).

(** [{ ...n, targetCapacity: v }] and [{ ...n, validatedCapacity: v }], the
    updaters the table hands to [updateNodeInTree]. *)
Definition with_targetCapacity (v : Z) (n : OrgNode) : OrgNode :=
  MkOrgNode (id n) (rowNumber n) (name n) (personName n) (role n)
    (directReports n) (avatarUrl n) (avatarInitials n) (avatarColor n)
    v (headcount n) (expectedCapacity n) (validatedCapacity n)
    (difference n) (status n) (children n) (depth n) (segments n)
    (repType n) (industry n) (startDate n) (allocatedHC n)
    (validatedVeterans n) (validatedTBH n) (totalHC n).

Definition with_validatedCapacity (v : Z) (n : OrgNode) : OrgNode :=
  MkOrgNode (id n) (rowNumber n) (name n) (personName n) (role n)
    (directReports n) (avatarUrl n) (avatarInitials n) (avatarColor n)
    (targetCapacity n) (headcount n) (expectedCapacity n) (Some v)
    (difference n) (status n) (children n) (depth n) (segments n)
    (repType n) (industry n) (startDate n) (allocatedHC n)
    (validatedVeterans n) (validatedTBH n) (totalHC n).

(** An updater that leaves the id, the headcount and the children alone. *)
Definition keepsRollupFields (updater : OrgNode -> OrgNode) : Prop :=
  forall n, id (updater n) = id n /\ headcount (updater n) = headcount n /\
            children (updater n) = children n.

(** Headcount a leaf carries after an edit of [nodeId] to [h]. *)
Definition editedHeadcount (nodeId : string) (h : Z) (l : OrgNode) : Z :=
  if String.eqb (id l) nodeId then h else headcount l.

End Hierarchy.

(** [getTotals] of [data/hierarchy.ts]. *)
Module Totals.

Record Totals := MkTotals {
  totalRows : nat;
  targetCapacity : Z;
  headcount : Z;
  expectedCapacity : Z;
  difference : Z
}.

Definition getTotals (node : option Hierarchy.OrgNode) : Totals :=
  match node with
  | None => MkTotals 0 0 0 0 0
  | Some n =>
      let all := Hierarchy.flattenTree n in
      MkTotals (length all) (Hierarchy.targetCapacity n)
        (Hierarchy.getRolledUpHeadcount n) (Hierarchy.expectedCapacity n)
        (Hierarchy.difference n)
  end.

End Totals.

(** The tree-table component ([TreeTable.tsx]): the state transitions of
    its callbacks and the pure helpers of its rows and panels. *)
Module TreeTable.
Import Hierarchy.

Definition CAPACITY_PER_HC : Z := 1000.

(** [getExpectedCapacity] *)
Definition getExpectedCapacity (node : OrgNode) : Z :=
  headcount node * CAPACITY_PER_HC.

(** [Math.round] on an exact rational: the nearest integer, halves upwards. *)
Definition mathRound (q : Q) : Z := Qfloor (q + (1 # 2))%Q.

(** [rampedCapacity] of [NodeSidePanel]. *)
Definition rampedCapacity (node : OrgNode) : Z :=
  let expectedCap := getExpectedCapacity node in
  let hc := headcount node in
  if 0 <? hc then mathRound (inject_Z expectedCap / inject_Z hc)%Q else 0.

(** A [for ... of] loop that returns the first result that is not [null]. *)
Section FirstSome.
Context {A B : Type} (f : A -> option B).

Fixpoint firstSome (l : list A) : option B :=
  match l with
  | [] => None
  | c :: rest =>
      match f c with
      | Some found => Some found
      | None => firstSome rest
      end
  end.
End FirstSome.

(** [findNode] of [syncedSelectedNode]. *)
Fixpoint findNode (selectedNodeId : string) (n : OrgNode) : option OrgNode :=
  if String.eqb (id n) selectedNodeId then Some n
  else
    match children n with
    | None => None
    | Some cs => firstSome (findNode selectedNodeId) cs
    end.

(** [handleNodeUpdate] and [handleHeadcountUpdate], as functions of the
    previous tree state. *)
Definition handleNodeUpdate (nodeId : string) (updater : OrgNode -> OrgNode)
    (prev : option OrgNode) : option OrgNode :=
  match prev with
  | None => None
  | Some t => Some (updateNodeInTree t nodeId updater)
  end.

Definition handleHeadcountUpdate (nodeId : string) (value : Z)
    (prev : option OrgNode) : option OrgNode :=
  match prev with
  | None => None
  | Some t => Some (updateHeadcountAndRollUp t nodeId value)
  end.

(** [addExpanded] and [getInitialExpanded]: the ids met above depth 3. *)
Fixpoint addExpanded (node : OrgNode) (depth : nat) (ids : gset string)
    : gset string :=
  let ids1 := if (depth <? 3)%nat then {[ id node ]} ∪ ids else ids in
  match children node with
  | None => ids1
  | Some cs =>
      fold_left (fun acc child => addExpanded child (S depth) acc) cs ids1
  end.

Definition getInitialExpanded (treeData : option OrgNode) : gset string :=
  match treeData with
  | None => ∅
  | Some t => addExpanded t 0 ∅
  end.

(** [handleToggle] *)
Definition handleToggle (i : string) (prev : gset string) : gset string :=
  if decide (i ∈ prev) then prev ∖ {[ i ]} else {[ i ]} ∪ prev.

(** The rows [TreeRow] renders for a node: its own row, then the rows of
    its children when it has children and its id is expanded. *)
Fixpoint visibleRows (expandedIds : gset string) (node : OrgNode)
    : list OrgNode :=
  node ::
  match children node with
  | None => []
  | Some cs =>
      if negb (isLeaf node) && bool_decide (id node ∈ expandedIds)
      then flat_map (visibleRows expandedIds) cs
      else []
  end.

(** [handleSaveColumns] as a function of the previous column list. *)
Definition handleSaveColumns (selected prev : list string) : list string :=
  let existing : gset string := list_to_set prev in
  let newCols := List.filter (fun c => negb (bool_decide (c ∈ existing))) selected in
  prev ++ newCols.

(** The state of [AddColumnModal]. *)
Record ModalState := MkModalState {
  available : list string;
  selected : list string;
  highlightedAvailable : gset string;
  highlightedSelected : gset string
}.

Definition ALL_AVAILABLE_COLUMNS : list string :=
  [ "LY Headcount (IC)"; "LY AE Capacity"; "User ID"; "User Name"; "Role";
    "Level"; "Avg. Deal Size"; "Win Rate"; "Quota Attainment Rate" ].

Definition includes (l : list string) (c : string) : bool :=
  existsb (String.eqb c) l.

Definition initialModal (alreadyAdded : list string) : ModalState :=
  MkModalState
    (List.filter (fun c => negb (includes alreadyAdded c)) ALL_AVAILABLE_COLUMNS)
    [] ∅ ∅.

Definition moveRight (st : ModalState) : ModalState :=
  let toMove :=
    List.filter (fun c => bool_decide (c ∈ highlightedAvailable st))
      (available st) in
  if (length toMove =? 0)%nat then st
  else MkModalState
         (List.filter (fun c => negb (bool_decide (c ∈ highlightedAvailable st)))
            (available st))
         (selected st ++ toMove) ∅ (highlightedSelected st).

Definition moveLeft (st : ModalState) : ModalState :=
  let toMove :=
    List.filter (fun c => bool_decide (c ∈ highlightedSelected st))
      (selected st) in
  if (length toMove =? 0)%nat then st
  else MkModalState
         (available st ++ toMove)
         (List.filter (fun c => negb (bool_decide (c ∈ highlightedSelected st)))
            (selected st))
         (highlightedAvailable st) ∅.

(** [indexOf]: the first position of an item, [None] for [-1]. *)
Fixpoint indexOf (item : string) (l : list string) : option nat :=
  match l with
  | [] => None
  | x :: rest =>
      if String.eqb x item then Some 0%nat
      else option_map S (indexOf item rest)
  end.

(** The destructuring swap of positions [j] and [j + 1]. *)
Definition swapAt (j : nat) (l : list string) : list string :=
  match l !! j, l !! S j with
  | Some a, Some b => <[ j := b ]> (<[ S j := a ]> l)
  | _, _ => l
  end.

Definition withSelected (next : list string) (st : ModalState) : ModalState :=
  MkModalState (available st) next (highlightedAvailable st)
    (highlightedSelected st).

(** [moveUp] and [moveDown]: with exactly one highlighted item, swap it
    with its neighbour unless it is absent or already at the end. *)
Definition moveUp (st : ModalState) : ModalState :=
  match elements (highlightedSelected st) with
  | [item] =>
      match indexOf item (selected st) with
      | Some (S j) => withSelected (swapAt j (selected st)) st
      | _ => st
      end
  | _ => st
  end.

Definition moveDown (st : ModalState) : ModalState :=
  match elements (highlightedSelected st) with
  | [item] =>
      match indexOf item (selected st) with
      | Some j =>
          if (S j <? length (selected st))%nat
          then withSelected (swapAt j (selected st)) st
          else st
      | None => st
      end
  | _ => st
  end.

End TreeTable.

(** * The allocator in exact arithmetic *)
Module TerritoryPlanning.

(** [interface TerritoryRow] *)
Record TerritoryRow := MkTerritoryRow {
  id : string;
  name : string;
  owner : string;
  region : string;
  units : option Z;
  tam : option Z
}.

(** [interface AEInfo] *)
Record AEInfo := MkAEInfo {
  validatedCapacity : option Z;
  reportingTo : string
}.

Definition initialTerritoryData : list TerritoryRow :=
  [ MkTerritoryRow "t1" "US_AERO 1" "AE1" "US" None None;
    MkTerritoryRow "t2" "US_AERO 2" "AE2" "US" None None;
    MkTerritoryRow "t5" "CAN_AERO 1" "AE5" "CAN" None None;
    MkTerritoryRow "t6" "CAN_AERO 2" "AE6" "CAN" None None;
    MkTerritoryRow "unassigned" "Unassigned" "" "" (Some 1000) (Some 12000) ].

(** [flattenAEs]: every node whose role is "AE" is entered under its name,
    with its validated capacity and the label of its parent; a later node
    of the same name replaces an earlier one. *)
Definition parentLabel (parent : option Hierarchy.OrgNode) : string :=
  match parent with
  | None => ""
  | Some q =>
      Hierarchy.name q ++
      (if String.eqb (Hierarchy.personName q) "" then ""
       else " - " ++ Hierarchy.personName q)
  end.

Fixpoint walk (n : Hierarchy.OrgNode) (parent : option Hierarchy.OrgNode)
    (m : gmap string AEInfo) : gmap string AEInfo :=
  let m1 :=
    if String.eqb (Hierarchy.role n) "AE"
    then <[Hierarchy.name n :=
             MkAEInfo (Hierarchy.validatedCapacity n) (parentLabel parent)]> m
    else m in
  match Hierarchy.children n with
  | None => m1
  | Some cs => fold_left (fun acc child => walk child (Some n) acc) cs m1
  end.

Definition flattenAEs (node : Hierarchy.OrgNode) : gmap string AEInfo :=
  walk node None ∅.

(** The part of the component state that [handleOptimize] reads or sets. *)
Record PlanningState := MkPlanningState {
  territoryData : list TerritoryRow;
  optimized : bool;
  showBanner : bool
}.

Definition initialState : PlanningState :=
  MkPlanningState initialTerritoryData false true.

Definition TOTAL_UNITS : Z := 1000.
Definition TOTAL_TAM : Z := 12000.

(** [t.id !== 'unassigned'] *)
Definition isAERow (t : TerritoryRow) : bool :=
  negb (String.eqb (id t) "unassigned").

(** [aeInfoMap.get(t.owner)?.validatedCapacity ?? 0] *)
Definition capacityOf (aeInfoMap : gmap string AEInfo) (t : TerritoryRow) : Z :=
  match aeInfoMap !! owner t with
  | Some info =>
      match validatedCapacity info with
      | Some v => v
      | None => 0
      end
  | None => 0
  end.

(** [capacities]: the weights of the rows other than "unassigned". *)
Definition capacities (aeInfoMap : gmap string AEInfo)
    (rows : list TerritoryRow) : list Z :=
  map (capacityOf aeInfoMap) (List.filter isAERow rows).

(** The elements [{ i, frac }] that are sorted. *)
Record Fractional := MkFractional { i : nat; frac : Q }.

(** [Array.prototype.sort] with a comparator is a stable sort: [a] stays
    in front of a later [b] unless [cmp a b > 0].  Insertion from the right
    computes that order. *)
Section StableSort.
Context {A : Type} (cmp : A -> A -> Q).

Fixpoint insertStable (x : A) (l : list A) : list A :=
  match l with
  | [] => [x]
  | y :: l' =>
      if Qle_bool (cmp x y) 0 then x :: y :: l' else y :: insertStable x l'
  end.

Definition sortStable (l : list A) : list A := fold_right insertStable [] l.
End StableSort.

(** The rounding block of [handleOptimize].  The source writes it twice,
    for [TOTAL_UNITS] and for [TOTAL_TAM]; the two copies differ in the pool
    constant and in variable names only, so one function of the pool stands
    for both.  [None] is the [TypeError] of reading [.i] from an absent
    [fractionals[k]]. *)
Definition roundToPool (pool : Z) (caps : list Z) (totalCapacity : Z)
    : option (list Z) :=
  let raw :=
    map (fun c => (inject_Z c / inject_Z totalCapacity) * inject_Z pool)%Q caps in
  let floored := map Qfloor raw in
  let remaining := pool - fold_left (fun s v => s + v) floored 0 in
  let fractionals :=
    imap (fun k u =>
            MkFractional k (u - inject_Z (default 0%Z (floored !! k)))%Q) raw in
  let sorted := sortStable (fun a b => frac b - frac a)%Q fractionals in
  fold_left
    (fun acc k =>
       match acc with
       | None => None
       | Some fl =>
           match sorted !! k with
           | None => None
           | Some e => Some (alter Z.succ (i e) fl)
           end
       end)
    (seq 0 (Z.to_nat remaining)) (Some floored).

(** The [territoryData.map] that builds [updated]; [aeIndex] counts the
    rows other than "unassigned" met so far. *)
Fixpoint buildUpdated (rows : list TerritoryRow) (aeIndex : nat)
    (flooredUnits flooredTam : list Z) : list TerritoryRow :=
  match rows with
  | [] => []
  | row :: rest =>
      if String.eqb (id row) "unassigned"
      then MkTerritoryRow (id row) (name row) (owner row) (region row)
             (Some 0) (Some 0)
           :: buildUpdated rest aeIndex flooredUnits flooredTam
      else MkTerritoryRow (id row) (name row) (owner row) (region row)
             (flooredUnits !! aeIndex) (flooredTam !! aeIndex)
           :: buildUpdated rest (S aeIndex) flooredUnits flooredTam
  end.

(** [handleOptimize] as a function from the state before the click to the
    state after it.  The callback returns [undefined] on every path; its
    only outputs are the three setters, called together at the end.
    [None] is a raised exception, after which no setter has run. *)
Definition handleOptimize (aeInfoMap : gmap string AEInfo)
    (s : PlanningState) : option PlanningState :=
  let caps := capacities aeInfoMap (territoryData s) in
  let totalCapacity := fold_left (fun s v => s + v) caps 0 in
  if totalCapacity =? 0 then Some s
  else
    match roundToPool TOTAL_UNITS caps totalCapacity with
    | None => None
    | Some flooredUnits =>
        match roundToPool TOTAL_TAM caps totalCapacity with
        | None => None
        | Some flooredTam =>
            Some (MkPlanningState
                    (buildUpdated (territoryData s) 0 flooredUnits flooredTam)
                    true true)
        end
    end.

(** [totalUnits] and [totalTam] of the component. *)
Definition totalUnits (rows : list TerritoryRow) : Z :=
  fold_left (fun s t => s + default 0 (units t)) rows 0.

Definition totalTam (rows : list TerritoryRow) : Z :=
  fold_left (fun s t => s + default 0 (tam t)) rows 0.

(** ** Vocabulary of the properties *)

(** Total weight of the rows that take part in the allocation. *)
Definition totalWeight (aeInfoMap : gmap string AEInfo)
    (rows : list TerritoryRow) : Z :=
  sumZ (capacities aeInfoMap rows).

(** The rows other than "unassigned", in order: the entities. *)
Definition aeRows (rows : list TerritoryRow) : list TerritoryRow :=
  List.filter isAERow rows.

(** Exact proportional share of a pool for weight [c]. *)
Definition share (pool total c : Z) : Q :=
  (inject_Z c / inject_Z total * inject_Z pool)%Q.

(** Fractional remainder of the share. *)
Definition remainder (pool total c : Z) : Q :=
  (share pool total c - inject_Z (Qfloor (share pool total c)))%Q.

(** What is left of the pool once every entity has the floor of its share. *)
Definition leftover (pool total : Z) (caps : list Z) : Z :=
  pool - sumZ (map (fun c => Qfloor (share pool total c)) caps).

(** Entity [j] is served before entity [k]: its remainder is larger, or
    the remainders are equal and [j] comes earlier in the input. *)
Definition ahead (rs : list Q) (j k : nat) : bool :=
  match rs !! j, rs !! k with
  | Some rj, Some rk =>
      negb (Qle_bool rj rk) || (Qeq_bool rj rk && (j <? k)%nat)
  | _, _ => false
  end.

(** Number of entities served before entity [k]. *)
Definition rank (rs : list Q) (k : nat) : nat :=
  length (List.filter (fun j => ahead rs j k) (seq 0 (length rs))).

(** Entity [k] is one of the [leftover] first-served entities. *)
Definition winsExtra (pool total : Z) (caps : list Z) (k : nat) : bool :=
  Z.of_nat (rank (map (remainder pool total) caps) k) <? leftover pool total caps.

(** Largest-remainder apportionment as the specification words it: the
    floor of the share, plus one for each of the [leftover] entities with
    the largest remainders, ties going to the earlier entity. *)
Definition largestRemainder (pool total : Z) (caps : list Z) : list Z :=
  imap (fun k c =>
          Qfloor (share pool total c) +
          (if winsExtra pool total caps k then 1 else 0)) caps.

(** The entities that receive an extra unit. *)
Definition winners (pool total : Z) (caps : list Z) : list nat :=
  List.filter (winsExtra pool total caps) (seq 0 (length caps)).

(** Sum of a list of rationals. *)
Definition sumQ (l : list Q) : Q := fold_right Qplus 0%Q l.

(** Number of strictly positive remainders. *)
Definition countPos (rs : list Q) : nat :=
  length (List.filter (fun r => negb (Qle_bool r 0)) rs).

(** The order in which the sorted array lists its elements: larger [frac]
    first, equal [frac] by smaller [i]. *)
Definition before (a b : Fractional) : Prop :=
  (frac b < frac a)%Q \/ (frac a == frac b /\ (i a < i b)%nat).

Definition beforeb (a b : Fractional) : bool :=
  negb (Qle_bool (frac a) (frac b)) ||
  (Qeq_bool (frac a) (frac b) && (i a <? i b)%nat).

(** Number of elements of [s] listed before [e]. *)
Definition posCount (e : Fractional) (s : list Fractional) : nat :=
  length (List.filter (fun a => beforeb a e) s).

(** The array [fractionals]: position and remainder of every raw share. *)
Definition fractionalsOf (raw : list Q) : list Fractional :=
  imap (fun k u => MkFractional k (u - inject_Z (Qfloor u))%Q) raw.

(** The comparator handed to [sort]. *)
Definition byFracDesc (a b : Fractional) : Q := (frac b - frac a)%Q.

(** The array [{ i, frac }] built from a list of remainders. *)
Definition indexed (fr : list Q) : list Fractional := imap MkFractional fr.

(** A run of the callback signals something when it raises or when it
    leaves a state that differs from the one it started in: the callback
    returns [undefined] on every path, so the setters and an exception are
    its only outputs. *)
Definition signalsOutcome (before : PlanningState)
    (outcome : option PlanningState) : Prop :=
  match outcome with
  | None => True
  | Some after => after <> before
  end.

(** The weights of the four territories of the initial data. *)
Definition sampleCaps : list Z := [1200; 1150; 1200; 1150].

(** A state in which an allocation has been performed and displayed. *)
Definition allocatedState : PlanningState :=
  MkPlanningState
    [ MkTerritoryRow "t1" "US_AERO 1" "AE1" "US" (Some 255) (Some 3064);
      MkTerritoryRow "t2" "US_AERO 2" "AE2" "US" (Some 245) (Some 2936);
      MkTerritoryRow "t5" "CAN_AERO 1" "AE5" "CAN" (Some 255) (Some 3064);
      MkTerritoryRow "t6" "CAN_AERO 2" "AE6" "CAN" (Some 245) (Some 2936);
      MkTerritoryRow "unassigned" "Unassigned" "" "" (Some 0) (Some 0) ]
    true true.

(** An org tree in which no account executive has capacity: the map built
    from a single executive whose validated capacity is unset. *)
Definition noCapacityMap : gmap string AEInfo :=
  flattenAEs (Hierarchy.sampleNode "AE1" 1 None None).

(** [toggleSelection] and [toggleAll] *)
Definition toggleSelection (rowId : string) (prev : gset string) : gset string :=
  if decide (rowId ∈ prev) then prev ∖ {[ rowId ]} else {[ rowId ]} ∪ prev.

Definition toggleAll (rows : list TerritoryRow) (selectedIds : gset string)
    : gset string :=
  if (size selectedIds =? length rows)%nat then ∅
  else list_to_set (map id rows).

(** [totalTerritories], [totalValidatedCapacity] and [hasAnyValidated] *)
Definition totalTerritories (rows : list TerritoryRow) : nat :=
  length (List.filter isAERow rows).

Definition ownerCapacity (aeInfoMap : gmap string AEInfo) (t : TerritoryRow)
    : option Z :=
  match aeInfoMap !! owner t with
  | Some info => validatedCapacity info
  | None => None
  end.

Definition totalValidatedCapacity (aeInfoMap : gmap string AEInfo)
    (rows : list TerritoryRow) : Z :=
  fold_left
    (fun sum t =>
       match ownerCapacity aeInfoMap t with
       | Some val => sum + val
       | None => sum
       end)
    (List.filter isAERow rows) 0.

Definition hasAnyValidated (aeInfoMap : gmap string AEInfo)
    (rows : list TerritoryRow) : bool :=
  existsb
    (fun t => match ownerCapacity aeInfoMap t with
              | Some _ => true
              | None => false
              end)
    (List.filter isAERow rows).

(** What a row keeps through [handleOptimize]. *)
Definition rowIdentity (t : TerritoryRow) : string * string * string * string :=
  (id t, name t, owner t, region t).

(** The account executives of a tree in the order [flattenAEs] meets them. *)
Definition aeNodes (t : Hierarchy.OrgNode) : list Hierarchy.OrgNode :=
  List.filter (fun n => String.eqb (Hierarchy.role n) "AE")
    (Hierarchy.flattenTree t).



(** Allocation of one entity under the largest-remainder rule. *)
Definition alloc (pool total : Z) (caps : list Z) (k : nat) (c : Z) : Z :=
  Qfloor (share pool total c) + (if winsExtra pool total caps k then 1 else 0).

End TerritoryPlanning.

(** * Double-precision numbers

    A JavaScript [number] is an IEEE 754 binary64 value.  A finite double
    is modelled by the rational it stands for; the two infinities and NaN
    are values of their own.  Every arithmetic operation computes the exact
    rational result and rounds it once, to the nearest double, ties to the
    even significand, as the standard prescribes for [+], [-], [*] and
    [/]; a result of magnitude [2^1024] or more after rounding is an
    infinity, results below [2^-1022] are rounded on the subnormal grid of
    step [2^-1074].  The sign of a zero is not tracked: the code modelled
    here never divides by a zero it has not tested for and never prints a
    zero's sign. *)
Module Binary64.
Local Open Scope Q_scope.

Inductive double : Type :=
| Finite (q : Q)
| Infinity (negative : bool)
| NaN.

(** [2^e] *)
Definition pow2 (e : Z) : Q := 2 ^ e.

(** The exponent [e] with [2^e <= a < 2^(e+1)], for positive [a]. *)
Definition binade (a : Q) : Z :=
  let e := (Z.log2 (Qnum a) - Z.log2 (Zpos (Qden a)))%Z in
  if Qle_bool (pow2 e) a then e else (e - 1)%Z.

(** Nearest integer, a tie going to the even one. *)
Definition roundHalfEven (x : Q) : Z :=
  let f := Qfloor x in
  match Qcompare (x - inject_Z f) (1 # 2) with
  | Lt => f
  | Gt => (f + 1)%Z
  | Eq => if Z.even f then f else (f + 1)%Z
  end.

(** Distance between neighbouring doubles around magnitude [a]: 53 bits of
    significand, and the subnormal grid below [2^-1022]. *)
Definition ulpOf (a : Q) : Q := pow2 (Z.max (binade a) (-1022) - 52).

(** Rounding of an exact result to a double. *)
Definition round64 (q : Q) : double :=
  if Qeq_bool q 0 then Finite 0
  else
    let a := Qabs q in
    let r := inject_Z (roundHalfEven (a / ulpOf a)) * ulpOf a in
    if Qle_bool (pow2 1024) r then Infinity (negb (Qle_bool 0 q))
    else Finite (Qred (if Qle_bool 0 q then r else - r)).

Definition dneg (x : double) : double :=
  match x with
  | Finite a => Finite (Qred (- a))
  | Infinity s => Infinity (negb s)
  | NaN => NaN
  end.

(** [x + y] *)
Definition dadd (x y : double) : double :=
  match x, y with
  | Finite a, Finite b => round64 (a + b)
  | Finite _, Infinity s => Infinity s
  | Infinity s, Finite _ => Infinity s
  | Infinity s, Infinity s' => if Bool.eqb s s' then Infinity s else NaN
  | _, _ => NaN
  end.

(** [x - y] *)
Definition dsub (x y : double) : double := dadd x (dneg y).

Definition isNegative (a : Q) : bool := negb (Qle_bool 0 a).

(** [x * y] *)
Definition dmul (x y : double) : double :=
  match x, y with
  | Finite a, Finite b => round64 (a * b)
  | Finite a, Infinity s | Infinity s, Finite a =>
      if Qeq_bool a 0 then NaN else Infinity (xorb s (isNegative a))
  | Infinity s, Infinity s' => Infinity (xorb s s')
  | _, _ => NaN
  end.

(** [x / y] *)
Definition ddiv (x y : double) : double :=
  match x, y with
  | Finite a, Finite b =>
      if Qeq_bool b 0
      then (if Qeq_bool a 0 then NaN else Infinity (isNegative a))
      else round64 (a / b)
  | Finite _, Infinity _ => Finite 0
  | Infinity s, Finite b => Infinity (xorb s (isNegative b))
  | _, _ => NaN
  end.

(** [Math.floor] *)
Definition dfloor (x : double) : double :=
  match x with
  | Finite a => Finite (inject_Z (Qfloor a))
  | _ => x
  end.

(** [x < y]; false when either side is NaN. *)
Definition dlt (x y : double) : bool :=
  match x, y with
  | Finite a, Finite b => negb (Qle_bool b a)
  | Finite _, Infinity s => negb s
  | Infinity s, Finite _ => s
  | Infinity s, Infinity s' => s && negb s'
  | _, _ => false
  end.

(** [x === y] on numbers; NaN equals nothing. *)
Definition deq (x y : double) : bool :=
  match x, y with
  | Finite a, Finite b => Qeq_bool a b
  | Infinity s, Infinity s' => Bool.eqb s s'
  | _, _ => false
  end.

(** The double nearest to an integer, as a numeric literal or an input
    field yields it. *)
Definition ofZ (z : Z) : double := round64 (inject_Z z).

Definition ofNat (n : nat) : double := ofZ (Z.of_nat n).

(** ** Vocabulary of the properties *)

(** Multiples of the smallest positive double, [2^-1074]. *)
Definition onGrid (q : Q) : Prop := exists z : Z, q == inject_Z z * pow2 (-1074).

(** The double that holds the integer [z] exactly. *)
Definition ofInt (z : Z) : double := Finite (inject_Z z).

(** The rational a finite double stands for. *)
Definition valueOf (x : double) : Q :=
  match x with
  | Finite q => q
  | _ => 0
  end.

Definition isFinite (x : double) : bool :=
  match x with
  | Finite _ => true
  | _ => false
  end.

(** [q] is the value of a double: rounding returns it. *)
Definition isDouble (q : Q) : bool := deq (round64 q) (Finite q).

(** A finite double that is not negative. *)
Definition nonNegative (x : double) : bool :=
  match x with
  | Finite q => Qle_bool 0 q && isDouble q
  | _ => false
  end.

(** What [round64] returns, by cases. *)
Inductive Rounded (q : Q) : double -> Prop :=
| RoundedZero : q == 0 -> Rounded q (Finite 0)
| RoundedOverflow :
    ~ q == 0 ->
    pow2 1024 <= inject_Z (roundHalfEven (Qabs q / ulpOf (Qabs q))) * ulpOf (Qabs q) ->
    Rounded q (Infinity (negb (Qle_bool 0 q)))
| RoundedFinite q' :
    ~ q == 0 ->
    inject_Z (roundHalfEven (Qabs q / ulpOf (Qabs q))) * ulpOf (Qabs q) < pow2 1024 ->
    q' = Qred (if Qle_bool 0 q
               then inject_Z (roundHalfEven (Qabs q / ulpOf (Qabs q))) * ulpOf (Qabs q)
               else - (inject_Z (roundHalfEven (Qabs q / ulpOf (Qabs q))) * ulpOf (Qabs q))) ->
    Rounded q (Finite q').

(** Relative error of one rounding, [2^-53]. *)
Definition eps : Q := pow2 (-53).

(** A bound on the absolute error of two roundings in the subnormal
    range. *)
Definition tau : Q := pow2 (-1000).

(** The decimal fractions 0.1, 0.2 and 0.3 as doubles. *)
Definition tenth : double := round64 (1 # 10).
Definition fifth : double := round64 (2 # 10).
Definition threeTenths : double := round64 (3 # 10).

End Binary64.

(** * The allocator in double precision

    [handleOptimize] again, statement by statement, with every number a
    double and every operation rounded.  [Array.prototype.sort] is stable;
    it is modelled by insertion from the right, which yields the one
    stable order whenever the comparator is consistent, as it is on finite
    remainders.  A comparator result of NaN counts as 0, as the language
    defines.  The loop counter [k] is a natural number: below [2^53] the
    increments of a double are exact, and the loop cannot pass the length
    of the sorted array, which is below [2^32]. *)
Module TerritoryPlanning64.
Import Binary64.

(** [interface TerritoryRow] *)
Record TerritoryRow := MkTerritoryRow {
  id : string;
  name : string;
  owner : string;
  region : string;
  units : option double;
  tam : option double
}.

(** [interface AEInfo] *)
Record AEInfo := MkAEInfo {
  validatedCapacity : option double;
  reportingTo : string
}.

Definition initialTerritoryData : list TerritoryRow :=
  [ MkTerritoryRow "t1" "US_AERO 1" "AE1" "US" None None;
    MkTerritoryRow "t2" "US_AERO 2" "AE2" "US" None None;
    MkTerritoryRow "t5" "CAN_AERO 1" "AE5" "CAN" None None;
    MkTerritoryRow "t6" "CAN_AERO 2" "AE6" "CAN" None None;
    MkTerritoryRow "unassigned" "Unassigned" "" ""
      (Some (Finite 1000)) (Some (Finite 12000)) ].

(** The map of [flattenAEs], the integer capacities of the tree read as
    doubles. *)
Definition flattenAEs (node : Hierarchy.OrgNode) : gmap string AEInfo :=
  (fun info =>
     MkAEInfo (ofZ <$> TerritoryPlanning.validatedCapacity info)
       (TerritoryPlanning.reportingTo info))
  <$> TerritoryPlanning.flattenAEs node.

(** The part of the component state that [handleOptimize] reads or sets. *)
Record PlanningState := MkPlanningState {
  territoryData : list TerritoryRow;
  optimized : bool;
  showBanner : bool
}.

Definition initialState : PlanningState :=
  MkPlanningState initialTerritoryData false true.

Definition TOTAL_UNITS : double := Finite 1000.
Definition TOTAL_TAM : double := Finite 12000.

(** [t.id !== 'unassigned'] *)
Definition isAERow (t : TerritoryRow) : bool :=
  negb (String.eqb (id t) "unassigned").

(** [aeInfoMap.get(t.owner)?.validatedCapacity ?? 0] *)
Definition capacityOf (aeInfoMap : gmap string AEInfo) (t : TerritoryRow)
    : double :=
  match aeInfoMap !! owner t with
  | Some info =>
      match validatedCapacity info with
      | Some v => v
      | None => Finite 0
      end
  | None => Finite 0
  end.

Definition capacities (aeInfoMap : gmap string AEInfo)
    (rows : list TerritoryRow) : list double :=
  map (capacityOf aeInfoMap) (List.filter isAERow rows).

(** The elements [{ i, frac }] that are sorted. *)
Record Fractional := MkFractional { i : nat; frac : double }.

(** [sort(cmp)]: [a] stays in front of a later [b] unless [cmp a b > 0]. *)
Section StableSort.
Context {A : Type} (cmp : A -> A -> double).

Fixpoint insertStable (x : A) (l : list A) : list A :=
  match l with
  | [] => [x]
  | y :: l' =>
      if dlt (Finite 0) (cmp x y) then y :: insertStable x l'
      else x :: y :: l'
  end.

Definition sortStable (l : list A) : list A := fold_right insertStable [] l.
End StableSort.

(** [for (let k = 0; k < remaining; k++) floored[sorted[k].i]++], entered
    at counter [k] with [rest] the elements of [sorted] from position [k]
    on.  [None] is the [TypeError] of reading [.i] from the absent
    [sorted[k]].  The position [i e] always lies inside [floored], which
    has as many entries as [sorted]. *)
Fixpoint awardExtras (remaining : double) (rest : list Fractional) (k : nat)
    (floored : list double) : option (list double) :=
  if dlt (ofNat k) remaining then
    match rest with
    | [] => None
    | e :: rest' =>
        awardExtras remaining rest' (S k)
          (alter (fun v => dadd v (Finite 1)) (i e) floored)
    end
  else Some floored.

(** The rounding block of [handleOptimize], written twice in the source,
    for [TOTAL_UNITS] and for [TOTAL_TAM]. *)
Definition roundToPool (pool : double) (caps : list double)
    (totalCapacity : double) : option (list double) :=
  let raw := map (fun c => dmul (ddiv c totalCapacity) pool) caps in
  let floored := map dfloor raw in
  let remaining := dsub pool (fold_left dadd floored (Finite 0)) in
  let fractionals :=
    imap (fun k u => MkFractional k (dsub u (default NaN (floored !! k)))) raw in
  let sorted := sortStable (fun a b => dsub (frac b) (frac a)) fractionals in
  awardExtras remaining sorted 0 floored.

(** The [territoryData.map] that builds [updated]. *)
Fixpoint buildUpdated (rows : list TerritoryRow) (aeIndex : nat)
    (flooredUnits flooredTam : list double) : list TerritoryRow :=
  match rows with
  | [] => []
  | row :: rest =>
      if String.eqb (id row) "unassigned"
      then MkTerritoryRow (id row) (name row) (owner row) (region row)
             (Some (Finite 0)) (Some (Finite 0))
           :: buildUpdated rest aeIndex flooredUnits flooredTam
      else MkTerritoryRow (id row) (name row) (owner row) (region row)
             (flooredUnits !! aeIndex) (flooredTam !! aeIndex)
           :: buildUpdated rest (S aeIndex) flooredUnits flooredTam
  end.

(** [handleOptimize] as a function from the state before the click to the
    state after it; [None] is a raised exception, after which no setter
    has run. *)
Definition handleOptimize (aeInfoMap : gmap string AEInfo)
    (s : PlanningState) : option PlanningState :=
  let caps := capacities aeInfoMap (territoryData s) in
  let totalCapacity := fold_left dadd caps (Finite 0) in
  if deq totalCapacity (Finite 0) then Some s
  else
    match roundToPool TOTAL_UNITS caps totalCapacity with
    | None => None
    | Some flooredUnits =>
        match roundToPool TOTAL_TAM caps totalCapacity with
        | None => None
        | Some flooredTam =>
            Some (MkPlanningState
                    (buildUpdated (territoryData s) 0 flooredUnits flooredTam)
                    true true)
        end
    end.

(** ** Vocabulary of the properties *)

(** The rows other than "unassigned", in order: the entities. *)
Definition aeRows (rows : list TerritoryRow) : list TerritoryRow :=
  List.filter isAERow rows.

(** [totalCapacity] as the source computes it. *)
Definition computedTotal (caps : list double) : double :=
  fold_left dadd caps (Finite 0).

(** Exact sum of a list of rationals. *)
Definition sumQ : list Q -> Q := TerritoryPlanning.sumQ.

(** The share of weight [c] as the source computes it: a division and a
    multiplication, each rounded. *)
Definition share (pool total c : double) : double :=
  dmul (ddiv c total) pool.

(** The computed remainder of the computed share. *)
Definition remainder (pool total c : double) : double :=
  dsub (share pool total c) (dfloor (share pool total c)).

(** What is left of the pool once every entity has the floor of its
    computed share. *)
Definition leftover (pool total : double) (caps : list double) : double :=
  dsub pool
    (fold_left dadd (map (fun c => dfloor (share pool total c)) caps)
       (Finite 0)).

(** Entity [j] is served before entity [k]: its computed remainder is
    larger, or the two are the same double and [j] comes earlier. *)
Definition ahead (rs : list double) (j k : nat) : bool :=
  match rs !! j, rs !! k with
  | Some rj, Some rk => dlt rk rj || (deq rj rk && (j <? k)%nat)
  | _, _ => false
  end.

(** Number of entities served before entity [k]. *)
Definition rank (rs : list double) (k : nat) : nat :=
  length (List.filter (fun j => ahead rs j k) (seq 0 (length rs))).

(** Entity [k] is one of the [leftover] first-served entities. *)
Definition winsExtra (pool total : double) (caps : list double) (k : nat)
    : bool :=
  dlt (ofNat (rank (map (remainder pool total) caps) k))
    (leftover pool total caps).

(** Amount of one entity under the rule over computed shares. *)
Definition alloc (pool total : double) (caps : list double) (k : nat)
    (c : double) : double :=
  if winsExtra pool total caps k
  then dadd (dfloor (share pool total c)) (Finite 1)
  else dfloor (share pool total c).

(** Largest-remainder apportionment over the computed shares. *)
Definition largestRemainder (pool total : double) (caps : list double)
    : list double :=
  imap (alloc pool total caps) caps.

(** The entities that receive an extra unit. *)
Definition winners (pool total : double) (caps : list double) : list nat :=
  List.filter (winsExtra pool total caps) (seq 0 (length caps)).

(** The outcome the exactness claim describes: the run ends with a state
    in which every entity has an integer number of units and an integer
    TAM amount, none negative, the units summing to 1000 and the TAM
    amounts to 12000. *)
Definition sumsToPools (aeInfoMap : gmap string AEInfo) (s : PlanningState)
    : Prop :=
  exists (s' : PlanningState) (us ts : list Z),
    handleOptimize aeInfoMap s = Some s' /\
    map units (aeRows (territoryData s')) = map (fun u => Some (ofInt u)) us /\
    map tam (aeRows (territoryData s')) = map (fun t => Some (ofInt t)) ts /\
    length us = length (aeRows (territoryData s)) /\
    length ts = length (aeRows (territoryData s)) /\
    Forall (fun u => 0 <= u) us /\ Forall (fun t => 0 <= t) ts /\
    sumZ us = 1000 /\ sumZ ts = 12000.

(** The rule as the specification words it, over exact shares: every
    entity ends with the amounts [TerritoryPlanning.largestRemainder]
    gives for the integer weights [ws]. *)
Definition followsExactRule (aeInfoMap : gmap string AEInfo)
    (s : PlanningState) (ws : list Z) : Prop :=
  exists s' : PlanningState,
    handleOptimize aeInfoMap s = Some s' /\
    map units (aeRows (territoryData s')) =
      map (fun u => Some (ofInt u))
        (TerritoryPlanning.largestRemainder 1000 (sumZ ws) ws) /\
    map tam (aeRows (territoryData s')) =
      map (fun t => Some (ofInt t))
        (TerritoryPlanning.largestRemainder 12000 (sumZ ws) ws).

(** The weights of the four territories of the initial data, as doubles. *)
Definition sampleCaps : list double := map ofZ [1200; 1150; 1200; 1150].

(** A capacity map for the four owners of the initial rows. *)
Definition capacityMap (c1 c2 c5 c6 : double) : gmap string AEInfo :=
  <["AE1" := MkAEInfo (Some c1) ""]>
  (<["AE2" := MkAEInfo (Some c2) ""]>
  (<["AE5" := MkAEInfo (Some c5) ""]>
  (<["AE6" := MkAEInfo (Some c6) ""]> ∅))).

(** The element handed to the lemmas on the exact order: position and
    value of a computed remainder. *)
Definition conv (e : Fractional) : TerritoryPlanning.Fractional :=
  TerritoryPlanning.MkFractional (i e) (valueOf (frac e)).

(** A remainder that is a finite double. *)
Definition goodFrac (e : Fractional) : Prop :=
  exists q, frac e = Finite q /\ onGrid q.

(** The comparator handed to [sort]. *)
Definition byFrac64 (a b : Fractional) : double := dsub (frac b) (frac a).

(** The floors [fs] with one more for the entities that fewer than [r]
    others precede in the order of the remainders [fr]. *)
Definition bonus (fr : list Q) (r : nat) (fs : list Z) : list Z :=
  imap (fun k f => f + (if (TerritoryPlanning.rank fr k <? r)%nat then 1 else 0))
       fs.

End TerritoryPlanning64.

(** * Facts about sums and lists *)

Lemma fold_left_sum {A} (f : A -> Z) (l : list A) (a : Z) :
  fold_left (fun s c => s + f c) l a = a + sumZ (map f l).
Proof.
  revert a. induction l as [|x l IH]; intros a; simpl.
  - lia.
  - rewrite IH. lia.
Qed.

Lemma sumZ_app (l1 l2 : list Z) : sumZ (l1 ++ l2) = sumZ l1 + sumZ l2.
Proof. induction l1 as [|x l1 IH]; simpl; [reflexivity | rewrite IH; lia]. Qed.

Lemma sumZ_flat_map {A B} (f : B -> Z) (g : A -> list B) (l : list A) :
  sumZ (map f (flat_map g l)) = sumZ (map (fun x => sumZ (map f (g x))) l).
Proof.
  induction l as [|x l IH]; simpl; [reflexivity|].
  rewrite map_app, sumZ_app, IH. reflexivity.
Qed.

Lemma map_ext_Forall {A B} (f g : A -> B) (l : list A) :
  Forall (fun x => f x = g x) l -> map f l = map g l.
Proof. induction 1; simpl; congruence. Qed.

Lemma fold_left_add (l : list Z) (a : Z) :
  fold_left (fun s v => s + v) l a = a + sumZ l.
Proof.
  rewrite (fold_left_sum (fun v => v)). rewrite map_id. reflexivity.
Qed.

Lemma lookup_map {A B} (f : A -> B) (l : list A) (k : nat) :
  map f l !! k = f <$> l !! k.
Proof.
  revert k. induction l as [|x l IH]; intros [|k]; simpl; auto.
Qed.

Lemma length_filter_map {A B} (q : B -> bool) (g : A -> B) (l : list A) :
  length (List.filter q (map g l)) = length (List.filter (fun x => q (g x)) l).
Proof.
  induction l as [|x l IH]; simpl; [reflexivity|].
  destruct (q (g x)); simpl; rewrite IH; reflexivity.
Qed.

(** Counting over [imap] is counting over the positions. *)
Lemma count_imap {A B} (p : B -> bool) (l : list A) :
  forall (f : nat -> A -> B) (q : nat -> bool),
    (forall j x, l !! j = Some x -> p (f j x) = q j) ->
    length (List.filter p (imap f l)) =
    length (List.filter q (seq 0 (length l))).
Proof.
  induction l as [|x l IH]; intros f q H; [reflexivity|].
  rewrite imap_cons. cbn [length seq List.filter].
  rewrite (H 0%nat x eq_refl), <- seq_shift.
  assert (Hrest : length (List.filter p (imap (f ∘ S) l)) =
                  length (List.filter q (map S (seq 0 (length l))))).
  { rewrite length_filter_map. apply (IH (f ∘ S) (fun j => q (S j))).
    intros j y Hj. apply (H (S j) y). exact Hj. }
  destruct (q 0%nat); cbn [length]; rewrite Hrest; reflexivity.
Qed.

Lemma sumZ_imap_bonus {A} (g : A -> Z) (l : list A) :
  forall (w : nat -> bool),
    sumZ (imap (fun k c => g c + (if w k then 1 else 0)) l) =
    sumZ (map g l) + Z.of_nat (length (List.filter w (seq 0 (length l)))).
Proof.
  induction l as [|x l IH]; intros w; [reflexivity|].
  rewrite imap_cons. cbn [length seq List.filter map].
  change (sumZ (?a :: ?r)) with (a + sumZ r).
  unfold compose. cbn beta.
  rewrite (IH (fun j => w (S j))), <- seq_shift.
  pose proof (length_filter_map w S (seq 0 (length l))) as Hrest.
  destruct (w 0%nat); cbn [length]; rewrite Hrest; lia.
Qed.

(** * Properties of the hierarchy engine *)

Module HierarchyProofs.
Import Hierarchy.

(** Induction over the tree: children are covered by [Forall]. *)
Section OrgNode_induction.
Variable P : OrgNode -> Prop.
Hypothesis no_array : forall n, children n = None -> P n.
Hypothesis with_array :
  forall n cs, children n = Some cs -> Forall P cs -> P n.

Lemma OrgNode_ind : forall n, P n.
Proof.
  fix IH 1. intros n.
  destruct (children n) as [cs|] eqn:E.
  - apply with_array with cs; [exact E|].
    clear E. induction cs as [|c cs IHcs]; constructor.
    + apply IH.
    + exact IHcs.
  - apply no_array; exact E.
Qed.
End OrgNode_induction.

Lemma Forall_flat_map_map {A B C} (P : C -> Prop) (f : A -> B)
    (g : B -> list C) (l : list A) :
  Forall (fun x => Forall P (g (f x))) l -> Forall P (flat_map g (map f l)).
Proof.
  induction 1 as [|x xs Hx _ IH]; simpl; [constructor|].
  apply Forall_app. split; assumption.
Qed.

(** ** Unfolding equations of the recursive functions *)

Lemma getRolledUpHeadcount_eq n :
  getRolledUpHeadcount n =
  match children n with
  | None => headcount n
  | Some [] => headcount n
  | Some cs => sumZ (map getRolledUpHeadcount cs)
  end.
Proof.
  destruct n as [? ? ? ? ? ? ? ? ? ? ? ? ? ? ? [[|c cs]|] ? ? ? ? ? ? ? ? ?];
    try reflexivity.
  cbn [getRolledUpHeadcount children].
  rewrite (fold_left_sum getRolledUpHeadcount). lia.
Qed.

Lemma recalc_eq n :
  recalcParentHeadcounts n =
  match children n with
  | None => n
  | Some [] => n
  | Some cs =>
      with_headcount (sumZ (map headcount (map recalcParentHeadcounts cs)))
        (with_children (Some (map recalcParentHeadcounts cs)) n)
  end.
Proof.
  destruct n as [? ? ? ? ? ? ? ? ? ? ? ? ? ? ? [[|c cs]|] ? ? ? ? ? ? ? ? ?];
    try reflexivity.
  cbn [recalcParentHeadcounts children].
  rewrite (fold_left_sum headcount). reflexivity.
Qed.

Lemma updateNodeInTree_eq root nodeId updater :
  updateNodeInTree root nodeId updater =
  if String.eqb (id root) nodeId then updater root
  else match children root with
       | None => root
       | Some cs =>
           with_children
             (Some (map (fun c => updateNodeInTree c nodeId updater) cs)) root
       end.
Proof. destruct root; reflexivity. Qed.

Lemma flattenTree_eq n :
  flattenTree n =
  n :: match children n with
       | None => []
       | Some cs => flat_map flattenTree cs
       end.
Proof. destruct n; reflexivity. Qed.

Lemma leaves_eq n :
  leaves n =
  match children n with
  | None => [n]
  | Some [] => [n]
  | Some cs => flat_map leaves cs
  end.
Proof.
  destruct n as [? ? ? ? ? ? ? ? ? ? ? ? ? ? ? [[|c cs]|] ? ? ? ? ? ? ? ? ?];
    reflexivity.
Qed.

Lemma forgetHeadcount_eq n :
  forgetHeadcount n =
  with_headcount 0
    (with_children
       (match children n with
        | None => None
        | Some cs => Some (map forgetHeadcount cs)
        end) n).
Proof. destruct n; reflexivity. Qed.

(** Record updates that change nothing. *)
Lemma with_children_same n : with_children (children n) n = n.
Proof. destruct n; reflexivity. Qed.

Lemma with_headcount_same n : with_headcount (headcount n) n = n.
Proof. destruct n; reflexivity. Qed.

Lemma isLeaf_false n :
  isLeaf n = false -> exists c cs, children n = Some (c :: cs).
Proof.
  unfold isLeaf. destruct (children n) as [[|c cs]|]; try discriminate.
  intros _. exists c, cs. reflexivity.
Qed.

(** ** The recomputation pass establishes the rollup invariant *)

Lemma recalc_rollup n :
  Forall rollupOK (flattenTree (recalcParentHeadcounts n)) /\
  headcount (recalcParentHeadcounts n) =
    getRolledUpHeadcount (recalcParentHeadcounts n).
Proof.
  induction n as [n E | n cs E IH] using OrgNode_ind.
  - rewrite recalc_eq, E, flattenTree_eq, getRolledUpHeadcount_eq, E.
    split; [|reflexivity].
    constructor; [|constructor]. unfold rollupOK, isLeaf. rewrite E. discriminate.
  - rewrite recalc_eq, E. destruct cs as [|c cs].
    + rewrite flattenTree_eq, getRolledUpHeadcount_eq, E. split; [|reflexivity].
      constructor; [|constructor]. unfold rollupOK, isLeaf. rewrite E. discriminate.
    + set (cs' := map recalcParentHeadcounts (c :: cs)).
      assert (Hne : exists d ds, cs' = d :: ds) by (simpl; eauto).
      destruct Hne as (d & ds & Hcs').
      split.
      * rewrite flattenTree_eq. cbn [children with_headcount with_children].
        constructor.
        -- unfold rollupOK, childHeadcounts. cbn [children headcount with_headcount with_children].
           reflexivity.
        -- apply Forall_flat_map_map.
           eapply Forall_impl; [exact IH|]. intros x [Hx _]. exact Hx.
      * rewrite getRolledUpHeadcount_eq.
        cbn [children headcount with_headcount with_children].
        rewrite Hcs'. rewrite <- Hcs'. f_equal.
        unfold cs'. rewrite !map_map. apply map_ext_Forall.
        eapply Forall_impl; [exact IH|]. intros x [_ Hx]. exact Hx.
Qed.

Lemma rolledUp_leaves n :
  getRolledUpHeadcount n = sumZ (map headcount (leaves n)).
Proof.
  induction n as [n E | n cs E IH] using OrgNode_ind.
  - rewrite getRolledUpHeadcount_eq, leaves_eq, E. simpl. lia.
  - rewrite getRolledUpHeadcount_eq, leaves_eq, E. destruct cs as [|c cs].
    + simpl. lia.
    + rewrite sumZ_flat_map. f_equal. apply map_ext_Forall. exact IH.
Qed.

(** ** A nonexistent id *)

Lemma occursIn_root t : occursIn (id t) t.
Proof. unfold occursIn. rewrite flattenTree_eq. simpl. left. reflexivity. Qed.

Lemma occursIn_child x t cs c :
  children t = Some cs -> In c cs -> occursIn x c -> occursIn x t.
Proof.
  unfold occursIn. intros E Hc Hx. rewrite flattenTree_eq, E. simpl. right.
  apply in_map_iff in Hx. destruct Hx as (n & Hn & Hin).
  apply in_map_iff. exists n. split; [exact Hn|].
  apply in_flat_map. exists c. split; assumption.
Qed.

Lemma map_fixed_Forall {A} (f : A -> A) (l : list A) :
  Forall (fun x => f x = x) l -> map f l = l.
Proof. induction 1; simpl; congruence. Qed.

Lemma with_children_children n cs :
  children n = Some cs -> with_children (Some cs) n = n.
Proof. intros E. rewrite <- E. apply with_children_same. Qed.

Lemma updateNodeInTree_absent t x f :
  ~ occursIn x t -> updateNodeInTree t x f = t.
Proof.
  induction t as [t E | t cs E IH] using OrgNode_ind; intros Hx;
    rewrite updateNodeInTree_eq.
  - destruct (String.eqb_spec (id t) x) as [Heq|_].
    + exfalso. apply Hx. rewrite <- Heq. apply occursIn_root.
    + rewrite E. reflexivity.
  - destruct (String.eqb_spec (id t) x) as [Heq|_].
    + exfalso. apply Hx. rewrite <- Heq. apply occursIn_root.
    + rewrite E. rewrite map_fixed_Forall.
      * apply with_children_children. exact E.
      * rewrite List.Forall_forall in IH |- *. intros c Hc. apply IH; [exact Hc|].
        intros Hoc. apply Hx. eapply occursIn_child; eassumption.
Qed.

(** ** Everything but the headcount is kept *)

Lemma forget_with_headcount h n :
  forgetHeadcount (with_headcount h n) = forgetHeadcount n.
Proof. destruct n; reflexivity. Qed.

Lemma forget_with_children cs n :
  forgetHeadcount (with_children (Some cs) n) =
  with_headcount 0 (with_children (Some (map forgetHeadcount cs)) n).
Proof. destruct n; reflexivity. Qed.

Lemma forget_recalc t :
  forgetHeadcount (recalcParentHeadcounts t) = forgetHeadcount t.
Proof.
  induction t as [t E | t cs E IH] using OrgNode_ind; rewrite recalc_eq, E.
  - reflexivity.
  - destruct cs as [|c cs]; [reflexivity|].
    rewrite forget_with_headcount, forget_with_children.
    rewrite (forgetHeadcount_eq t), E. do 3 f_equal.
    rewrite map_map. apply map_ext_Forall. exact IH.
Qed.

Lemma forget_update t x h :
  forgetHeadcount (updateNodeInTree t x (fun n => with_headcount h n)) =
  forgetHeadcount t.
Proof.
  induction t as [t E | t cs E IH] using OrgNode_ind;
    rewrite updateNodeInTree_eq;
    (destruct (String.eqb (id t) x); [apply forget_with_headcount|]);
    rewrite E.
  - reflexivity.
  - rewrite forget_with_children, (forgetHeadcount_eq t), E. do 3 f_equal.
    rewrite map_map. apply map_ext_Forall. exact IH.
Qed.

(** ** Validated-capacity rollup *)

Lemma getRolledUpValidatedCapacity_eq n :
  getRolledUpValidatedCapacity n =
  match children n with
  | None => validatedCapacity n
  | Some [] => validatedCapacity n
  | Some cs =>
      let '(total, hasAny) :=
        fold_left
          (fun (acc : Z * bool) child =>
             match getRolledUpValidatedCapacity child with
             | Some childVal => (fst acc + childVal, true)
             | None => acc
             end)
          cs (0, false) in
      if hasAny then Some total else None
  end.
Proof.
  destruct n as [? ? ? ? ? ? ? ? ? ? ? ? ? ? ? [[|c cs]|] ? ? ? ? ? ? ? ? ?];
    reflexivity.
Qed.

Lemma allUnset_app l1 l2 : allUnset (l1 ++ l2) = allUnset l1 && allUnset l2.
Proof. apply forallb_app. Qed.

Lemma setValues_app l1 l2 : setValues (l1 ++ l2) = setValues l1 ++ setValues l2.
Proof. apply omap_app. Qed.

Lemma allUnset_setValues l : allUnset l = true -> setValues l = [].
Proof.
  induction l as [|x l IH]; simpl; [reflexivity|].
  unfold setValues in *. simpl.
  destruct (validatedCapacity x); [discriminate|]. exact IH.
Qed.

Lemma allUnset_Forall l :
  allUnset l = true <-> Forall (fun x => validatedCapacity x = None) l.
Proof.
  induction l as [|x l IH]; simpl.
  - split; [constructor | reflexivity].
  - rewrite andb_true_iff, IH. split.
    + intros [Hx Hl]. constructor; [|exact Hl].
      destruct (validatedCapacity x); [discriminate | reflexivity].
    + intros H. inversion H as [|? ? Hx Hl]; subst. rewrite Hx. tauto.
Qed.

Lemma validated_fold cs :
  Forall (fun c => getRolledUpValidatedCapacity c =
                   rollUpValidatedSpec (leaves c)) cs ->
  forall a b,
    fold_left
      (fun (acc : Z * bool) child =>
         match getRolledUpValidatedCapacity child with
         | Some childVal => (fst acc + childVal, true)
         | None => acc
         end) cs (a, b) =
    (a + sumZ (setValues (flat_map leaves cs)),
     b || negb (allUnset (flat_map leaves cs))).
Proof.
  induction 1 as [|c cs Hc _ IH]; intros a b; simpl.
  - f_equal; [lia | symmetry; apply orb_false_r].
  - rewrite Hc. unfold rollUpValidatedSpec.
    rewrite setValues_app, allUnset_app, sumZ_app.
    destruct (allUnset (leaves c)) eqn:Hu.
    + rewrite IH, (allUnset_setValues _ Hu). reflexivity.
    + rewrite IH. cbn [fst andb negb]. f_equal; [lia|].
      rewrite orb_true_r. reflexivity.
Qed.

Lemma getRolledUpValidatedCapacity_leaves n :
  getRolledUpValidatedCapacity n = rollUpValidatedSpec (leaves n).
Proof.
  assert (Hleaf : forall m, validatedCapacity m = rollUpValidatedSpec [m]).
  { intros m. unfold rollUpValidatedSpec, allUnset, setValues. simpl.
    destruct (validatedCapacity m); simpl; [f_equal; lia | reflexivity]. }
  induction n as [n E | n cs E IH] using OrgNode_ind;
    rewrite getRolledUpValidatedCapacity_eq, leaves_eq, E.
  - apply Hleaf.
  - destruct cs as [|c cs]; [apply Hleaf|].
    rewrite (validated_fold _ IH). unfold rollUpValidatedSpec.
    destruct (allUnset (flat_map leaves (c :: cs))); reflexivity.
Qed.

(** ** Positions in the tree *)

Lemma recalc_with_children t l :
  l <> [] ->
  recalcParentHeadcounts (with_children (Some l) t) =
  with_headcount (sumZ (map headcount (map recalcParentHeadcounts l)))
    (with_children (Some (map recalcParentHeadcounts l)) t).
Proof.
  intros Hl. rewrite recalc_eq. cbn [children with_children].
  destruct l; [congruence|]. destruct t; reflexivity.
Qed.

Lemma nodeAt_recalc p :
  forall t,
    nodeAt p (recalcParentHeadcounts t) =
    option_map recalcParentHeadcounts (nodeAt p t).
Proof.
  induction p as [|i p IH]; intros t; [reflexivity|].
  rewrite recalc_eq. destruct (children t) as [[|c cs]|] eqn:E;
    cbn [nodeAt]; rewrite ?E; try reflexivity.
  - destruct i; reflexivity.
  - cbn [children with_headcount with_children].
    rewrite nth_error_map.
    destruct (nth_error (c :: cs) i) as [d|]; [apply IH | reflexivity].
Qed.

Lemma nodeAt_incl p :
  forall t n, nodeAt p t = Some n ->
    forall m, In m (flattenTree n) -> In m (flattenTree t).
Proof.
  induction p as [|i p IH]; intros t n H m Hm; cbn [nodeAt] in H.
  - congruence.
  - destruct (children t) as [cs|] eqn:E; [|discriminate].
    destruct (nth_error cs i) as [c|] eqn:Ei; [|discriminate].
    rewrite flattenTree_eq, E. right. apply in_flat_map. exists c. split.
    + eapply nth_error_In; exact Ei.
    + eapply IH; eassumption.
Qed.

Lemma nodeAt_update p x h :
  forall t n, nodeAt p t = Some n ->
    let upd m := updateNodeInTree m x (fun k => with_headcount h k) in
    nodeAt p (upd t) = Some (upd n) \/ nodeAt p (upd t) = Some n.
Proof.
  induction p as [|i p IH]; intros t n H upd; cbn [nodeAt] in H.
  - injection H as ->. left. reflexivity.
  - destruct (children t) as [cs|] eqn:E; [|discriminate].
    destruct (nth_error cs i) as [c|] eqn:Ei; [|discriminate].
    unfold upd at 1 3. rewrite updateNodeInTree_eq.
    destruct (String.eqb (id t) x).
    + right. cbn [nodeAt children with_headcount]. rewrite E, Ei. exact H.
    + rewrite E. cbn [nodeAt children with_children].
      rewrite nth_error_map, Ei. cbn [option_map]. apply IH. exact H.
Qed.

(** ** Trees that already satisfy the rollup invariant *)

Lemma Forall_flat_map_inv {A B} (P : B -> Prop) (g : A -> list B) l :
  Forall P (flat_map g l) -> Forall (fun x => Forall P (g x)) l.
Proof.
  induction l as [|x l IH]; simpl; intros H; [constructor|].
  apply Forall_app in H. destruct H as [H1 H2]. constructor; auto.
Qed.

Lemma recalc_fixed t :
  Forall rollupOK (flattenTree t) -> recalcParentHeadcounts t = t.
Proof.
  induction t as [t E | t cs E IH] using OrgNode_ind; intros Hok;
    rewrite recalc_eq, E; [reflexivity|].
  destruct cs as [|c cs]; [reflexivity|].
  rewrite flattenTree_eq, E in Hok. inversion Hok as [|? ? Ht Hcs]; subst.
  apply (Forall_flat_map_inv rollupOK flattenTree (c :: cs)) in Hcs.
  assert (Hfix : map recalcParentHeadcounts (c :: cs) = c :: cs).
  { apply map_fixed_Forall. rewrite List.Forall_forall in IH, Hcs |- *.
    intros d Hd. apply IH; [exact Hd|]. apply Hcs. exact Hd. }
  rewrite Hfix. unfold rollupOK, isLeaf, childHeadcounts in Ht.
  rewrite E in Ht. rewrite <- Ht by reflexivity.
  rewrite (with_children_children _ _ E). apply with_headcount_same.
Qed.

(** ** Editing a node that has children *)

Lemma with_headcount_twice s X h t :
  with_headcount s (with_children X (with_headcount h t)) =
  with_headcount s (with_children X t).
Proof. destruct t; reflexivity. Qed.

Lemma recalc_update_internal t x h :
  (forall n, In n (flattenTree t) -> id n = x -> isLeaf n = false) ->
  recalcParentHeadcounts (updateNodeInTree t x (fun k => with_headcount h k)) =
  recalcParentHeadcounts t.
Proof.
  induction t as [t E | t cs E IH] using OrgNode_ind; intros Hint;
    rewrite updateNodeInTree_eq;
    destruct (String.eqb_spec (id t) x) as [Heq|Hne].
  - specialize (Hint t). rewrite flattenTree_eq in Hint.
    specialize (Hint (or_introl eq_refl) Heq).
    unfold isLeaf in Hint. rewrite E in Hint. discriminate.
  - rewrite E. reflexivity.
  - specialize (Hint t). rewrite flattenTree_eq in Hint.
    specialize (Hint (or_introl eq_refl) Heq).
    apply isLeaf_false in Hint. destruct Hint as (c & cs' & E').
    rewrite !recalc_eq. cbn [children with_headcount]. rewrite E'.
    apply with_headcount_twice.
  - rewrite E. destruct cs as [|c cs].
    + cbn [map]. rewrite (with_children_children _ _ E). reflexivity.
    + rewrite recalc_with_children by discriminate.
      rewrite (recalc_eq t), E.
      assert (Hmap :
        map recalcParentHeadcounts
          (map (fun c0 => updateNodeInTree c0 x (fun k => with_headcount h k))
             (c :: cs))
        = map recalcParentHeadcounts (c :: cs)).
      { rewrite List.map_map. apply map_ext_Forall. rewrite List.Forall_forall in IH |- *.
        intros d Hd. apply IH; [exact Hd|].
        intros n Hn. apply Hint. rewrite flattenTree_eq, E. right.
        apply in_flat_map. exists d. split; assumption. }
      rewrite Hmap. reflexivity.
Qed.

(** ** Nodes off the edited path *)

Lemma flattenTree_trans (n : OrgNode) :
  forall m k, In m (flattenTree n) -> In k (flattenTree m) ->
              In k (flattenTree n).
Proof.
  induction n as [n E | n cs E IH] using OrgNode_ind; intros m k Hm Hk;
    rewrite flattenTree_eq, E in Hm.
  - destruct Hm as [<-|[]]. exact Hk.
  - destruct Hm as [<-|Hm]; [exact Hk|].
    apply in_flat_map in Hm. destruct Hm as (c & Hc & Hm).
    rewrite flattenTree_eq, E. right. apply in_flat_map. exists c.
    split; [exact Hc|]. rewrite List.Forall_forall in IH.
    exact (IH c Hc m k Hm Hk).
Qed.

Lemma occursIn_sub n m x :
  In m (flattenTree n) -> occursIn x m -> occursIn x n.
Proof.
  unfold occursIn. intros Hm Hx. apply in_map_iff in Hx.
  destruct Hx as (k & Hid & Hk). apply in_map_iff. exists k.
  split; [exact Hid|]. eapply flattenTree_trans; eassumption.
Qed.

(** Where a node off the edited path ends up: at the same position, passed
    through the recalculation and nothing else. *)
Lemma off_path_after p (t n : OrgNode) x h :
  nodeAt p t = Some n -> ~ occursIn x n ->
  nodeAt p (updateHeadcountAndRollUp t x h) = Some (recalcParentHeadcounts n).
Proof.
  intros Hn Habs. unfold updateHeadcountAndRollUp. rewrite nodeAt_recalc.
  destruct (nodeAt_update p x h t n Hn) as [Hu|Hu];
    cbv zeta in Hu; rewrite Hu; cbn [option_map].
  - rewrite (updateNodeInTree_absent _ _ _ Habs). reflexivity.
  - reflexivity.
Qed.

Lemma flatten_nodeAt (t m : OrgNode) :
  In m (flattenTree t) -> exists p, nodeAt p t = Some m.
Proof.
  induction t as [t E | t cs E IH] using OrgNode_ind; intros Hm;
    rewrite flattenTree_eq, E in Hm.
  - destruct Hm as [<-|[]]. exists []. reflexivity.
  - destruct Hm as [<-|Hm]; [exists []; reflexivity|].
    apply in_flat_map in Hm. destruct Hm as (c & Hc & Hm).
    rewrite List.Forall_forall in IH. destruct (IH c Hc Hm) as [p Hp].
    destruct (In_nth_error _ _ Hc) as [j Hj].
    exists (j :: p). cbn [nodeAt]. rewrite E, Hj. exact Hp.
Qed.

Lemma nodeAt_app p q (t : OrgNode) :
  nodeAt (p ++ q) t =
  match nodeAt p t with
  | Some n => nodeAt q n
  | None => None
  end.
Proof.
  revert t. induction p as [|j p IH]; intros t; [reflexivity|].
  cbn [app nodeAt]. destruct (children t) as [cs|]; [|reflexivity].
  destruct (nth_error cs j) as [c|]; [apply IH | reflexivity].
Qed.

Lemma node_in_own_tree (n : OrgNode) : In n (flattenTree n).
Proof. rewrite flattenTree_eq. left. reflexivity. Qed.

Lemma child_in_tree (n c : OrgNode) cs :
  children n = Some cs -> In c cs -> In c (flattenTree n).
Proof.
  intros E Hc. rewrite flattenTree_eq, E. right. apply in_flat_map.
  exists c. split; [exact Hc | apply node_in_own_tree].
Qed.

(** ** The claims about the hierarchy engine *)

(** Claim C1.  After [updateHeadcountAndRollUp], whatever the tree, the
    target id (present or not) and the new value, every node that has
    children stores the sum of its direct children's headcounts; the root's
    stored headcount is [getRolledUpHeadcount] of the root, which is the
    sum of the headcounts of all leaves. *)
Theorem rollup_holds_after_update (root : OrgNode) (nodeId : string)
    (newHeadcount : Z) :
  let t' := updateHeadcountAndRollUp root nodeId newHeadcount in
  Forall rollupOK (flattenTree t') /\
  headcount t' = getRolledUpHeadcount t' /\
  getRolledUpHeadcount t' = sumZ (map headcount (leaves t')).
Proof.
  intros t'. unfold t', updateHeadcountAndRollUp.
  destruct (recalc_rollup
              (updateNodeInTree root nodeId
                 (fun n => with_headcount newHeadcount n))) as [Hall Hroot].
  split; [exact Hall|]. split; [exact Hroot|]. apply rolledUp_leaves.
Qed.

(** Claim C3, as amended.  If every node whose subtree holds no node with
    the edited id satisfies invariant 2 before the edit, then a headcount
    edit is local: every such node is found at the same position
    afterwards and is identical, headcount and all, with its whole
    subtree.  Nothing is assumed of the edited node or of its ancestors. *)
Theorem edit_is_local_off_the_edited_path (root : OrgNode) (nodeId : string)
    (newHeadcount : Z) :
  rolledUpOffPath nodeId root ->
  forall p n,
    nodeAt p root = Some n ->
    ~ occursIn nodeId n ->
    nodeAt p (updateHeadcountAndRollUp root nodeId newHeadcount) = Some n.
Proof.
  intros Hoff p n Hn Habs.
  rewrite (off_path_after p root n nodeId newHeadcount Hn Habs). f_equal.
  apply recalc_fixed. apply List.Forall_forall. intros m Hm.
  apply Hoff.
  - eapply nodeAt_incl; eassumption.
  - intros Hx. apply Habs. eapply occursIn_sub; eassumption.
Qed.

Lemma edit_is_local_witness :
  nodeAt [1%nat] (updateHeadcountAndRollUp staleRootTree "A" 10) =
  Some (sampleNode "B" 5 None None).
Proof.
  apply (edit_is_local_off_the_edited_path staleRootTree "A" 10).
  - intros n Hn Habs. simpl in Hn.
    destruct Hn as [<-|[<-|[<-|[]]]].
    + exfalso. apply Habs. unfold occursIn. simpl. auto.
    + exfalso. apply Habs. unfold occursIn. simpl. auto.
    + intros Hleaf. discriminate Hleaf.
  - reflexivity.
  - unfold occursIn. simpl. intros [E|[]]. discriminate E.
Defined.

(** The condition of the amended claim is exactly what locality needs:
    whenever an edit keeps the headcount of every node off the edited
    path, those nodes satisfied invariant 2 before it. *)
Lemma locality_needs_rollup_off_path (t : OrgNode) (nodeId : string) (h : Z) :
  editIsLocal t nodeId h -> rolledUpOffPath nodeId t.
Proof.
  intros Hloc n Hn Habs Hleaf.
  destruct (flatten_nodeAt t n Hn) as [p Hp].
  destruct (Hloc p n Hp Habs) as (n' & Hn' & Hh).
  rewrite (off_path_after p t n nodeId h Hp Habs) in Hn'.
  injection Hn' as <-.
  apply isLeaf_false in Hleaf. destruct Hleaf as (c & cs & E).
  unfold childHeadcounts. rewrite E.
  rewrite recalc_eq, E in Hh. cbn [headcount with_headcount] in Hh.
  rewrite <- Hh. f_equal. rewrite List.map_map.
  apply map_ext_Forall, List.Forall_forall. intros d Hd.
  destruct (In_nth_error _ _ Hd) as [j Hj].
  assert (Hpd : nodeAt (p ++ [j]) t = Some d).
  { rewrite nodeAt_app, Hp. cbn [nodeAt]. rewrite E, Hj. reflexivity. }
  assert (Hdabs : ~ occursIn nodeId d).
  { intros Hx. apply Habs. eapply occursIn_sub; [|exact Hx].
    eapply child_in_tree; eassumption. }
  destruct (Hloc (p ++ [j]) d Hpd Hdabs) as (d' & Hd' & Hhd).
  rewrite (off_path_after _ t d nodeId h Hpd Hdabs) in Hd'.
  injection Hd' as <-. exact Hhd.
Qed.

(** The trees the application works on meet the condition: invariant 2 at
    every node implies it off any path. *)
Lemma rolled_up_tree_is_rolled_up_off_path (t : OrgNode) (nodeId : string) :
  Forall rollupOK (flattenTree t) -> rolledUpOffPath nodeId t.
Proof.
  intros Hok n Hn _. rewrite List.Forall_forall in Hok. apply Hok. exact Hn.
Qed.

(** Claim C3 as stated fails: in [staleTree], editing leaf "b" changes the
    headcount of node "a" from 99 to 1, although "a" is neither "b" nor an
    ancestor of "b". *)
Lemma edit_not_local_on_stale_tree : ~ editIsLocal staleTree "b" 7.
Proof.
  intros H.
  assert (Habs : ~ occursIn "b"
            (sampleNode "a" 99 None (Some [sampleNode "a1" 1 None None]))).
  { unfold occursIn. simpl. intros [E|[E|[]]]; discriminate E. }
  destruct (H [0%nat]
              (sampleNode "a" 99 None (Some [sampleNode "a1" 1 None None]))
              eq_refl Habs) as (n' & Hn' & Hh).
  vm_compute in Hn'. injection Hn' as <-. discriminate Hh.
Qed.

(** Claim C4.  [getRolledUpValidatedCapacity] answers unset exactly when
    every leaf below the node is unset; otherwise it answers the sum of the
    leaf values that are set.  A single leaf set to 0 among unset leaves
    gives 0, not unset. *)
Theorem validated_rollup_unset_iff (node : OrgNode) :
  (getRolledUpValidatedCapacity node = None <->
   Forall (fun l => validatedCapacity l = None) (leaves node)) /\
  (forall v, getRolledUpValidatedCapacity node = Some v ->
             v = sumZ (setValues (leaves node))) /\
  (forall l1 x l2,
     leaves node = l1 ++ x :: l2 ->
     validatedCapacity x = Some 0 ->
     Forall (fun l => validatedCapacity l = None) (l1 ++ l2) ->
     getRolledUpValidatedCapacity node = Some 0).
Proof.
  rewrite getRolledUpValidatedCapacity_leaves. unfold rollUpValidatedSpec.
  split; [|split].
  - rewrite <- allUnset_Forall. destruct (allUnset (leaves node)).
    + tauto.
    + split; discriminate.
  - intros v. destruct (allUnset (leaves node)); congruence.
  - intros l1 x l2 El Hx Hrest. rewrite El.
    apply Forall_app in Hrest. destruct Hrest as [H1 H2].
    apply allUnset_Forall in H1. apply allUnset_Forall in H2.
    rewrite allUnset_app, setValues_app, sumZ_app.
    rewrite (allUnset_setValues _ H1), H1.
    change (x :: l2) with ([x] ++ l2).
    rewrite allUnset_app, setValues_app, sumZ_app.
    rewrite (allUnset_setValues _ H2), H2.
    unfold allUnset, setValues. simpl. rewrite Hx. reflexivity.
Qed.

Lemma validated_rollup_witness :
  getRolledUpValidatedCapacity twoLeafTree = Some 0.
Proof.
  apply (proj2 (proj2 (validated_rollup_unset_iff twoLeafTree))
           [sampleNode "A" 3 None None] (sampleNode "B" 5 (Some 0) None) []).
  - reflexivity.
  - reflexivity.
  - repeat constructor.
Defined.

(** Claim C7.  When [nodeId] is the id of no node of the tree,
    [updateNodeInTree] returns a tree equal to its input, for every
    updater; the function is total, so nothing is raised. *)
Theorem update_absent_is_noop (root : OrgNode) (nodeId : string)
    (updater : OrgNode -> OrgNode) :
  ~ occursIn nodeId root ->
  updateNodeInTree root nodeId updater = root.
Proof. apply updateNodeInTree_absent. Qed.

Lemma update_absent_witness :
  updateNodeInTree twoLeafTree "nobody" (fun n => with_headcount 42 n)
  = twoLeafTree.
Proof.
  apply (update_absent_is_noop twoLeafTree "nobody").
  unfold occursIn. simpl. intros [E|[E|[E|[]]]]; discriminate E.
Defined.

(** Claim C8.  When every node carrying the target id has children, the
    value handed to [updateHeadcountAndRollUp] is transient: the result is
    the same tree for every value (it is the recomputation of the input
    tree), and each target node ends with the sum of its children's
    headcounts. *)
Theorem internal_edit_is_transient (root : OrgNode) (nodeId : string) :
  (forall n, In n (flattenTree root) -> id n = nodeId -> isLeaf n = false) ->
  (forall h h',
     updateHeadcountAndRollUp root nodeId h =
     updateHeadcountAndRollUp root nodeId h') /\
  (forall h p n,
     nodeAt p root = Some n -> id n = nodeId ->
     exists n',
       nodeAt p (updateHeadcountAndRollUp root nodeId h) = Some n' /\
       id n' = nodeId /\ isLeaf n' = false /\
       headcount n' = sumZ (childHeadcounts n')).
Proof.
  intros Hint.
  assert (Hre : forall h, updateHeadcountAndRollUp root nodeId h =
                          recalcParentHeadcounts root).
  { intros h. apply recalc_update_internal. exact Hint. }
  split.
  - intros h h'. rewrite !Hre. reflexivity.
  - intros h p n Hn Hid. rewrite Hre, nodeAt_recalc, Hn. cbn [option_map].
    exists (recalcParentHeadcounts n). split; [reflexivity|].
    assert (Hleaf : isLeaf n = false).
    { apply Hint; [|exact Hid]. eapply nodeAt_incl; [exact Hn|].
      rewrite flattenTree_eq. left. reflexivity. }
    apply isLeaf_false in Hleaf. destruct Hleaf as (c & cs & E).
    rewrite recalc_eq, E. unfold isLeaf, childHeadcounts.
    cbn [id children headcount with_headcount with_children map].
    repeat split; assumption.
Qed.

Lemma internal_edit_witness :
  updateHeadcountAndRollUp twoLeafTree "root" 1 =
  updateHeadcountAndRollUp twoLeafTree "root" 100.
Proof.
  assert (Hint : forall n, In n (flattenTree twoLeafTree) ->
                 id n = "root"%string -> isLeaf n = false).
  { simpl. intros n [<-|[<-|[<-|[]]]] E; first [reflexivity | discriminate E]. }
  exact (proj1 (internal_edit_is_transient twoLeafTree "root" Hint) 1 100).
Defined.

(** Claim C10.  [updateHeadcountAndRollUp] keeps the shape of the tree, the
    order of children and every field other than [headcount] on every
    node: input and result coincide once headcounts are disregarded. *)
Theorem update_keeps_everything_but_headcount (root : OrgNode)
    (nodeId : string) (newHeadcount : Z) :
  forgetHeadcount (updateHeadcountAndRollUp root nodeId newHeadcount) =
  forgetHeadcount root.
Proof.
  unfold updateHeadcountAndRollUp. rewrite forget_recalc. apply forget_update.
Qed.

(** The scenario of the specification: A = 3 and B = 5 roll up to 8; after
    A is set to 10 the root stores 15 and B still stores 5. *)
Example scenario_rollup : getRolledUpHeadcount twoLeafTree = 8.
Proof. reflexivity. Qed.

Example scenario_edit :
  let t' := updateHeadcountAndRollUp twoLeafTree "A" 10 in
  headcount t' = 15 /\ option_map headcount (nodeAt [1%nat] t') = Some 5.
Proof. split; reflexivity. Qed.

(** On a leaf the assigned value survives. *)
Example leaf_edit_survives :
  option_map headcount
    (nodeAt [0%nat] (updateHeadcountAndRollUp twoLeafTree "A" 10)) = Some 10.
Proof. reflexivity. Qed.

End HierarchyProofs.

(** * Properties of the allocator *)

Module AllocatorProofs.
Import TerritoryPlanning.

Example optimize_initial :
  handleOptimize (flattenAEs Hierarchy.orgHierarchy) initialState
  = Some allocatedState.
Proof. vm_compute. reflexivity. Qed.

(** ** Rational arithmetic of shares and remainders *)

Lemma inject_Z_nonzero (z : Z) : z <> 0 -> ~ (inject_Z z == 0)%Q.
Proof.
  intros Hz H. apply Hz. apply (proj1 (inject_Z_injective z 0)). exact H.
Qed.

Lemma sumQ_share (pool total : Z) (caps : list Z) :
  total <> 0 ->
  (sumQ (map (share pool total) caps) ==
   inject_Z (sumZ caps) / inject_Z total * inject_Z pool)%Q.
Proof.
  intros Ht. pose proof (inject_Z_nonzero _ Ht) as Hq.
  induction caps as [|c caps IH]; simpl.
  - unfold Qdiv. ring.
  - rewrite IH. unfold share. rewrite inject_Z_plus. field. exact Hq.
Qed.

Lemma sumQ_floor_frac (l : list Q) :
  (sumQ l ==
   inject_Z (sumZ (map Qfloor l)) +
   sumQ (map (fun u => u - inject_Z (Qfloor u)) l))%Q.
Proof.
  induction l as [|u l IH]; simpl.
  - ring.
  - rewrite IH at 1. rewrite inject_Z_plus. ring.
Qed.

Lemma frac_bounds (u : Q) :
  (0 <= u - inject_Z (Qfloor u) /\ u - inject_Z (Qfloor u) < 1)%Q.
Proof.
  pose proof (Qfloor_le u) as H1. pose proof (Qlt_floor u) as H2.
  rewrite inject_Z_plus in H2. change (inject_Z 1) with 1%Q in H2.
  split; lra.
Qed.

Lemma sumQ_countPos (rs : list Q) :
  Forall (fun r => 0 <= r /\ r < 1)%Q rs ->
  (0 <= sumQ rs /\ sumQ rs <= inject_Z (Z.of_nat (countPos rs)))%Q.
Proof.
  induction 1 as [|r rs [Hr0 Hr1] _ [IH0 IH1]]; unfold countPos in *; simpl.
  - split; apply Qle_refl.
  - destruct (Qle_bool r 0) eqn:Hb; cbn [negb length].
    + apply Qle_bool_iff in Hb. split; lra.
    + rewrite Nat2Z.inj_succ. unfold Z.succ. rewrite inject_Z_plus.
      change (inject_Z 1) with 1%Q. split; lra.
Qed.

(** ** The order produced by the stable sort *)

Lemma beforeb_true a b : beforeb a b = true <-> before a b.
Proof.
  unfold beforeb, before.
  rewrite orb_true_iff, andb_true_iff, negb_true_iff, Qeq_bool_iff, Nat.ltb_lt.
  split; (intros [H|H]; [left | right; exact H]).
  - apply Qnot_le_lt. intros Hle. apply Qle_bool_iff in Hle. congruence.
  - destruct (Qle_bool (frac a) (frac b)) eqn:E; [|reflexivity].
    apply Qle_bool_iff in E. lra.
Qed.

Lemma before_irrefl a : ~ before a a.
Proof. unfold before. intros [H|[_ H]]; [lra | lia]. Qed.

Lemma before_asym a b : before a b -> ~ before b a.
Proof.
  unfold before. intros [H|[H1 H2]] [H'|[H1' H2']]; try lra; lia.
Qed.

Lemma before_of_le x z :
  (frac z <= frac x)%Q -> (i x < i z)%nat -> before x z.
Proof.
  intros Hle Hi. unfold before.
  destruct (Qlt_le_dec (frac z) (frac x)) as [Hlt|Hge]; [left; exact Hlt|].
  right. split; [apply Qle_antisym; assumption | exact Hi].
Qed.

Lemma before_frac_le y z : before y z -> (frac z <= frac y)%Q.
Proof. unfold before. intros [H|[H _]]; lra. Qed.

Lemma insertStable_perm {A} (cmp : A -> A -> Q) x l :
  Permutation (insertStable cmp x l) (x :: l).
Proof.
  induction l as [|y l IH]; simpl; [reflexivity|].
  destruct (Qle_bool (cmp x y) 0); [reflexivity|].
  rewrite IH. apply perm_swap.
Qed.

Lemma sortStable_perm {A} (cmp : A -> A -> Q) l :
  Permutation (sortStable cmp l) l.
Proof.
  induction l as [|x l IH]; simpl; [reflexivity|].
  rewrite insertStable_perm. constructor. exact IH.
Qed.

Lemma insertStable_sorted x s :
  StronglySorted before s ->
  Forall (fun y => (i x < i y)%nat) s ->
  StronglySorted before (insertStable byFracDesc x s).
Proof.
  induction s as [|y s IH]; intros Hs Hi; simpl.
  - repeat constructor.
  - apply StronglySorted_inv in Hs. destruct Hs as [Hs Hy].
    inversion Hi as [|? ? Hxy Hxs]; subst.
    unfold byFracDesc at 1. destruct (Qle_bool (frac y - frac x) 0) eqn:E.
    + apply Qle_bool_iff in E.
      assert (Hyx : (frac y <= frac x)%Q) by lra.
      constructor; [constructor; assumption|].
      constructor; [apply before_of_le; assumption|].
      rewrite List.Forall_forall in Hy, Hxs |- *. intros z Hz.
      apply before_of_le; [|apply Hxs; exact Hz].
      pose proof (before_frac_le _ _ (Hy z Hz)). lra.
    + assert (Hlt : (frac x < frac y)%Q).
      { apply Qnot_le_lt. intros Hle.
        assert (Hb : Qle_bool (frac y - frac x) 0 = true)
          by (apply Qle_bool_iff; lra).
        congruence. }
      constructor; [apply IH; assumption|].
      eapply Permutation_Forall;
        [symmetry; apply insertStable_perm|].
      constructor; [left; exact Hlt | exact Hy].
Qed.

Lemma sortStable_sorted l :
  StronglySorted (fun a b => (i a < i b)%nat) l ->
  StronglySorted before (sortStable byFracDesc l).
Proof.
  induction l as [|x l IH]; intros Hl; simpl; [constructor|].
  apply StronglySorted_inv in Hl. destruct Hl as [Hl Hx].
  apply insertStable_sorted; [apply IH; exact Hl|].
  eapply Permutation_Forall; [symmetry; apply sortStable_perm | exact Hx].
Qed.

(** ** Position in the sorted array *)

Lemma posCount_perm e s s' : Permutation s s' -> posCount e s = posCount e s'.
Proof.
  unfold posCount.
  induction 1 as [|x l l' _ IH|x y l|l l' l'' _ IH1 _ IH2]; simpl.
  - reflexivity.
  - destruct (beforeb x e); simpl; congruence.
  - destruct (beforeb x e), (beforeb y e); reflexivity.
  - congruence.
Qed.

Lemma posCount_after y s :
  Forall (before y) s -> List.filter (fun a => beforeb a y) s = [].
Proof.
  induction 1 as [|z s Hz _ IH]; simpl; [reflexivity|].
  destruct (beforeb z y) eqn:E; [|exact IH].
  apply beforeb_true in E. exfalso. exact (before_asym _ _ Hz E).
Qed.

Lemma take_sorted s :
  StronglySorted before s ->
  forall r e, In e s -> (In e (take r s) <-> (posCount e s < r)%nat).
Proof.
  induction 1 as [|y s Hs IH Hy]; intros r e He; [destruct He|].
  destruct r as [|r]; [simpl; split; [intros [] | lia]|].
  unfold posCount. cbn [take List.filter]. destruct He as [<-|He].
  - assert (Hb : beforeb y y = false).
    { destruct (beforeb y y) eqn:E; [|reflexivity].
      apply beforeb_true in E. destruct (before_irrefl _ E). }
    rewrite Hb, (posCount_after _ _ Hy). simpl. split; [lia | auto].
  - assert (Hye : before y e).
    { rewrite List.Forall_forall in Hy. apply Hy. exact He. }
    assert (Hb : beforeb y e = true) by (apply beforeb_true; exact Hye).
    rewrite Hb. cbn [length]. specialize (IH r e He). unfold posCount in IH.
    split.
    + intros [Heq|Hin].
      * subst. destruct (before_irrefl _ Hye).
      * apply IH in Hin. lia.
    + intros Hlt. right. apply IH. lia.
Qed.

(** ** The increment loop *)

Lemma loop_take (sorted : list Fractional) (r : nat) (fl : list Z) :
  (r <= length sorted)%nat ->
  fold_left
    (fun acc k =>
       match acc with
       | None => None
       | Some fl =>
           match sorted !! k with
           | None => None
           | Some e => Some (alter Z.succ (i e) fl)
           end
       end) (seq 0 r) (Some fl) =
  Some (fold_left (fun acc e => alter Z.succ (i e) acc) (take r sorted) fl).
Proof.
  induction r as [|r IH]; intros Hr; [reflexivity|].
  rewrite seq_S, fold_left_app, IH by lia. simpl.
  destruct (sorted !! r) as [e|] eqn:E.
  - rewrite (take_S_r _ _ _ E), fold_left_app. reflexivity.
  - apply lookup_ge_None in E. lia.
Qed.

Lemma alter_fold_other (es : list Fractional) :
  forall (fl : list Z) (k : nat),
    ~ In k (map i es) ->
    fold_left (fun acc e => alter Z.succ (i e) acc) es fl !! k = fl !! k.
Proof.
  induction es as [|e es IH]; intros fl k Hk; simpl; [reflexivity|].
  rewrite IH by (intros H; apply Hk; right; exact H).
  apply list_lookup_alter_ne. intros Heq. apply Hk. left. exact Heq.
Qed.

Lemma alter_fold_hit (es : list Fractional) :
  List.NoDup (map i es) ->
  forall (fl : list Z) (k : nat),
    In k (map i es) ->
    fold_left (fun acc e => alter Z.succ (i e) acc) es fl !! k =
    Z.succ <$> fl !! k.
Proof.
  induction es as [|e es IH]; intros Hnd fl k Hk; simpl; [destruct Hk|].
  inversion Hnd as [|? ? Hnotin Hnd']; subst.
  destruct (Nat.eq_dec (i e) k) as [Heq|Hne].
  - subst k. rewrite alter_fold_other by exact Hnotin.
    rewrite list_lookup_alter. destruct (decide (i e = i e)); [reflexivity|congruence].
  - destruct Hk as [Hk|Hk]; [congruence|].
    rewrite (IH Hnd' _ _ Hk). rewrite list_lookup_alter_ne by exact Hne.
    reflexivity.
Qed.

Lemma sumZ_alter (l : list Z) :
  forall j, (j < length l)%nat -> sumZ (alter Z.succ j l) = sumZ l + 1.
Proof.
  induction l as [|x l IH]; intros j Hj; simpl in Hj; [lia|].
  destruct j as [|j]; simpl.
  - lia.
  - change (list_alter Z.succ j l) with (alter Z.succ j l).
    rewrite IH by lia. lia.
Qed.

Lemma sumZ_alter_fold (es : list Fractional) :
  forall fl,
    Forall (fun e => (i e < length fl)%nat) es ->
    sumZ (fold_left (fun acc e => alter Z.succ (i e) acc) es fl) =
    sumZ fl + Z.of_nat (length es).
Proof.
  induction es as [|e es IH]; intros fl Hes; simpl fold_left.
  - simpl. lia.
  - inversion Hes as [|? ? He Hes']; subst.
    rewrite IH.
    + rewrite sumZ_alter by exact He. cbn [length]. lia.
    + eapply Forall_impl; [exact Hes'|]. intros z Hz. cbn beta in *.
      rewrite length_alter. exact Hz.
Qed.

(** ** The array of remainders *)

Lemma fractionals_eq (raw : list Q) :
  imap (fun k u =>
          MkFractional k (u - inject_Z (default 0%Z (map Qfloor raw !! k)))%Q)
       raw
  = fractionalsOf raw.
Proof.
  apply imap_ext. intros k u H. rewrite lookup_map, H. reflexivity.
Qed.

Lemma imap_index (l : list Q) :
  forall (f : nat -> Q -> Fractional) (n : nat),
    (forall k x, i (f k x) = (n + k)%nat) ->
    StronglySorted (fun a b => (i a < i b)%nat) (imap f l) /\
    map i (imap f l) = seq n (length l).
Proof.
  induction l as [|x l IH]; intros f n Hf.
  - split; [constructor | reflexivity].
  - rewrite imap_cons.
    destruct (IH (f ∘ S) (S n)) as [IHs IHm].
    { intros k y. unfold compose. rewrite Hf. lia. }
    split.
    + constructor; [exact IHs|].
      apply List.Forall_forall. intros b Hb.
      apply (in_map i) in Hb. rewrite IHm in Hb. apply in_seq in Hb.
      rewrite Hf. lia.
    + cbn [map length seq]. rewrite IHm, Hf. f_equal. lia.
Qed.

Lemma fractionals_sorted raw :
  StronglySorted (fun a b => (i a < i b)%nat) (fractionalsOf raw).
Proof. apply (imap_index raw _ 0%nat). reflexivity. Qed.

Lemma fractionals_indices raw :
  map i (fractionalsOf raw) = seq 0 (length raw).
Proof. apply (imap_index raw _ 0%nat). reflexivity. Qed.

Lemma fractionals_lookup pool total caps k :
  fractionalsOf (map (share pool total) caps) !! k =
  (fun c => MkFractional k (remainder pool total c)) <$> caps !! k.
Proof.
  unfold fractionalsOf. rewrite list_lookup_imap, lookup_map.
  destruct (caps !! k); reflexivity.
Qed.

Lemma fractionals_In pool total caps e :
  In e (fractionalsOf (map (share pool total) caps)) ->
  exists c, caps !! i e = Some c /\ e = MkFractional (i e) (remainder pool total c).
Proof.
  intros He. apply list_elem_of_In, list_elem_of_lookup in He.
  destruct He as [k Hk]. rewrite fractionals_lookup in Hk.
  destruct (caps !! k) as [c|] eqn:Ec; [|discriminate].
  injection Hk as <-. exists c. split; [exact Ec | reflexivity].
Qed.

(** ** The leftover *)

Lemma remainders_bounded pool total caps :
  Forall (fun r => 0 <= r /\ r < 1)%Q (map (remainder pool total) caps).
Proof.
  induction caps as [|c caps IH]; simpl; constructor; [|exact IH].
  apply frac_bounds.
Qed.

Lemma leftover_is_sum pool total caps :
  total <> 0 -> total = sumZ caps ->
  (inject_Z (leftover pool total caps) ==
   sumQ (map (remainder pool total) caps))%Q.
Proof.
  intros Hnz Htot.
  pose proof (sumQ_share pool total caps Hnz) as H1.
  pose proof (sumQ_floor_frac (map (share pool total) caps)) as H2.
  rewrite !List.map_map in H2.
  assert (H3 : (inject_Z (sumZ caps) / inject_Z total * inject_Z pool ==
                inject_Z pool)%Q).
  { rewrite <- Htot. field. apply inject_Z_nonzero. exact Hnz. }
  unfold leftover, Z.sub. rewrite inject_Z_plus, inject_Z_opp.
  change (map (remainder pool total) caps) with
    (map (fun c => share pool total c -
                   inject_Z (Qfloor (share pool total c)))%Q caps).
  lra.
Qed.

Lemma leftover_bounds pool total caps :
  total <> 0 -> total = sumZ caps ->
  0 <= leftover pool total caps <=
  Z.of_nat (countPos (map (remainder pool total) caps)).
Proof.
  intros Hnz Htot.
  pose proof (leftover_is_sum pool total caps Hnz Htot) as Hsum.
  destruct (sumQ_countPos _ (remainders_bounded pool total caps)) as [H0 H1].
  rewrite !Zle_Qle. change (inject_Z 0) with 0%Q. split; lra.
Qed.

Lemma countPos_le (rs : list Q) : (countPos rs <= length rs)%nat.
Proof. apply filter_length_le. Qed.

Lemma leftover_le_length pool total caps :
  total <> 0 -> total = sumZ caps ->
  (Z.to_nat (leftover pool total caps) <= length caps)%nat.
Proof.
  intros Hnz Htot. pose proof (leftover_bounds pool total caps Hnz Htot).
  pose proof (countPos_le (map (remainder pool total) caps)) as Hc.
  rewrite length_map in Hc. lia.
Qed.

(** ** The rounding block is the largest-remainder method *)

Lemma In_take {A} (x : A) (n : nat) (l : list A) : In x (take n l) -> In x l.
Proof.
  intros H. rewrite <- (take_drop n l). apply in_or_app. left. exact H.
Qed.

Lemma rank_is_position pool total caps k c :
  caps !! k = Some c ->
  posCount (MkFractional k (remainder pool total c))
    (fractionalsOf (map (share pool total) caps))
  = rank (map (remainder pool total) caps) k.
Proof.
  intros Hk. unfold posCount, rank, fractionalsOf.
  rewrite (length_map (remainder pool total)).
  rewrite <- (length_map (share pool total) caps).
  apply count_imap. intros j u Hj. rewrite lookup_map in Hj.
  destruct (caps !! j) as [cj|] eqn:Ej; [|discriminate]. injection Hj as <-.
  unfold ahead. rewrite !lookup_map, Ej, Hk. reflexivity.
Qed.

(** The sorted array of the rounding block. *)
Lemma sorted_facts pool total caps :
  let F := fractionalsOf (map (share pool total) caps) in
  let sorted := sortStable byFracDesc F in
  Permutation sorted F /\ StronglySorted before sorted /\
  length sorted = length caps /\ List.NoDup (map i sorted).
Proof.
  intros F sorted.
  assert (Hperm : Permutation sorted F) by apply sortStable_perm.
  split; [exact Hperm|]. split; [apply sortStable_sorted, fractionals_sorted|].
  split.
  - rewrite (Permutation_length Hperm). unfold F, fractionalsOf.
    rewrite length_imap, length_map. reflexivity.
  - apply (Permutation_NoDup (Permutation_map i (Permutation_sym Hperm))).
    unfold F. rewrite fractionals_indices. apply List.seq_NoDup.
Qed.

(** The loop ends without an exception, having incremented the entries
    named by the first [leftover] elements of the sorted array. *)
Lemma roundToPool_fold pool total caps :
  total <> 0 -> total = sumZ caps ->
  roundToPool pool caps total =
  Some (fold_left (fun acc e => alter Z.succ (i e) acc)
          (take (Z.to_nat (leftover pool total caps))
             (sortStable byFracDesc
                (fractionalsOf (map (share pool total) caps))))
          (map (fun c => Qfloor (share pool total c)) caps)).
Proof.
  intros Hnz Htot. unfold roundToPool. cbv zeta.
  change (map (fun c => inject_Z c / inject_Z total * inject_Z pool)%Q caps)
    with (map (share pool total) caps).
  rewrite fractionals_eq, fold_left_add, Z.add_0_l, List.map_map.
  change (pool - sumZ (map (fun c => Qfloor (share pool total c)) caps))
    with (leftover pool total caps).
  apply loop_take.
  destruct (sorted_facts pool total caps) as (_ & _ & Hlen & _).
  cbv zeta in Hlen. rewrite Hlen.
  apply leftover_le_length; assumption.
Qed.

Lemma extra_iff_wins pool total caps k c :
  total <> 0 -> total = sumZ caps ->
  caps !! k = Some c ->
  In k (map i (take (Z.to_nat (leftover pool total caps))
                 (sortStable byFracDesc
                    (fractionalsOf (map (share pool total) caps)))))
  <-> winsExtra pool total caps k = true.
Proof.
  intros Hnz Htot Hk.
  destruct (sorted_facts pool total caps) as (Hperm & Hss & _ & _).
  cbv zeta in Hperm, Hss.
  set (F := fractionalsOf (map (share pool total) caps)) in *.
  set (sorted := sortStable byFracDesc F) in *.
  set (r := Z.to_nat (leftover pool total caps)).
  set (e := MkFractional k (remainder pool total c)).
  assert (HeF : In e F).
  { apply list_elem_of_In, list_elem_of_lookup. exists k.
    unfold F. rewrite fractionals_lookup, Hk. reflexivity. }
  assert (HeS : In e sorted)
    by (apply (Permutation_in _ (Permutation_sym Hperm)); exact HeF).
  pose proof (take_sorted sorted Hss r e HeS) as Ht.
  rewrite (posCount_perm e _ _ Hperm) in Ht.
  unfold e, F in Ht. rewrite (rank_is_position _ _ _ _ _ Hk) in Ht.
  fold F in Ht. fold e in Ht.
  pose proof (leftover_bounds pool total caps Hnz Htot) as Hb.
  unfold winsExtra. rewrite Z.ltb_lt.
  transitivity (In e (take r sorted)).
  - split.
    + intros Hin. apply in_map_iff in Hin. destruct Hin as (e' & Hi & He').
      assert (He'F : In e' F)
        by (apply (Permutation_in _ Hperm), (In_take _ r); exact He').
      apply fractionals_In in He'F. destruct He'F as (c' & Hc' & Heq).
      rewrite Hi in Hc', Heq. rewrite Hk in Hc'. injection Hc' as <-.
      rewrite Heq in He'. exact He'.
    + intros Hin. apply in_map_iff. exists e. split; [reflexivity | exact Hin].
  - rewrite Ht. unfold r. lia.
Qed.

Lemma roundToPool_largestRemainder pool total caps :
  total <> 0 -> total = sumZ caps ->
  roundToPool pool caps total = Some (largestRemainder pool total caps).
Proof.
  intros Hnz Htot. rewrite (roundToPool_fold pool total caps Hnz Htot). f_equal.
  destruct (sorted_facts pool total caps) as (_ & _ & _ & Hnd).
  cbv zeta in Hnd.
  set (sorted := sortStable byFracDesc
                   (fractionalsOf (map (share pool total) caps))) in *.
  set (r := Z.to_nat (leftover pool total caps)).
  assert (Hnd' : List.NoDup (map i (take r sorted))).
  { rewrite <- (take_drop r sorted), map_app in Hnd.
    exact (NoDup_app_remove_r _ _ Hnd). }
  apply list_eq. intros k. unfold largestRemainder.
  rewrite list_lookup_imap.
  destruct (in_dec Nat.eq_dec k (map i (take r sorted))) as [Hin|Hout].
  - rewrite (alter_fold_hit _ Hnd' _ _ Hin), lookup_map.
    destruct (caps !! k) as [c|] eqn:Ec; [|reflexivity].
    apply (extra_iff_wins pool total caps k c Hnz Htot Ec) in Hin.
    cbn [fmap option_fmap option_map]. rewrite Hin. reflexivity.
  - rewrite (alter_fold_other _ _ _ Hout), lookup_map.
    destruct (caps !! k) as [c|] eqn:Ec; [|reflexivity].
    cbn [fmap option_fmap option_map].
    destruct (winsExtra pool total caps k) eqn:Ew.
    + exfalso. apply Hout.
      apply (extra_iff_wins pool total caps k c Hnz Htot Ec). exact Ew.
    + rewrite Z.add_0_r. reflexivity.
Qed.

Lemma largestRemainder_sum pool total caps :
  total <> 0 -> total = sumZ caps ->
  sumZ (largestRemainder pool total caps) = pool.
Proof.
  intros Hnz Htot.
  pose proof (roundToPool_largestRemainder pool total caps Hnz Htot) as H1.
  rewrite (roundToPool_fold pool total caps Hnz Htot) in H1.
  apply (inj Some) in H1. rewrite <- H1.
  destruct (sorted_facts pool total caps) as (Hperm & _ & Hlen & _).
  cbv zeta in Hperm, Hlen.
  pose proof (leftover_le_length pool total caps Hnz Htot) as Hr.
  pose proof (leftover_bounds pool total caps Hnz Htot) as Hb.
  rewrite sumZ_alter_fold.
  - rewrite length_take, Hlen, Nat.min_l by exact Hr.
    rewrite Z2Nat.id by lia. unfold leftover. lia.
  - apply List.Forall_forall. intros e He. rewrite length_map.
    apply In_take, (Permutation_in _ Hperm), (in_map i) in He.
    rewrite fractionals_indices, length_map in He. apply in_seq in He. lia.
Qed.

Lemma winners_count pool total caps :
  total <> 0 -> total = sumZ caps ->
  Z.of_nat (length (winners pool total caps)) = leftover pool total caps.
Proof.
  intros Hnz Htot.
  pose proof (largestRemainder_sum pool total caps Hnz Htot) as Hs.
  unfold largestRemainder in Hs.
  rewrite (sumZ_imap_bonus (fun c => Qfloor (share pool total c))) in Hs.
  unfold winners, leftover. lia.
Qed.

(** ** The sorted array of any list of remainders *)

Lemma indexed_sorted fr :
  StronglySorted (fun a b => (i a < i b)%nat)
    (indexed fr).
Proof. apply (imap_index fr _ 0%nat). reflexivity. Qed.

Lemma indexed_indices fr :
  map i (indexed fr) = seq 0 (length fr).
Proof. apply (imap_index fr _ 0%nat). reflexivity. Qed.

Lemma indexed_In fr e :
  In e (indexed fr) ->
  fr !! i e = Some (frac e).
Proof.
  intros He. apply list_elem_of_In, list_elem_of_lookup in He.
  destruct He as [k Hk]. unfold indexed in Hk. rewrite list_lookup_imap in Hk.
  destruct (fr !! k) as [q|] eqn:Eq; [|discriminate].
  injection Hk as <-. exact Eq.
Qed.

Lemma rank_of_indexed fr k q :
  fr !! k = Some q ->
  posCount (MkFractional k q) (indexed fr) = rank fr k.
Proof.
  intros Hk. unfold posCount, rank, indexed.
  apply count_imap. intros j u Hj.
  unfold ahead. rewrite Hj, Hk. reflexivity.
Qed.

Lemma sorted_indexed fr :
  let sorted := sortStable byFracDesc (indexed fr) in
  Permutation sorted (indexed fr) /\ StronglySorted before sorted /\
  length sorted = length fr /\
  List.NoDup (map i sorted).
Proof.
  intros sorted.
  assert (Hperm : Permutation sorted (indexed fr)) by apply sortStable_perm.
  split; [exact Hperm|]. split; [apply sortStable_sorted, indexed_sorted|].
  split.
  - rewrite (Permutation_length Hperm). unfold indexed.
    apply length_imap.
  - apply (Permutation_NoDup
             (Permutation_map i (Permutation_sym Hperm))).
    rewrite indexed_indices. apply List.seq_NoDup.
Qed.

(** Entity [k] is among the first [r] of the sorted array exactly when
    fewer than [r] entities are served before it. *)
Lemma take_rank fr (r k : nat) q :
  fr !! k = Some q ->
  In k (map i
          (take r (sortStable byFracDesc (indexed fr))))
  <-> (rank fr k < r)%nat.
Proof.
  intros Hk.
  destruct (sorted_indexed fr) as (Hperm & Hss & _ & _).
  cbv zeta in Hperm, Hss.
  set (sorted := sortStable byFracDesc (indexed fr)) in *.
  set (e := MkFractional k q).
  assert (HeF : In e (indexed fr)).
  { apply list_elem_of_In, list_elem_of_lookup. exists k.
    unfold indexed. rewrite list_lookup_imap, Hk. reflexivity. }
  assert (HeS : In e sorted)
    by (apply (Permutation_in _ (Permutation_sym Hperm)); exact HeF).
  pose proof (take_sorted sorted Hss r e HeS) as Ht.
  rewrite (posCount_perm e _ _ Hperm) in Ht.
  unfold e in Ht at 2. rewrite (rank_of_indexed _ _ _ Hk) in Ht.
  rewrite <- Ht. split.
  - intros Hin. apply in_map_iff in Hin. destruct Hin as (e' & Hi & He').
    assert (He'F : In e' (indexed fr))
      by (apply (Permutation_in _ Hperm), (In_take _ r); exact He').
    apply indexed_In in He'F. rewrite Hi, Hk in He'F.
    assert (Heq : e' = e).
    { destruct e' as [i' f']. cbn in Hi, He'F. unfold e. congruence. }
    rewrite <- Heq. exact He'.
  - intros Hin. apply in_map_iff. exists e. split; [reflexivity | exact Hin].
Qed.


(** ** From the rounding block to the rows *)

Lemma handleOptimize_allocates aeInfoMap s :
  totalWeight aeInfoMap (territoryData s) <> 0 ->
  handleOptimize aeInfoMap s =
  Some (MkPlanningState
          (buildUpdated (territoryData s) 0
             (largestRemainder TOTAL_UNITS
                (totalWeight aeInfoMap (territoryData s))
                (capacities aeInfoMap (territoryData s)))
             (largestRemainder TOTAL_TAM
                (totalWeight aeInfoMap (territoryData s))
                (capacities aeInfoMap (territoryData s))))
          true true).
Proof.
  intros Hnz. unfold handleOptimize. cbv zeta.
  rewrite fold_left_add, Z.add_0_l. fold (totalWeight aeInfoMap (territoryData s)).
  destruct (Z.eqb_spec (totalWeight aeInfoMap (territoryData s)) 0) as [E|_];
    [contradiction|].
  rewrite !roundToPool_largestRemainder by (exact Hnz || reflexivity).
  reflexivity.
Qed.

Lemma handleOptimize_skips aeInfoMap s :
  totalWeight aeInfoMap (territoryData s) = 0 ->
  handleOptimize aeInfoMap s = Some s.
Proof.
  intros Hz. unfold handleOptimize. cbv zeta.
  rewrite fold_left_add, Z.add_0_l. fold (totalWeight aeInfoMap (territoryData s)).
  rewrite Hz. reflexivity.
Qed.


Lemma buildUpdated_sum (g : TerritoryRow -> option Z) fu ft (pick : list Z) :
  (forall r, g (MkTerritoryRow (id r) (name r) (owner r) (region r)
                  (Some 0) (Some 0)) = Some 0) ->
  (forall r u, g (MkTerritoryRow (id r) (name r) (owner r) (region r)
                    (fu !! u) (ft !! u)) = pick !! u) ->
  forall rows n,
    (n + length (aeRows rows) <= length pick)%nat ->
    sumZ (map (fun r => default 0 (g r)) (buildUpdated rows n fu ft)) =
    sumZ (take (length (aeRows rows)) (drop n pick)).
Proof.
  intros Hz Hp. unfold aeRows.
  induction rows as [|r rows IH]; intros n Hlen; [reflexivity|].
  cbn [buildUpdated List.filter] in *.
  assert (HAE : isAERow r = negb (String.eqb (id r) "unassigned"))
    by reflexivity.
  rewrite HAE in *. clear HAE.
  destruct (String.eqb (id r) "unassigned") eqn:E; cbn [negb length map] in *;
    change (sumZ (?a :: ?l)) with (a + sumZ l).
  - rewrite Hz, (IH n Hlen). reflexivity.
  - rewrite Hp, (IH (S n)) by lia.
    destruct (pick !! n) as [x|] eqn:Ex.
    + rewrite (drop_S _ _ _ Ex). reflexivity.
    + apply lookup_ge_None in Ex. lia.
Qed.

Lemma totalUnits_buildUpdated rows fu ft :
  length fu = length (aeRows rows) ->
  totalUnits (buildUpdated rows 0 fu ft) = sumZ fu.
Proof.
  intros Hlen. unfold totalUnits.
  rewrite (fold_left_sum (fun t => default 0 (units t))), Z.add_0_l.
  rewrite (buildUpdated_sum units fu ft fu); try reflexivity; [|lia].
  rewrite <- Hlen. cbn [drop]. rewrite firstn_all. reflexivity.
Qed.

Lemma totalTam_buildUpdated rows fu ft :
  length ft = length (aeRows rows) ->
  totalTam (buildUpdated rows 0 fu ft) = sumZ ft.
Proof.
  intros Hlen. unfold totalTam.
  rewrite (fold_left_sum (fun t => default 0 (tam t))), Z.add_0_l.
  rewrite (buildUpdated_sum tam fu ft ft); try reflexivity; [|lia].
  rewrite <- Hlen. cbn [drop]. rewrite firstn_all. reflexivity.
Qed.

Lemma largestRemainder_length pool total aeInfoMap rows :
  length (largestRemainder pool total (capacities aeInfoMap rows)) =
  length (aeRows rows).
Proof.
  unfold largestRemainder, capacities, aeRows.
  rewrite length_imap, length_map. reflexivity.
Qed.

(** ** An entity that wins an extra unit has a positive remainder *)








(** ** The claims about the allocator *)

(** Claim C6, as amended.  When the total weight is zero, [handleOptimize]
    allocates nothing: it ends normally and leaves the rows, the
    [optimized] flag and the banner flag exactly as they were. *)
Theorem zero_weight_changes_nothing (aeInfoMap : gmap string AEInfo)
    (s : PlanningState) :
  totalWeight aeInfoMap (territoryData s) = 0 ->
  handleOptimize aeInfoMap s = Some s.
Proof. apply handleOptimize_skips. Qed.

Lemma zero_weight_witness :
  handleOptimize noCapacityMap initialState = Some initialState.
Proof.
  apply (zero_weight_changes_nothing noCapacityMap initialState).
  vm_compute. reflexivity.
Defined.

(** Claim C6 as stated fails: with no capacity anywhere the run on the
    initial state signals nothing, and on a state that shows an earlier
    allocation the [optimized] flag still reads true afterwards. *)
Lemma zero_weight_is_silent :
  totalWeight noCapacityMap (territoryData initialState) = 0 /\
  ~ signalsOutcome initialState (handleOptimize noCapacityMap initialState) /\
  totalWeight noCapacityMap (territoryData allocatedState) = 0 /\
  option_map optimized (handleOptimize noCapacityMap allocatedState) =
    Some true.
Proof.
  split; [vm_compute; reflexivity|]. split.
  - rewrite handleOptimize_skips by (vm_compute; reflexivity).
    intros H. apply H. reflexivity.
  - split; [vm_compute; reflexivity|].
    rewrite handleOptimize_skips by (vm_compute; reflexivity). reflexivity.
Qed.



(** The scenario of the specification: weights 1200, 1150, 1100, 1050 and
    1000 units. *)
Example scenario_four_weights :
  roundToPool 1000 [1200; 1150; 1100; 1050] 4500 = Some [267; 256; 244; 233].
Proof. vm_compute. reflexivity. Qed.

(** Equal remainders: the earlier entity is served first. *)
Example scenario_tie :
  roundToPool 1 [1; 1] 2 = Some [1; 0].
Proof. vm_compute. reflexivity. Qed.

End AllocatorProofs.

(** * Further properties of the hierarchy engine *)

Module HierarchyMore.
Import Hierarchy HierarchyProofs.

(** ** Shape facts of the two passes *)

Lemma id_with_headcount h n : id (with_headcount h n) = id n.
Proof. reflexivity. Qed.

Lemma recalc_id t : id (recalcParentHeadcounts t) = id t.
Proof.
  rewrite recalc_eq. destruct (children t) as [[|c cs]|]; reflexivity.
Qed.

Lemma recalc_isLeaf t : isLeaf (recalcParentHeadcounts t) = isLeaf t.
Proof.
  rewrite recalc_eq. unfold isLeaf.
  destruct (children t) as [[|c cs]|] eqn:E; rewrite ?E; try reflexivity.
Qed.

Lemma recalc_idempotent t :
  recalcParentHeadcounts (recalcParentHeadcounts t) = recalcParentHeadcounts t.
Proof. apply recalc_fixed. apply recalc_rollup. Qed.

Lemma recalc_with_headcount_internal h t :
  isLeaf t = false ->
  recalcParentHeadcounts (with_headcount h t) = recalcParentHeadcounts t.
Proof.
  intros Hl. apply isLeaf_false in Hl. destruct Hl as (c & cs & E).
  rewrite !recalc_eq. cbn [children with_headcount]. rewrite E.
  apply with_headcount_twice.
Qed.

Lemma rebuild_over_rebuilt A B S C t :
  with_headcount A (with_children B (with_headcount S (with_children C t))) =
  with_headcount A (with_children B t).
Proof. destruct t; reflexivity. Qed.

(** A recomputation between two edits is absorbed by the one after. *)
Lemma recalc_absorb y h s :
  recalcParentHeadcounts
    (updateNodeInTree (recalcParentHeadcounts s) y (fun k => with_headcount h k))
  = recalcParentHeadcounts (updateNodeInTree s y (fun k => with_headcount h k)).
Proof.
  induction s as [s E | s cs E IH] using OrgNode_ind.
  - rewrite (recalc_eq s), E. reflexivity.
  - destruct cs as [|c cs]; [rewrite (recalc_eq s), E; reflexivity|].
    rewrite (updateNodeInTree_eq (recalcParentHeadcounts s)),
            (updateNodeInTree_eq s), recalc_id.
    assert (Hl : isLeaf s = false) by (unfold isLeaf; rewrite E; reflexivity).
    destruct (String.eqb (id s) y).
    + rewrite !recalc_with_headcount_internal
        by (rewrite ?recalc_isLeaf; exact Hl).
      apply recalc_idempotent.
    + rewrite E. rewrite (recalc_eq s), E.
      cbn [children with_headcount with_children].
      rewrite !recalc_with_children by discriminate.
      assert (Hmap :
        map recalcParentHeadcounts
          (map (fun c0 => updateNodeInTree c0 y (fun k => with_headcount h k))
             (map recalcParentHeadcounts (c :: cs)))
        = map recalcParentHeadcounts
            (map (fun c0 => updateNodeInTree c0 y (fun k => with_headcount h k))
               (c :: cs))).
      { rewrite !List.map_map. apply map_ext_Forall. exact IH. }
      rewrite Hmap. apply rebuild_over_rebuilt.
Qed.

Lemma forget_after_update t x h :
  forgetHeadcount (updateHeadcountAndRollUp t x h) = forgetHeadcount t.
Proof.
  unfold updateHeadcountAndRollUp. rewrite forget_recalc. apply forget_update.
Qed.

Lemma update_twice x h1 h2 t :
  updateNodeInTree (updateNodeInTree t x (fun k => with_headcount h1 k)) x
    (fun k => with_headcount h2 k)
  = updateNodeInTree t x (fun k => with_headcount h2 k).
Proof.
  induction t as [t E | t cs E IH] using OrgNode_ind;
    rewrite (updateNodeInTree_eq t x (fun k => with_headcount h1 k)),
            (updateNodeInTree_eq t x (fun k => with_headcount h2 k));
    destruct (String.eqb (id t) x) eqn:Hid.
  - rewrite updateNodeInTree_eq. cbn [id with_headcount]. rewrite Hid.
    destruct t; reflexivity.
  - rewrite E, updateNodeInTree_eq, Hid, E. reflexivity.
  - rewrite updateNodeInTree_eq. cbn [id with_headcount]. rewrite Hid.
    destruct t; reflexivity.
  - rewrite E, updateNodeInTree_eq. cbn [id children with_children].
    rewrite Hid, List.map_map.
    rewrite (map_ext_Forall _ _ _ IH). destruct t; reflexivity.
Qed.

Lemma update_commute x y h1 h2 t :
  x <> y ->
  updateNodeInTree (updateNodeInTree t x (fun k => with_headcount h1 k)) y
    (fun k => with_headcount h2 k)
  = updateNodeInTree (updateNodeInTree t y (fun k => with_headcount h2 k)) x
      (fun k => with_headcount h1 k).
Proof.
  intros Hxy.
  induction t as [t E | t cs E IH] using OrgNode_ind;
    rewrite (updateNodeInTree_eq t x), (updateNodeInTree_eq t y);
    destruct (String.eqb_spec (id t) x) as [Hx|Hx];
    destruct (String.eqb_spec (id t) y) as [Hy|Hy];
    try congruence; rewrite ?E;
    rewrite !updateNodeInTree_eq;
    cbn [id children with_headcount with_children]; rewrite ?E;
    repeat match goal with
           | |- context [String.eqb (id t) x] =>
               destruct (String.eqb_spec (id t) x); try congruence
           | |- context [String.eqb (id t) y] =>
               destruct (String.eqb_spec (id t) y); try congruence
           end;
    try (destruct t; reflexivity).
  rewrite !List.map_map. rewrite (map_ext_Forall _ _ _ IH).
  destruct t; reflexivity.
Qed.

(** ** Leaves through the two passes *)

Lemma flat_map_leaves_map (F : OrgNode -> OrgNode) (g : OrgNode -> OrgNode)
    (l : list OrgNode) :
  Forall (fun c => leaves (F c) = map g (leaves c)) l ->
  flat_map leaves (map F l) = map g (flat_map leaves l).
Proof.
  induction 1 as [|c l Hc _ IH]; simpl; [reflexivity|].
  rewrite Hc, IH, map_app. reflexivity.
Qed.

Lemma leaves_recalc t : leaves (recalcParentHeadcounts t) = leaves t.
Proof.
  induction t as [t E | t cs E IH] using OrgNode_ind;
    rewrite recalc_eq, E; [reflexivity|].
  destruct cs as [|c cs]; [reflexivity|].
  rewrite leaves_eq. cbn [children with_headcount with_children].
  rewrite (leaves_eq t), E.
  change (map recalcParentHeadcounts (c :: cs)) with
    (recalcParentHeadcounts c :: map recalcParentHeadcounts cs).
  change (recalcParentHeadcounts c :: map recalcParentHeadcounts cs) with
    (map recalcParentHeadcounts (c :: cs)).
  rewrite (flat_map_leaves_map recalcParentHeadcounts (fun l => l)).
  - apply map_id.
  - eapply Forall_impl; [exact IH|]. intros d Hd. cbn beta.
    rewrite Hd, map_id. reflexivity.
Qed.

Lemma leaves_single n : isLeaf n = true -> leaves n = [n].
Proof.
  unfold isLeaf. rewrite leaves_eq.
  destruct (children n) as [[|c cs]|]; try reflexivity. discriminate.
Qed.

Lemma isLeaf_same_children a b :
  children a = children b -> isLeaf a = isLeaf b.
Proof. unfold isLeaf. intros ->. reflexivity. Qed.

Lemma In_child_flatten t cs c n :
  children t = Some cs -> In c cs -> In n (flattenTree c) ->
  In n (flattenTree t).
Proof.
  intros E Hc Hn. rewrite flattenTree_eq, E. right.
  apply in_flat_map. exists c. split; assumption.
Qed.

Lemma In_root_flatten t : In t (flattenTree t).
Proof. rewrite flattenTree_eq. left. reflexivity. Qed.

(** The leaves after an edit whose target nodes are all leaves. *)
Lemma leaves_update f x t :
  (forall n, children (f n) = children n) ->
  (forall n, In n (flattenTree t) -> id n = x -> isLeaf n = true) ->
  leaves (updateNodeInTree t x f) =
  map (fun l => if String.eqb (id l) x then f l else l) (leaves t).
Proof.
  intros Hf.
  induction t as [t E | t cs E IH] using OrgNode_ind; intros Hx;
    rewrite updateNodeInTree_eq;
    destruct (String.eqb_spec (id t) x) as [Hid|Hid].
  - assert (Hl : isLeaf t = true) by (apply Hx; [apply In_root_flatten|exact Hid]).
    rewrite (leaves_single t Hl).
    rewrite leaves_single by (rewrite (isLeaf_same_children _ t (Hf t)); exact Hl).
    cbn [map]. rewrite (proj2 (String.eqb_eq _ _) Hid). reflexivity.
  - rewrite E. rewrite (leaves_single t) by (unfold isLeaf; rewrite E; reflexivity).
    cbn [map]. rewrite (proj2 (String.eqb_neq _ _) Hid). reflexivity.
  - assert (Hl : isLeaf t = true) by (apply Hx; [apply In_root_flatten|exact Hid]).
    rewrite (leaves_single t Hl).
    rewrite leaves_single by (rewrite (isLeaf_same_children _ t (Hf t)); exact Hl).
    cbn [map]. rewrite (proj2 (String.eqb_eq _ _) Hid). reflexivity.
  - rewrite E. destruct cs as [|c cs].
    + cbn [map]. rewrite (with_children_children _ _ E).
      rewrite (leaves_single t) by (unfold isLeaf; rewrite E; reflexivity).
      cbn [map]. rewrite (proj2 (String.eqb_neq _ _) Hid). reflexivity.
    + rewrite leaves_eq. cbn [children with_children].
      rewrite (leaves_eq t), E.
      change (map (fun child => updateNodeInTree child x f) (c :: cs)) with
        (updateNodeInTree c x f :: map (fun child => updateNodeInTree child x f) cs).
      change (updateNodeInTree c x f
              :: map (fun child => updateNodeInTree child x f) cs)
        with (map (fun child => updateNodeInTree child x f) (c :: cs)).
      apply flat_map_leaves_map.
      rewrite List.Forall_forall in IH |- *. intros d Hd. apply IH; [exact Hd|].
      intros n Hn. apply Hx. eapply In_child_flatten; eassumption.
Qed.

Lemma leaf_in_leaves n t :
  In n (flattenTree t) -> isLeaf n = true -> In n (leaves t).
Proof.
  induction t as [t E | t cs E IH] using OrgNode_ind; intros Hn Hl;
    rewrite flattenTree_eq, E in Hn.
  - destruct Hn as [<-|[]]. rewrite (leaves_single _ Hl). left. reflexivity.
  - destruct Hn as [<-|Hn]; [rewrite (leaves_single _ Hl); left; reflexivity|].
    apply in_flat_map in Hn. destruct Hn as (c & Hc & Hn).
    rewrite leaves_eq, E. destruct cs as [|c0 cs0]; [destruct Hc|].
    apply in_flat_map. exists c. split; [exact Hc|].
    rewrite List.Forall_forall in IH. apply IH; assumption.
Qed.

(** ** Updaters that leave id, headcount and children alone *)

Lemma update_keeps_headcount f x t :
  keepsRollupFields f ->
  headcount (updateNodeInTree t x f) = headcount t /\
  isLeaf (updateNodeInTree t x f) = isLeaf t.
Proof.
  intros Hf. rewrite updateNodeInTree_eq.
  destruct (String.eqb (id t) x).
  - destruct (Hf t) as (_ & Hh & Hc). split; [exact Hh|].
    apply isLeaf_same_children. exact Hc.
  - destruct (children t) as [cs|] eqn:E; [|split; reflexivity].
    split; [reflexivity|]. unfold isLeaf. cbn [children with_children].
    rewrite E. destruct cs; reflexivity.
Qed.

Lemma map_headcount_flatten f x t :
  keepsRollupFields f ->
  map headcount (flattenTree (updateNodeInTree t x f)) =
  map headcount (flattenTree t).
Proof.
  intros Hf.
  induction t as [t E | t cs E IH] using OrgNode_ind;
    rewrite updateNodeInTree_eq;
    destruct (String.eqb (id t) x).
  - destruct (Hf t) as (_ & Hh & Hc).
    rewrite (flattenTree_eq (f t)), (flattenTree_eq t), Hc. cbn [map].
    rewrite Hh. reflexivity.
  - rewrite E. reflexivity.
  - destruct (Hf t) as (_ & Hh & Hc).
    rewrite (flattenTree_eq (f t)), (flattenTree_eq t), Hc. cbn [map].
    rewrite Hh. reflexivity.
  - rewrite E, flattenTree_eq, (flattenTree_eq t), E.
    cbn [children with_children map headcount]. f_equal.
    clear E. induction IH as [|c cs Hc _ IHcs]; [reflexivity|].
    cbn [map flat_map]. rewrite !map_app, Hc, IHcs. reflexivity.
Qed.

Lemma rollupOK_update f x t :
  keepsRollupFields f ->
  Forall rollupOK (flattenTree t) ->
  Forall rollupOK (flattenTree (updateNodeInTree t x f)).
Proof.
  intros Hf.
  induction t as [t E | t cs E IH] using OrgNode_ind; intros Hok;
    rewrite updateNodeInTree_eq;
    destruct (String.eqb (id t) x).
  - destruct (Hf t) as (_ & Hh & Hc).
    rewrite flattenTree_eq, Hc, E. rewrite flattenTree_eq, E in Hok.
    constructor; [|constructor]. unfold rollupOK, isLeaf. rewrite Hc, E.
    discriminate.
  - rewrite E. exact Hok.
  - destruct (Hf t) as (_ & Hh & Hc).
    rewrite flattenTree_eq, Hc. rewrite flattenTree_eq in Hok.
    inversion Hok as [|? ? Ht Hrest]; subst. constructor; [|exact Hrest].
    unfold rollupOK, isLeaf, childHeadcounts in *. rewrite Hc, Hh. exact Ht.
  - rewrite E, flattenTree_eq. rewrite flattenTree_eq, E in Hok.
    inversion Hok as [|? ? Ht Hrest]; subst.
    cbn [children with_children]. constructor.
    + unfold rollupOK, isLeaf, childHeadcounts in *.
      cbn [children headcount with_children]. rewrite E in Ht.
      assert (Hm : map headcount
                     (map (fun child => updateNodeInTree child x f) cs)
                   = map headcount cs).
      { rewrite List.map_map. apply map_ext_Forall.
        apply List.Forall_forall. intros c _.
        apply (update_keeps_headcount f x c Hf). }
      rewrite Hm. destruct cs; [discriminate|]. exact Ht.
    + apply Forall_flat_map_map.
      apply (Forall_flat_map_inv rollupOK flattenTree cs) in Hrest.
      rewrite List.Forall_forall in IH, Hrest |- *. intros c Hc.
      apply IH; [exact Hc|]. apply Hrest. exact Hc.
Qed.

Lemma with_targetCapacity_keeps v : keepsRollupFields (with_targetCapacity v).
Proof. intros n. repeat split. Qed.

Lemma with_validatedCapacity_keeps v :
  keepsRollupFields (with_validatedCapacity v).
Proof. intros n. repeat split. Qed.

(** ** Ids and row counts *)

Lemma flatten_ids_forget t :
  map id (flattenTree (forgetHeadcount t)) = map id (flattenTree t).
Proof.
  induction t as [t E | t cs E IH] using OrgNode_ind;
    rewrite forgetHeadcount_eq, E, flattenTree_eq, (flattenTree_eq t), E;
    cbn [children with_headcount with_children id map]; [reflexivity|].
  f_equal. clear E. induction IH as [|c cs Hc _ IHcs]; [reflexivity|].
  cbn [map flat_map]. rewrite !map_app, Hc, IHcs. reflexivity.
Qed.

Lemma flatten_ids_update t x h :
  map id (flattenTree (updateHeadcountAndRollUp t x h)) = map id (flattenTree t).
Proof.
  rewrite <- flatten_ids_forget, forget_after_update.
  apply flatten_ids_forget.
Qed.

(** ** Properties *)

(** X1.  The recomputation pass is idempotent, and the result of
    [updateHeadcountAndRollUp] is a tree the pass leaves as it is. *)
Theorem recalc_pass_is_idempotent (t : OrgNode) (nodeId : string) (h : Z) :
  recalcParentHeadcounts (recalcParentHeadcounts t) = recalcParentHeadcounts t /\
  recalcParentHeadcounts (updateHeadcountAndRollUp t nodeId h) =
    updateHeadcountAndRollUp t nodeId h.
Proof.
  split; [apply recalc_fixed, recalc_rollup|].
  unfold updateHeadcountAndRollUp. apply recalc_fixed, recalc_rollup.
Qed.

(** X2.  Two headcount edits of the same id in a row give the tree the
    second edit alone gives: the last value wins. *)
Theorem second_edit_overrides_first (t : OrgNode) (nodeId : string)
    (h1 h2 : Z) :
  updateHeadcountAndRollUp (updateHeadcountAndRollUp t nodeId h1) nodeId h2 =
  updateHeadcountAndRollUp t nodeId h2.
Proof.
  unfold updateHeadcountAndRollUp. rewrite recalc_absorb, update_twice.
  reflexivity.
Qed.

(** X3.  Headcount edits of two different ids commute. *)
Theorem edits_of_distinct_ids_commute (t : OrgNode) (x y : string)
    (h1 h2 : Z) :
  x <> y ->
  updateHeadcountAndRollUp (updateHeadcountAndRollUp t x h1) y h2 =
  updateHeadcountAndRollUp (updateHeadcountAndRollUp t y h2) x h1.
Proof.
  intros Hxy. unfold updateHeadcountAndRollUp.
  rewrite !recalc_absorb, (update_commute x y h1 h2 t Hxy). reflexivity.
Qed.

Lemma edits_commute_witness :
  updateHeadcountAndRollUp (updateHeadcountAndRollUp twoLeafTree "A" 10) "B" 1 =
  updateHeadcountAndRollUp (updateHeadcountAndRollUp twoLeafTree "B" 1) "A" 10.
Proof.
  apply (edits_of_distinct_ids_commute twoLeafTree "A" "B" 10 1).
  discriminate.
Defined.

(** X4.  When every node carrying the edited id is a leaf, the edit gives
    those leaves the new headcount and leaves every other leaf alone, and
    the root ends with the sum of the leaf headcounts so obtained. *)
Theorem leaf_edit_reaches_the_root (t : OrgNode) (nodeId : string) (h : Z) :
  (forall n, In n (flattenTree t) -> id n = nodeId -> isLeaf n = true) ->
  map headcount (leaves (updateHeadcountAndRollUp t nodeId h)) =
    map (editedHeadcount nodeId h) (leaves t) /\
  headcount (updateHeadcountAndRollUp t nodeId h) =
    sumZ (map (editedHeadcount nodeId h) (leaves t)).
Proof.
  intros Hx.
  assert (Hl : map headcount (leaves (updateHeadcountAndRollUp t nodeId h)) =
               map (editedHeadcount nodeId h) (leaves t)).
  { unfold updateHeadcountAndRollUp. rewrite leaves_recalc.
    rewrite (leaves_update (fun k => with_headcount h k) nodeId t
               (fun n => eq_refl) Hx), List.map_map.
    apply map_ext. intros l. unfold editedHeadcount.
    destruct (String.eqb (id l) nodeId); reflexivity. }
  split; [exact Hl|]. rewrite <- Hl, <- rolledUp_leaves.
  unfold updateHeadcountAndRollUp. apply recalc_rollup.
Qed.

Lemma leaf_edit_witness :
  headcount (updateHeadcountAndRollUp orgHierarchy "ae3" 5) = 12.
Proof.
  assert (Hx : forall n, In n (flattenTree orgHierarchy) ->
                 id n = "ae3"%string -> isLeaf n = true).
  { intros n Hn. simpl in Hn.
    repeat (destruct Hn as [<-|Hn];
            [intros E; first [reflexivity | discriminate E]|]).
    destruct Hn. }
  exact (proj2 (leaf_edit_reaches_the_root orgHierarchy "ae3" 5 Hx)).
Defined.

(** X5.  When every node carrying the edited id is a leaf and the id
    occurs in the tree, setting its validated capacity makes the rollup at
    the root set: it is the sum of the set leaf values after the edit. *)
Theorem validated_edit_sets_the_rollup (t : OrgNode) (nodeId : string)
    (v : Z) :
  (forall n, In n (flattenTree t) -> id n = nodeId -> isLeaf n = true) ->
  occursIn nodeId t ->
  getRolledUpValidatedCapacity
    (updateNodeInTree t nodeId (fun n => with_validatedCapacity v n)) =
  Some (sumZ (setValues
                (map (fun l => if String.eqb (id l) nodeId
                               then with_validatedCapacity v l else l)
                   (leaves t)))).
Proof.
  intros Hx Hocc. rewrite getRolledUpValidatedCapacity_leaves.
  rewrite (leaves_update (fun n => with_validatedCapacity v n) nodeId t
             (fun n => eq_refl) Hx).
  unfold rollUpValidatedSpec.
  destruct (allUnset _) eqn:Hu; [|reflexivity]. exfalso.
  apply allUnset_Forall in Hu. rewrite List.Forall_forall in Hu.
  unfold occursIn in Hocc. apply in_map_iff in Hocc.
  destruct Hocc as (n & Hid & Hn).
  pose proof (leaf_in_leaves n t Hn (Hx n Hn Hid)) as Hin.
  specialize (Hu _ (in_map _ _ _ Hin)). cbn beta in Hu.
  rewrite (proj2 (String.eqb_eq _ _) Hid) in Hu. discriminate Hu.
Qed.

Lemma validated_edit_witness :
  getRolledUpValidatedCapacity
    (updateNodeInTree twoLeafTree "A" (fun n => with_validatedCapacity 7 n))
  = Some 7.
Proof.
  assert (Hx : forall n, In n (flattenTree twoLeafTree) ->
                 id n = "A"%string -> isLeaf n = true).
  { simpl. intros n [<-|[<-|[<-|[]]]] E; first [reflexivity | discriminate E]. }
  assert (Hocc : occursIn "A" twoLeafTree).
  { unfold occursIn. simpl. right. left. reflexivity. }
  exact (validated_edit_sets_the_rollup twoLeafTree "A" 7 Hx Hocc).
Defined.

(** X6.  An [updateNodeInTree] whose updater keeps id, headcount and
    children (a target-capacity or validated-capacity edit) changes no
    headcount and keeps the headcount rollup invariant of the tree. *)
Theorem field_edit_keeps_headcounts (t : OrgNode) (nodeId : string)
    (updater : OrgNode -> OrgNode) :
  keepsRollupFields updater ->
  map headcount (flattenTree (updateNodeInTree t nodeId updater)) =
    map headcount (flattenTree t) /\
  (Forall rollupOK (flattenTree t) ->
   Forall rollupOK (flattenTree (updateNodeInTree t nodeId updater))).
Proof.
  intros Hf. split; [apply map_headcount_flatten; exact Hf|].
  apply rollupOK_update. exact Hf.
Qed.

Lemma field_edit_witness :
  map headcount
    (flattenTree (updateNodeInTree orgHierarchy "rvp-us"
                    (with_targetCapacity 5000))) =
  map headcount (flattenTree orgHierarchy).
Proof.
  exact (proj1 (field_edit_keeps_headcounts orgHierarchy "rvp-us"
                  (with_targetCapacity 5000) (with_targetCapacity_keeps 5000))).
Defined.

(** X7.  After a headcount edit [getTotals] reports the same number of
    rows, target capacity, expected capacity and difference as before, and
    as headcount the value stored at the root of the new tree. *)
Theorem totals_after_headcount_edit (t : OrgNode) (nodeId : string) (h : Z) :
  Totals.getTotals (Some (updateHeadcountAndRollUp t nodeId h)) =
  Totals.MkTotals
    (Totals.totalRows (Totals.getTotals (Some t)))
    (targetCapacity t)
    (headcount (updateHeadcountAndRollUp t nodeId h))
    (expectedCapacity t)
    (difference t).
Proof.
  pose proof (forget_after_update t nodeId h) as Hf.
  pose proof (f_equal (@length _) (flatten_ids_update t nodeId h)) as Hlen.
  rewrite !length_map in Hlen.
  assert (Hrest : forall a b, forgetHeadcount a = forgetHeadcount b ->
            targetCapacity a = targetCapacity b /\
            expectedCapacity a = expectedCapacity b /\
            difference a = difference b).
  { intros a b Hab. rewrite !forgetHeadcount_eq in Hab.
    split; [exact (f_equal targetCapacity Hab)|].
    split; [exact (f_equal expectedCapacity Hab)|].
    exact (f_equal difference Hab). }
  destruct (Hrest _ _ Hf) as (Ht & He & Hd).
  unfold Totals.getTotals. cbn [Totals.totalRows].
  rewrite Hlen, Ht, He, Hd. f_equal.
  unfold updateHeadcountAndRollUp. symmetry. apply recalc_rollup.
Qed.

End HierarchyMore.

(** * Properties of the tree-table component *)

Module TreeTableProofs.
Import Hierarchy HierarchyProofs HierarchyMore TreeTable.

(** ** [findNode] *)

Lemma findNode_eq x n :
  findNode x n =
  if String.eqb (id n) x then Some n
  else match children n with
       | None => None
       | Some cs => firstSome (findNode x) cs
       end.
Proof. destruct n; reflexivity. Qed.

Lemma find_app {A} (p : A -> bool) (l1 l2 : list A) :
  find p (l1 ++ l2) =
  match find p l1 with
  | Some a => Some a
  | None => find p l2
  end.
Proof.
  induction l1 as [|a l1 IH]; simpl; [reflexivity|].
  destruct (p a); [reflexivity | exact IH].
Qed.

Lemma findNode_find x t :
  findNode x t = find (fun n => String.eqb (id n) x) (flattenTree t).
Proof.
  induction t as [t E | t cs E IH] using OrgNode_ind;
    rewrite findNode_eq, flattenTree_eq, E; cbn [find];
    destruct (String.eqb (id t) x); try reflexivity.
  clear E. induction IH as [|c cs Hc _ IHcs]; [reflexivity|].
  cbn [firstSome flat_map]. rewrite find_app, <- Hc, IHcs. reflexivity.
Qed.

Lemma firstSome_map x (F G : OrgNode -> OrgNode) cs :
  Forall (fun c => findNode x (F c) = option_map G (findNode x c)) cs ->
  firstSome (findNode x) (map F cs) = option_map G (firstSome (findNode x) cs).
Proof.
  induction 1 as [|c cs Hc _ IH]; [reflexivity|].
  cbn [map firstSome]. rewrite Hc.
  destruct (findNode x c); [reflexivity | exact IH].
Qed.

Lemma findNode_recalc x t :
  findNode x (recalcParentHeadcounts t) =
  option_map recalcParentHeadcounts (findNode x t).
Proof.
  induction t as [t E | t cs E IH] using OrgNode_ind.
  - assert (Hr : recalcParentHeadcounts t = t) by (rewrite recalc_eq, E; reflexivity).
    rewrite Hr, findNode_eq, E.
    destruct (String.eqb (id t) x); cbn [option_map]; rewrite ?Hr; reflexivity.
  - destruct cs as [|c cs].
    + assert (Hr : recalcParentHeadcounts t = t)
        by (rewrite recalc_eq, E; reflexivity).
      rewrite Hr, findNode_eq, E.
      destruct (String.eqb (id t) x); cbn [option_map]; rewrite ?Hr; reflexivity.
    + rewrite (findNode_eq x (recalcParentHeadcounts t)), recalc_id.
      rewrite (findNode_eq x t), E.
      destruct (String.eqb (id t) x); [reflexivity|].
      rewrite recalc_eq, E. cbn [children with_headcount with_children].
      apply firstSome_map. exact IH.
Qed.

Lemma findNode_update x h t :
  findNode x (updateNodeInTree t x (fun k => with_headcount h k)) =
  option_map (with_headcount h) (findNode x t).
Proof.
  induction t as [t E | t cs E IH] using OrgNode_ind;
    rewrite updateNodeInTree_eq, (findNode_eq x t);
    destruct (String.eqb (id t) x) eqn:Hid.
  - rewrite findNode_eq. cbn [id with_headcount]. rewrite Hid. reflexivity.
  - rewrite E, findNode_eq, Hid, E. reflexivity.
  - rewrite findNode_eq. cbn [id with_headcount]. rewrite Hid. reflexivity.
  - rewrite E, findNode_eq. cbn [id children with_children]. rewrite Hid.
    apply firstSome_map. exact IH.
Qed.

Lemma find_ids y (l : list OrgNode) :
  option_map id (find (fun n => String.eqb (id n) y) l) =
  find (fun i => String.eqb i y) (map id l).
Proof.
  induction l as [|n l IH]; [reflexivity|]. cbn [find map].
  destruct (String.eqb (id n) y); [reflexivity | exact IH].
Qed.

(** X8.  [findNode] answers the first node of [flattenTree] that carries
    the id: it answers nothing exactly when the id occurs nowhere, and a
    node it answers carries the id and belongs to the tree. *)
Theorem findNode_is_first_in_flattenTree (x : string) (t : OrgNode) :
  findNode x t = find (fun n => String.eqb (id n) x) (flattenTree t) /\
  (findNode x t = None <-> ~ occursIn x t) /\
  (forall n, findNode x t = Some n -> id n = x /\ In n (flattenTree t)).
Proof.
  split; [apply findNode_find|]. rewrite findNode_find. split.
  - unfold occursIn. split.
    + intros Hnone Hin. apply in_map_iff in Hin. destruct Hin as (n & Hid & Hn).
      pose proof (find_none _ _ Hnone n Hn) as Hf. cbn beta in Hf.
      rewrite Hid, String.eqb_refl in Hf. discriminate.
    + intros Hno. destruct (find _ _) as [n|] eqn:Hf; [|reflexivity].
      apply find_some in Hf. destruct Hf as [Hn Hid].
      apply String.eqb_eq in Hid. exfalso. apply Hno.
      apply in_map_iff. exists n. split; assumption.
  - intros n Hf. apply find_some in Hf. destruct Hf as [Hn Hid].
    apply String.eqb_eq in Hid. split; assumption.
Qed.

(** X9.  A headcount edit never changes which id [findNode] finds, for any
    selected id; and when the edited id is found at a leaf, the node found
    afterwards is that leaf with the new headcount. *)
Theorem findNode_after_headcount_edit (t : OrgNode) (x y : string) (h : Z) :
  option_map id (findNode y (updateHeadcountAndRollUp t x h)) =
    option_map id (findNode y t) /\
  (forall n, findNode x t = Some n -> isLeaf n = true ->
     findNode x (updateHeadcountAndRollUp t x h) = Some (with_headcount h n)).
Proof.
  split.
  - rewrite !findNode_find, !find_ids, flatten_ids_update. reflexivity.
  - intros n Hn Hl. unfold updateHeadcountAndRollUp.
    rewrite findNode_recalc, findNode_update, Hn. cbn [option_map].
    f_equal. rewrite recalc_eq. unfold isLeaf in Hl.
    cbn [children with_headcount].
    destruct (children n) as [[|c cs]|]; try reflexivity. discriminate.
Qed.

(** ** [getInitialExpanded] *)

Lemma addExpanded_eq node depth ids :
  addExpanded node depth ids =
  let ids1 := if (depth <? 3)%nat then {[ id node ]} ∪ ids else ids in
  match children node with
  | None => ids1
  | Some cs =>
      fold_left (fun acc child => addExpanded child (S depth) acc) cs ids1
  end.
Proof. destruct node; reflexivity. Qed.

(** Some node reached from [t] within the depth budget carries id [x]. *)
Lemma fold_addExpanded (cs : list OrgNode) :
  Forall (fun c => forall d ids x,
            x ∈ addExpanded c d ids <->
            x ∈ ids \/ exists p n, nodeAt p c = Some n /\ id n = x /\
                                   (d + length p < 3)%nat) cs ->
  forall d (ids : gset string) x,
    x ∈ fold_left (fun acc child => addExpanded child d acc) cs ids <->
    x ∈ ids \/ exists c, In c cs /\ exists p n,
                 nodeAt p c = Some n /\ id n = x /\ (d + length p < 3)%nat.
Proof.
  induction 1 as [|c cs Hc _ IH]; intros d ids x; cbn [fold_left].
  - split; [intros H; left; exact H|].
    intros [H|(c & [] & _)]. exact H.
  - rewrite IH, Hc. split.
    + intros [[H|(p & n & H)]|(c' & Hc' & H)].
      * left. exact H.
      * right. exists c. split; [left; reflexivity|]. exists p, n. exact H.
      * right. exists c'. split; [right; exact Hc' | exact H].
    + intros [H|(c' & [<-|Hc'] & H)].
      * left. left. exact H.
      * left. right. exact H.
      * right. exists c'. split; assumption.
Qed.

Lemma addExpanded_spec t :
  forall d (ids : gset string) x,
    x ∈ addExpanded t d ids <->
    x ∈ ids \/ exists p n, nodeAt p t = Some n /\ id n = x /\
                           (d + length p < 3)%nat.
Proof.
  induction t as [t E | t cs E IH] using OrgNode_ind; intros d ids x;
    rewrite addExpanded_eq, E; cbv zeta.
  - split.
    + destruct (Nat.ltb_spec d 3) as [Hd|Hd].
      * rewrite elem_of_union, elem_of_singleton. intros [->|H]; [|left; exact H].
        right. exists [], t. cbn [nodeAt length]. repeat split. lia.
      * intros H. left. exact H.
    + intros [H|(p & n & Hp & Hid & Hlen)].
      * destruct (d <? 3)%nat; [apply elem_of_union; right|]; exact H.
      * destruct p as [|i p]; [|cbn [nodeAt] in Hp; rewrite E in Hp; discriminate].
        injection Hp as <-. cbn [length] in Hlen.
        destruct (Nat.ltb_spec d 3) as [Hd|Hd]; [|lia].
        apply elem_of_union. left. apply elem_of_singleton. symmetry. exact Hid.
  - rewrite (fold_addExpanded cs IH). split.
    + intros [H|(c & Hc & p & n & Hp & Hid & Hlen)].
      * destruct (Nat.ltb_spec d 3) as [Hd|Hd]; [|left; exact H].
        apply elem_of_union in H. destruct H as [H|H]; [|left; exact H].
        apply elem_of_singleton in H. subst x.
        right. exists [], t. cbn [nodeAt length]. repeat split. lia.
      * right. apply In_nth_error in Hc. destruct Hc as [i Hi].
        exists (i :: p), n. cbn [nodeAt length]. rewrite E, Hi.
        repeat split; [exact Hp | exact Hid | lia].
    + intros [H|(p & n & Hp & Hid & Hlen)].
      * left. destruct (d <? 3)%nat; [apply elem_of_union; right|]; exact H.
      * destruct p as [|i p].
        -- injection Hp as <-. cbn [length] in Hlen. left.
           destruct (Nat.ltb_spec d 3) as [Hd|Hd]; [|lia].
           apply elem_of_union. left. apply elem_of_singleton. symmetry. exact Hid.
        -- cbn [nodeAt length] in Hp, Hlen. rewrite E in Hp.
           destruct (nth_error cs i) as [c|] eqn:Hi; [|discriminate].
           right. exists c. split; [eapply nth_error_In; exact Hi|].
           exists p, n. repeat split; [exact Hp | exact Hid | lia].
Qed.

(** X10.  [getInitialExpanded] holds exactly the ids of the nodes fewer
    than three steps below the root, the root included; without a tree it
    is empty. *)
Theorem initial_expansion_is_top_three_levels (t : OrgNode) (x : string) :
  (x ∈ getInitialExpanded (Some t) <->
   exists p n, nodeAt p t = Some n /\ id n = x /\ (length p < 3)%nat) /\
  getInitialExpanded None = ∅.
Proof.
  split; [|reflexivity]. unfold getInitialExpanded.
  rewrite addExpanded_spec. split.
  - intros [H|H]; [apply elem_of_empty in H; destruct H | exact H].
  - intros H. right. exact H.
Qed.

(** ** Toggling *)

Lemma toggle_twice (i : string) (s : gset string) :
  handleToggle i (handleToggle i s) = s.
Proof.
  unfold handleToggle. destruct (decide (i ∈ s)) as [Hin|Hout].
  - destruct (decide (i ∈ s ∖ {[i]})) as [H|_].
    { apply elem_of_difference in H. destruct H as [_ H]. exfalso. apply H.
      apply elem_of_singleton. reflexivity. }
    apply set_eq. intros x. rewrite elem_of_union, elem_of_difference,
      elem_of_singleton.
    destruct (decide (x = i)) as [->|Hne]; [tauto|]. tauto.
  - destruct (decide (i ∈ {[i]} ∪ s)) as [_|H].
    2:{ exfalso. apply H. apply elem_of_union. left.
        apply elem_of_singleton. reflexivity. }
    apply set_eq. intros x. rewrite elem_of_difference, elem_of_union,
      elem_of_singleton.
    split; [intros [[->|H] Hne]; [congruence | exact H]|].
    intros H. split; [right; exact H|]. intros ->. exact (Hout H).
Qed.

Lemma toggle_member (i x : string) (s : gset string) :
  x ∈ handleToggle i s <-> (x <> i /\ x ∈ s) \/ (x = i /\ i ∉ s).
Proof.
  unfold handleToggle. destruct (decide (i ∈ s)) as [Hin|Hout].
  - rewrite elem_of_difference, elem_of_singleton. tauto.
  - rewrite elem_of_union, elem_of_singleton.
    destruct (decide (x = i)) as [->|Hne]; tauto.
Qed.

(** X11.  Toggling an id flips its membership and nothing else; toggling
    the same id twice restores the set, and toggles of two ids commute.
    [toggleSelection] of the territory page is the same function. *)
Theorem toggle_is_an_involution (i j : string) (s : gset string) :
  (forall x, x ∈ handleToggle i s <-> (x <> i /\ x ∈ s) \/ (x = i /\ i ∉ s)) /\
  handleToggle i (handleToggle i s) = s /\
  handleToggle i (handleToggle j s) = handleToggle j (handleToggle i s) /\
  TerritoryPlanning.toggleSelection i s = handleToggle i s.
Proof.
  split; [intros x; apply toggle_member|].
  split; [apply toggle_twice|]. split; [|reflexivity].
  apply set_eq. intros x. rewrite !toggle_member.
  destruct (decide (x = i)) as [Hxi|Hxi]; destruct (decide (x = j)) as [Hxj|Hxj];
    destruct (decide (i ∈ s)) as [His|His];
    destruct (decide (j ∈ s)) as [Hjs|Hjs];
    destruct (decide (x ∈ s)) as [Hxs|Hxs];
    subst; try tauto; try congruence.
Qed.

(** ** Saving columns *)

Lemma filter_nil_all {A} (p : A -> bool) (l : list A) :
  (forall x, In x l -> p x = false) -> List.filter p l = [].
Proof.
  induction l as [|x l IH]; intros H; [reflexivity|]. cbn [List.filter].
  rewrite (H x (or_introl eq_refl)). apply IH. intros y Hy. apply H.
  right. exact Hy.
Qed.

Lemma existing_In (prev : list string) (c : string) :
  bool_decide (c ∈ (list_to_set prev : gset string)) = true <-> In c prev.
Proof.
  rewrite bool_decide_eq_true, elem_of_list_to_set. apply list_elem_of_In.
Qed.

Lemma NoDup_filter_list {A} (p : A -> bool) (l : list A) :
  List.NoDup l -> List.NoDup (List.filter p l).
Proof.
  induction 1 as [|x l Hx _ IH]; cbn [List.filter]; [constructor|].
  destruct (p x); [|exact IH]. constructor; [|exact IH].
  intros Hin. apply filter_In in Hin. apply Hx. apply Hin.
Qed.

(** X12.  [handleSaveColumns] keeps the columns already added in front, in
    their order, brings in every selected column, and saving the same
    selection a second time adds nothing. *)
Theorem save_columns_is_idempotent (selected prev : list string) :
  (exists newCols, handleSaveColumns selected prev = prev ++ newCols /\
                   forall c, In c newCols <-> In c selected /\ ~ In c prev) /\
  (forall c, In c selected -> In c (handleSaveColumns selected prev)) /\
  handleSaveColumns selected (handleSaveColumns selected prev) =
    handleSaveColumns selected prev.
Proof.
  assert (Hnew : forall c,
            In c (List.filter
                    (fun c => negb (bool_decide
                                      (c ∈ (list_to_set prev : gset string))))
                    selected) <-> In c selected /\ ~ In c prev).
  { intros c. rewrite filter_In, negb_true_iff, <- not_true_iff_false,
      existing_In. reflexivity. }
  split; [eexists; split; [reflexivity | exact Hnew]|].
  split.
  - intros c Hc. unfold handleSaveColumns. cbv zeta. apply in_or_app.
    destruct (in_dec String.string_dec c prev) as [Hp|Hp]; [left; exact Hp|].
    right. apply Hnew. split; assumption.
  - unfold handleSaveColumns at 1. cbv zeta.
    rewrite filter_nil_all; [apply app_nil_r|].
    intros c Hc. apply negb_false_iff, existing_In.
    unfold handleSaveColumns. cbv zeta. apply in_or_app.
    destruct (in_dec String.string_dec c prev) as [Hp|Hp]; [left; exact Hp|].
    right. apply Hnew. split; assumption.
Qed.

(** X13.  When neither the columns already added nor the selection repeat
    a column, the saved list repeats none. *)
Theorem save_columns_keeps_distinct (selected prev : list string) :
  List.NoDup prev -> List.NoDup selected ->
  List.NoDup (handleSaveColumns selected prev).
Proof.
  intros Hp Hs. unfold handleSaveColumns. cbv zeta.
  apply List.NoDup_app; [exact Hp | apply NoDup_filter_list; exact Hs |].
  intros c Hc Hin. apply filter_In in Hin. destruct Hin as [_ Hin].
  apply negb_true_iff, not_true_iff_false in Hin. apply Hin.
  apply existing_In. exact Hc.
Qed.

Lemma save_columns_witness :
  List.NoDup (handleSaveColumns ["LY AE Capacity"; "Role"] ["Role"; "Level"]).
Proof.
  apply (save_columns_keeps_distinct ["LY AE Capacity"; "Role"] ["Role"; "Level"]).
  - repeat constructor; simpl; intros H;
      repeat (destruct H as [H|H]; [discriminate H|]); exact H.
  - repeat constructor; simpl; intros H;
      repeat (destruct H as [H|H]; [discriminate H|]); exact H.
Defined.

(** ** The column shuttle *)

Lemma filter_partition_perm {A} (p : A -> bool) (l : list A) :
  Permutation (List.filter p l ++ List.filter (fun x => negb (p x)) l) l.
Proof.
  induction l as [|x l IH]; [reflexivity|]. cbn [List.filter].
  destruct (p x); cbn [negb app].
  - constructor. exact IH.
  - rewrite <- Permutation_middle. constructor. exact IH.
Qed.

Lemma swapAt_cons j x l : swapAt (S j) (x :: l) = x :: swapAt j l.
Proof.
  unfold swapAt. change ((x :: l) !! S j) with (l !! j).
  change ((x :: l) !! S (S j)) with (l !! S j).
  destruct (l !! j), (l !! S j); reflexivity.
Qed.

Lemma swapAt_perm l : forall j, Permutation (swapAt j l) l.
Proof.
  induction l as [|x l IH]; intros [|j]; try reflexivity.
  - destruct l as [|y l]; [reflexivity|]. apply perm_swap.
  - rewrite swapAt_cons. constructor. apply IH.
Qed.

Lemma swap_back item l :
  forall j, indexOf item l = Some (S j) ->
    indexOf item (swapAt j l) = Some j /\
    swapAt j (swapAt j l) = l /\
    (S j < length (swapAt j l))%nat.
Proof.
  induction l as [|x l IH]; intros j H; [discriminate|].
  cbn [indexOf] in H. destruct (String.eqb x item) eqn:Ex; [discriminate|].
  assert (Hk : indexOf item l = Some j).
  { destruct (indexOf item l) as [k|]; [|discriminate].
    injection H as ->. reflexivity. }
  clear H. destruct j as [|j].
  - destruct l as [|y l]; [discriminate|]. cbn [indexOf] in Hk.
    destruct (String.eqb y item) eqn:Ey;
      [|destruct (indexOf item l); discriminate].
    unfold swapAt. cbn. rewrite Ey. repeat split. lia.
  - rewrite swapAt_cons. destruct (IH j Hk) as (Hi & Hs & Hl).
    cbn [indexOf]. rewrite Ex, Hi, swapAt_cons, Hs. cbn [length option_map].
    repeat split. lia.
Qed.

(** X14.  The shuttle buttons lose and duplicate no column: [moveRight]
    and [moveLeft] keep the columns of the two lists taken together, and
    [moveUp] and [moveDown] only reorder the selected list. *)
Theorem shuttle_moves_keep_the_columns (st : ModalState) :
  Permutation (available (moveRight st) ++ selected (moveRight st))
              (available st ++ selected st) /\
  Permutation (available (moveLeft st) ++ selected (moveLeft st))
              (available st ++ selected st) /\
  (Permutation (selected (moveUp st)) (selected st) /\
   available (moveUp st) = available st) /\
  (Permutation (selected (moveDown st)) (selected st) /\
   available (moveDown st) = available st).
Proof.
  split; [|split; [|split]].
  - unfold moveRight. cbv zeta. destruct (_ =? 0)%nat; [reflexivity|].
    cbn [available selected].
    rewrite <- (filter_partition_perm
                  (fun c => bool_decide (c ∈ highlightedAvailable st))
                  (available st)) at 3.
    rewrite (Permutation_app_comm (List.filter _ (available st))
               (List.filter (fun x => negb _) (available st))).
    rewrite <- !app_assoc. apply Permutation_app_head.
    apply Permutation_app_comm.
  - unfold moveLeft. cbv zeta. destruct (_ =? 0)%nat; [reflexivity|].
    cbn [available selected]. rewrite <- app_assoc.
    apply Permutation_app_head. apply filter_partition_perm.
  - unfold moveUp. destruct (elements _) as [|item [|? ?]];
      try (split; reflexivity).
    destruct (indexOf item (selected st)) as [[|j]|]; try (split; reflexivity).
    cbn [selected available withSelected]. split; [apply swapAt_perm|reflexivity].
  - unfold moveDown. destruct (elements _) as [|item [|? ?]];
      try (split; reflexivity).
    destruct (indexOf item (selected st)) as [j|]; try (split; reflexivity).
    destruct (_ <? _)%nat; [|split; reflexivity].
    cbn [selected available withSelected]. split; [apply swapAt_perm|reflexivity].
Qed.

(** X15.  When one item is highlighted and it is not the first of the
    selected list, [moveUp] followed by [moveDown] restores the state. *)
Theorem move_up_then_down_restores (st : ModalState) (item : string)
    (j : nat) :
  elements (highlightedSelected st) = [item] ->
  indexOf item (selected st) = Some (S j) ->
  moveUp st <> st /\ moveDown (moveUp st) = st.
Proof.
  intros Hel Hidx. destruct (swap_back item (selected st) j Hidx) as (Hi & Hs & Hl).
  assert (Hup : moveUp st = withSelected (swapAt j (selected st)) st).
  { unfold moveUp. rewrite Hel, Hidx. reflexivity. }
  split.
  - rewrite Hup. intros Heq.
    pose proof (f_equal (fun s => indexOf item (selected s)) Heq) as Hc.
    cbn [selected withSelected] in Hc. rewrite Hi, Hidx in Hc.
    injection Hc as Hc. lia.
  - rewrite Hup. unfold moveDown.
    cbn [highlightedSelected selected withSelected]. rewrite Hel, Hi.
    rewrite (proj2 (Nat.ltb_lt _ _) Hl).
    unfold withSelected. cbn [available selected highlightedAvailable
                                highlightedSelected].
    rewrite Hs. destruct st; reflexivity.
Qed.

Lemma move_up_then_down_witness :
  moveDown (moveUp (MkModalState [] ["Role"; "Level"; "User ID"] ∅ {[ "Level" ]}))
  = MkModalState [] ["Role"; "Level"; "User ID"] ∅ {[ "Level" ]}.
Proof.
  apply (move_up_then_down_restores
           (MkModalState [] ["Role"; "Level"; "User ID"] ∅ {[ "Level" ]})
           "Level" 0%nat).
  - vm_compute. reflexivity.
  - reflexivity.
Defined.

(** ** Rendered rows *)

Lemma visibleRows_eq expandedIds node :
  visibleRows expandedIds node =
  node ::
  match children node with
  | None => []
  | Some cs =>
      if negb (isLeaf node) && bool_decide (id node ∈ expandedIds)
      then flat_map (visibleRows expandedIds) cs
      else []
  end.
Proof. destruct node; reflexivity. Qed.

Lemma sublist_flat_map {A B} (f g : A -> list B) (l : list A) :
  Forall (fun x => sublist (f x) (g x)) l ->
  sublist (flat_map f l) (flat_map g l).
Proof.
  induction 1 as [|x l Hx _ IH]; cbn [flat_map]; [constructor|].
  apply sublist_app; assumption.
Qed.

(** X16.  The rows rendered for a tree are a subsequence of [flattenTree]
    that starts with the root; a root that is not expanded is rendered
    alone, and when every id is expanded all of [flattenTree] is
    rendered. *)
Theorem rendered_rows_follow_expansion (expandedIds : gset string)
    (t : OrgNode) :
  sublist (visibleRows expandedIds t) (flattenTree t) /\
  head (visibleRows expandedIds t) = Some t /\
  (id t ∉ expandedIds -> visibleRows expandedIds t = [t]) /\
  ((forall n, In n (flattenTree t) -> id n ∈ expandedIds) ->
   visibleRows expandedIds t = flattenTree t).
Proof.
  split; [|split; [|split]].
  - induction t as [t E | t cs E IH] using OrgNode_ind;
      rewrite visibleRows_eq, flattenTree_eq, E; [reflexivity|].
    apply sublist_skip.
    destruct (negb (isLeaf t) && bool_decide (id t ∈ expandedIds));
      [apply sublist_flat_map; exact IH | apply sublist_nil_l].
  - rewrite visibleRows_eq. reflexivity.
  - intros Hout. rewrite visibleRows_eq.
    rewrite (bool_decide_eq_false_2 _ Hout), andb_false_r.
    destruct (children t); reflexivity.
  - induction t as [t E | t cs E IH] using OrgNode_ind; intros Hall;
      rewrite visibleRows_eq, flattenTree_eq, E; [reflexivity|].
    f_equal. rewrite (bool_decide_eq_true_2 _ (Hall t (In_root_flatten t))).
    rewrite andb_true_r. unfold isLeaf. rewrite E.
    destruct cs as [|c cs]; [reflexivity|]. cbn [negb].
    assert (Hcs : Forall (fun c0 => visibleRows expandedIds c0 = flattenTree c0)
                    (c :: cs)).
    { rewrite List.Forall_forall in IH |- *. intros d Hd. apply IH; [exact Hd|].
      intros n Hn. apply Hall. eapply In_child_flatten; eassumption. }
    clear -Hcs. induction Hcs as [|d ds Hd _ IHds]; [reflexivity|].
    cbn [flat_map]. rewrite Hd, IHds. reflexivity.
Qed.

Lemma rendered_rows_witness :
  visibleRows {[ "root"; "A"; "B" ]} twoLeafTree = flattenTree twoLeafTree /\
  visibleRows ∅ twoLeafTree = [twoLeafTree].
Proof.
  split.
  - apply (proj2 (proj2 (proj2 (rendered_rows_follow_expansion
                                  {[ "root"; "A"; "B" ]} twoLeafTree)))).
    intros n Hn. simpl in Hn.
    destruct Hn as [<-|[<-|[<-|[]]]]; apply (bool_decide_unpack _);
      vm_compute; exact I.
  - apply (proj1 (proj2 (proj2 (rendered_rows_follow_expansion
                                  ∅ twoLeafTree)))).
    apply not_elem_of_empty.
Defined.

(** ** Expected and ramped capacity *)

Lemma sumZ_scale (k : Z) (l : list Z) :
  sumZ (map (fun z => z * k) l) = sumZ l * k.
Proof. induction l as [|z l IH]; simpl; [reflexivity | rewrite IH; lia]. Qed.

(** X17.  After a headcount edit the expected capacity of every node with
    children is the sum of the expected capacities of its children. *)
Theorem expected_capacity_rolls_up (t : OrgNode) (nodeId : string) (h : Z) :
  Forall (fun n => forall cs, children n = Some cs -> cs <> [] ->
                   getExpectedCapacity n = sumZ (map getExpectedCapacity cs))
    (flattenTree (updateHeadcountAndRollUp t nodeId h)).
Proof.
  unfold updateHeadcountAndRollUp.
  eapply Forall_impl; [apply recalc_rollup|].
  intros n Hn cs E Hne. unfold rollupOK, isLeaf, childHeadcounts in Hn.
  rewrite E in Hn. unfold getExpectedCapacity.
  rewrite Hn by (destruct cs; [congruence | reflexivity]).
  rewrite <- sumZ_scale, List.map_map. reflexivity.
Qed.

(** X18.  The ramped capacity shown in the side panel is the per-head rate
    of 1000 for every positive headcount and 0 otherwise: the division is
    only made by a positive headcount. *)
Theorem ramped_capacity_is_the_rate (n : OrgNode) :
  rampedCapacity n = if 0 <? headcount n then CAPACITY_PER_HC else 0.
Proof.
  unfold rampedCapacity. cbv zeta.
  destruct (Z.ltb_spec 0 (headcount n)) as [Hpos|_]; [|reflexivity].
  unfold mathRound, getExpectedCapacity, CAPACITY_PER_HC.
  assert (Hq : (inject_Z (headcount n * 1000) / inject_Z (headcount n) + (1 # 2)
                == 2001 # 2)%Q).
  { rewrite inject_Z_mult. change (inject_Z 1000) with (1000 # 1)%Q.
    field. intros H0. apply (proj1 (inject_Z_injective _ 0)) in H0. lia. }
  rewrite (Qfloor_comp _ _ Hq). reflexivity.
Qed.

End TreeTableProofs.

(** * Further properties of the allocator *)

Module AllocatorMore.
Import TerritoryPlanning AllocatorProofs.

(** ** Rows through [buildUpdated] *)

Lemma buildUpdated_identity fu ft rows :
  forall n, map rowIdentity (buildUpdated rows n fu ft) = map rowIdentity rows.
Proof.
  induction rows as [|r rows IH]; intros n; [reflexivity|].
  cbn [buildUpdated]. destruct (String.eqb (id r) "unassigned");
    cbn [map]; rewrite IH; reflexivity.
Qed.

Lemma capacities_identity aeInfoMap r1 :
  forall r2, map rowIdentity r1 = map rowIdentity r2 ->
    capacities aeInfoMap r1 = capacities aeInfoMap r2.
Proof.
  unfold capacities.
  induction r1 as [|a r1 IH]; intros [|b r2] H; try discriminate; [reflexivity|].
  cbn [map] in H. unfold rowIdentity at 1 3 in H.
  assert (Hid : id a = id b) by congruence.
  assert (Hown : owner a = owner b) by congruence.
  assert (Hrest : map rowIdentity r1 = map rowIdentity r2) by congruence.
  cbn [List.filter].
  assert (HA : isAERow a = isAERow b) by (unfold isAERow; rewrite Hid; reflexivity).
  rewrite HA. destruct (isAERow b); cbn [map];
    rewrite (IH r2 Hrest); [|reflexivity].
  unfold capacityOf. rewrite Hown. reflexivity.
Qed.

Lemma buildUpdated_again fu ft rows :
  forall n, buildUpdated (buildUpdated rows n fu ft) n fu ft =
            buildUpdated rows n fu ft.
Proof.
  induction rows as [|r rows IH]; intros n; [reflexivity|].
  cbn [buildUpdated]. destruct (String.eqb (id r) "unassigned") eqn:E;
    cbn [buildUpdated id]; rewrite E, IH; reflexivity.
Qed.

Lemma buildUpdated_unassigned fu ft rows :
  forall n row, In row (buildUpdated rows n fu ft) -> isAERow row = false ->
    units row = Some 0 /\ tam row = Some 0.
Proof.
  induction rows as [|r rows IH]; intros n row Hin Hae; [destruct Hin|].
  cbn [buildUpdated] in Hin.
  destruct (String.eqb (id r) "unassigned") eqn:E; destruct Hin as [<-|Hin].
  - split; reflexivity.
  - eapply IH; eassumption.
  - unfold isAERow in Hae. cbn [id] in Hae. rewrite E in Hae. discriminate.
  - eapply IH; eassumption.
Qed.


(** ** Monotonicity of shares and ranks *)












(** ** Properties of [handleOptimize] *)

(** X20.  [handleOptimize] keeps the rows, their order and their id, name,
    owner and region, hence the number of territories; when it allocates,
    every "unassigned" row ends with 0 units and 0 TAM and both flags are
    raised. *)
Theorem optimize_keeps_the_rows (aeInfoMap : gmap string AEInfo)
    (s s' : PlanningState) :
  handleOptimize aeInfoMap s = Some s' ->
  map rowIdentity (territoryData s') = map rowIdentity (territoryData s) /\
  totalTerritories (territoryData s') = totalTerritories (territoryData s) /\
  (totalWeight aeInfoMap (territoryData s) <> 0 ->
   optimized s' = true /\ showBanner s' = true /\
   forall row, In row (territoryData s') -> isAERow row = false ->
               units row = Some 0 /\ tam row = Some 0).
Proof.
  intros H.
  destruct (Z.eq_dec (totalWeight aeInfoMap (territoryData s)) 0) as [Hz|Hnz].
  - rewrite (handleOptimize_skips _ _ Hz) in H. apply (inj Some) in H.
    subst s'. split; [reflexivity|]. split; [reflexivity|].
    intros Hnz. contradiction.
  - rewrite (handleOptimize_allocates _ _ Hnz) in H. apply (inj Some) in H.
    subst s'. cbn [territoryData optimized showBanner].
    pose proof (buildUpdated_identity
                  (largestRemainder TOTAL_UNITS
                     (totalWeight aeInfoMap (territoryData s))
                     (capacities aeInfoMap (territoryData s)))
                  (largestRemainder TOTAL_TAM
                     (totalWeight aeInfoMap (territoryData s))
                     (capacities aeInfoMap (territoryData s)))
                  (territoryData s) 0%nat) as Hid.
    split; [exact Hid|]. split.
    + pose proof (f_equal (@length _)
                    (capacities_identity aeInfoMap _ _ Hid)) as Hl.
      unfold capacities in Hl. rewrite !length_map in Hl. exact Hl.
    + intros _. split; [reflexivity|]. split; [reflexivity|].
      intros row Hin Hae. eapply buildUpdated_unassigned; eassumption.
Qed.

Lemma optimize_keeps_rows_witness :
  map rowIdentity (territoryData allocatedState) =
  map rowIdentity (territoryData initialState).
Proof.
  apply (optimize_keeps_the_rows (flattenAEs Hierarchy.orgHierarchy)
           initialState allocatedState).
  vm_compute. reflexivity.
Defined.

(** X21.  Running [handleOptimize] again on its own result changes
    nothing. *)
Theorem optimize_is_idempotent (aeInfoMap : gmap string AEInfo)
    (s s' : PlanningState) :
  handleOptimize aeInfoMap s = Some s' ->
  handleOptimize aeInfoMap s' = Some s'.
Proof.
  intros H.
  destruct (Z.eq_dec (totalWeight aeInfoMap (territoryData s)) 0) as [Hz|Hnz].
  - rewrite (handleOptimize_skips _ _ Hz) in H. apply (inj Some) in H.
    subst s'. apply handleOptimize_skips. exact Hz.
  - rewrite (handleOptimize_allocates _ _ Hnz) in H. apply (inj Some) in H.
    assert (Hcaps : capacities aeInfoMap (territoryData s') =
                    capacities aeInfoMap (territoryData s)).
    { apply capacities_identity. subst s'. cbn [territoryData].
      apply buildUpdated_identity. }
    assert (Hw : totalWeight aeInfoMap (territoryData s') =
                 totalWeight aeInfoMap (territoryData s))
      by (unfold totalWeight; rewrite Hcaps; reflexivity).
    rewrite handleOptimize_allocates by (rewrite Hw; exact Hnz).
    rewrite Hw, Hcaps. clear Hw Hcaps. subst s'. cbn [territoryData].
    rewrite buildUpdated_again. reflexivity.
Qed.

Lemma optimize_idempotent_witness :
  handleOptimize (flattenAEs Hierarchy.orgHierarchy) allocatedState =
  Some allocatedState.
Proof.
  apply (optimize_is_idempotent (flattenAEs Hierarchy.orgHierarchy)
           initialState allocatedState).
  vm_compute. reflexivity.
Defined.











(** ** The totals row *)

Lemma capacityOf_owner aeInfoMap t :
  capacityOf aeInfoMap t = default 0 (ownerCapacity aeInfoMap t).
Proof.
  unfold capacityOf, ownerCapacity.
  destruct (aeInfoMap !! owner t) as [info|]; [|reflexivity].
  destruct (validatedCapacity info); reflexivity.
Qed.

Lemma fold_ownerCapacity aeInfoMap l :
  forall a,
    fold_left
      (fun sum t => match ownerCapacity aeInfoMap t with
                    | Some val => sum + val
                    | None => sum
                    end) l a
    = a + sumZ (map (capacityOf aeInfoMap) l).
Proof.
  induction l as [|t l IH]; intros a; cbn [fold_left map]; [simpl; lia|].
  rewrite IH, capacityOf_owner.
  change (sumZ (?x :: ?r)) with (x + sumZ r).
  destruct (ownerCapacity aeInfoMap t); unfold default; cbn [from_option Datatypes.id]; lia.
Qed.

(** X27.  The total validated capacity shown in the totals row is the
    total weight the allocator divides by; when no owner has a validated
    capacity (the cell shows a dash) [handleOptimize] changes nothing. *)
Theorem displayed_total_is_the_weight (aeInfoMap : gmap string AEInfo)
    (s : PlanningState) :
  totalValidatedCapacity aeInfoMap (territoryData s) =
    totalWeight aeInfoMap (territoryData s) /\
  (hasAnyValidated aeInfoMap (territoryData s) = false ->
   handleOptimize aeInfoMap s = Some s).
Proof.
  split.
  - unfold totalValidatedCapacity, totalWeight, capacities.
    rewrite fold_ownerCapacity. apply Z.add_0_l.
  - intros Hnone. apply handleOptimize_skips.
    unfold totalWeight, capacities. unfold hasAnyValidated in Hnone.
    induction (List.filter isAERow (territoryData s)) as [|t l IH];
      [reflexivity|].
    cbn [existsb] in Hnone. apply orb_false_iff in Hnone.
    destruct Hnone as [Ht Hl]. cbn [map].
    change (sumZ (?x :: ?r)) with (x + sumZ r).
    rewrite (IH Hl), capacityOf_owner.
    destruct (ownerCapacity aeInfoMap t); [discriminate | reflexivity].
Qed.

Lemma displayed_total_witness :
  handleOptimize noCapacityMap initialState = Some initialState.
Proof.
  apply (proj2 (displayed_total_is_the_weight noCapacityMap initialState)).
  vm_compute. reflexivity.
Defined.

(** ** Selecting all rows *)

(** X29.  With distinct row ids, [toggleAll] clears a selection that holds
    every row id, selects every row id from the empty selection, and two
    calls from the empty selection end with the empty selection. *)
Theorem toggleAll_selects_or_clears (rows : list TerritoryRow) :
  NoDup (map id rows) ->
  toggleAll rows (list_to_set (map id rows)) = ∅ /\
  (rows <> [] -> toggleAll rows ∅ = list_to_set (map id rows)) /\
  toggleAll rows (toggleAll rows ∅) = ∅.
Proof.
  intros Hnd.
  assert (Hsize : size (list_to_set (map id rows) : gset string) = length rows).
  { rewrite size_list_to_set by exact Hnd. apply length_map. }
  assert (Hall : toggleAll rows (list_to_set (map id rows)) = ∅).
  { unfold toggleAll. rewrite Hsize, Nat.eqb_refl. reflexivity. }
  split; [exact Hall|]. split.
  - intros Hne. unfold toggleAll. rewrite size_empty.
    destruct rows as [|r rows]; [congruence|]. reflexivity.
  - destruct rows as [|r rows]; [reflexivity|].
    assert (H0 : toggleAll (r :: rows) ∅ = list_to_set (map id (r :: rows)))
      by (unfold toggleAll; rewrite size_empty; reflexivity).
    rewrite H0. exact Hall.
Qed.

Lemma toggleAll_witness :
  toggleAll initialTerritoryData
    (list_to_set (map id initialTerritoryData)) = ∅.
Proof.
  assert (Hnd : NoDup (map id initialTerritoryData))
    by (apply (bool_decide_unpack _); vm_compute; exact I).
  exact (proj1 (toggleAll_selects_or_clears initialTerritoryData Hnd)).
Defined.

(** ** The map built by [flattenAEs] *)

Lemma walk_eq n parent (m : gmap string AEInfo) :
  walk n parent m =
  let m1 :=
    if String.eqb (Hierarchy.role n) "AE"
    then <[Hierarchy.name n :=
             MkAEInfo (Hierarchy.validatedCapacity n) (parentLabel parent)]> m
    else m in
  match Hierarchy.children n with
  | None => m1
  | Some cs => fold_left (fun acc child => walk child (Some n) acc) cs m1
  end.
Proof. destruct n; reflexivity. Qed.

(** An account executive of the tree named [nm] whose validated capacity
    is [v]. *)
Lemma entry_sound t parent (m : gmap string AEInfo) nm info :
  (if String.eqb (Hierarchy.role t) "AE"
   then <[Hierarchy.name t :=
            MkAEInfo (Hierarchy.validatedCapacity t) (parentLabel parent)]> m
   else m) !! nm = Some info ->
  m !! nm = Some info \/
  (String.eqb (Hierarchy.role t) "AE" = true /\ Hierarchy.name t = nm /\
   Hierarchy.validatedCapacity t = validatedCapacity info).
Proof.
  destruct (String.eqb (Hierarchy.role t) "AE"); [|left; assumption].
  rewrite lookup_insert. destruct (decide (Hierarchy.name t = nm)) as [<-|Hne].
  - intros H. injection H as <-. right. repeat split.
  - intros H. left. exact H.
Qed.

Lemma entry_complete t parent (m : gmap string AEInfo) nm :
  is_Some (m !! nm) \/
  (String.eqb (Hierarchy.role t) "AE" = true /\ Hierarchy.name t = nm) ->
  is_Some ((if String.eqb (Hierarchy.role t) "AE"
            then <[Hierarchy.name t :=
                     MkAEInfo (Hierarchy.validatedCapacity t)
                       (parentLabel parent)]> m
            else m) !! nm).
Proof.
  intros [H|(Hae & Hnm)].
  - destruct (String.eqb (Hierarchy.role t) "AE"); [|exact H].
    rewrite lookup_insert. destruct (decide (Hierarchy.name t = nm)); [eauto | exact H].
  - rewrite Hae, lookup_insert.
    destruct (decide (Hierarchy.name t = nm)); [eauto | contradiction].
Qed.

Lemma walk_sound t :
  forall parent (m : gmap string AEInfo) nm info,
    walk t parent m !! nm = Some info ->
    m !! nm = Some info \/
    exists n, In n (Hierarchy.flattenTree t) /\
              String.eqb (Hierarchy.role n) "AE" = true /\
              Hierarchy.name n = nm /\
              Hierarchy.validatedCapacity n = validatedCapacity info.
Proof.
  induction t as [t E | t cs E IH] using HierarchyProofs.OrgNode_ind;
    intros parent m nm info; rewrite walk_eq, E; cbv zeta.
  - intros H. apply entry_sound in H. destruct H as [H|H]; [left; exact H|].
    right. exists t. split; [apply HierarchyMore.In_root_flatten | exact H].
  - assert (Hfold : forall (m0 : gmap string AEInfo),
        fold_left (fun acc child => walk child (Some t) acc) cs m0 !! nm
          = Some info ->
        m0 !! nm = Some info \/
        exists c, In c cs /\ exists n, In n (Hierarchy.flattenTree c) /\
          String.eqb (Hierarchy.role n) "AE" = true /\
          Hierarchy.name n = nm /\
          Hierarchy.validatedCapacity n = validatedCapacity info).
    { clear E. induction IH as [|c cs Hc _ IHcs]; intros m0 H; cbn [fold_left] in H.
      - left. exact H.
      - apply IHcs in H. destruct H as [H|(c' & Hc' & H)].
        + apply Hc in H. destruct H as [H|H]; [left; exact H|].
          right. exists c. split; [left; reflexivity | exact H].
        + right. exists c'. split; [right; exact Hc' | exact H]. }
    intros H. apply Hfold in H. destruct H as [H|(c & Hc & n & Hn & Hrest)].
    + apply entry_sound in H. destruct H as [H|H]; [left; exact H|].
      right. exists t. split; [apply HierarchyMore.In_root_flatten | exact H].
    + right. exists n. split; [|exact Hrest].
      eapply HierarchyMore.In_child_flatten; eassumption.
Qed.

Lemma walk_complete t :
  forall parent (m : gmap string AEInfo) nm,
    is_Some (m !! nm) \/
    (exists n, In n (Hierarchy.flattenTree t) /\
               String.eqb (Hierarchy.role n) "AE" = true /\
               Hierarchy.name n = nm) ->
    is_Some (walk t parent m !! nm).
Proof.
  induction t as [t E | t cs E IH] using HierarchyProofs.OrgNode_ind;
    intros parent m nm; rewrite walk_eq, E; cbv zeta;
    rewrite HierarchyProofs.flattenTree_eq, E.
  - intros [H|(n & [<-|[]] & Hae & Hnm)]; apply entry_complete; auto.
  - assert (Hfold : forall (m0 : gmap string AEInfo),
        is_Some (m0 !! nm) \/
        (exists c, In c cs /\ exists n, In n (Hierarchy.flattenTree c) /\
           String.eqb (Hierarchy.role n) "AE" = true /\
           Hierarchy.name n = nm) ->
        is_Some (fold_left (fun acc child => walk child (Some t) acc) cs m0
                 !! nm)).
    { clear E. induction IH as [|c cs Hc _ IHcs]; intros m0 H; cbn [fold_left].
      - destruct H as [H|(c & [] & _)]. exact H.
      - apply IHcs. destruct H as [H|(c' & [<-|Hc'] & H)].
        + left. apply Hc. left. exact H.
        + left. apply Hc. right. exact H.
        + right. exists c'. split; assumption. }
    intros [H|(n & [<-|Hn] & Hae & Hnm)]; apply Hfold.
    + left. apply entry_complete. left. exact H.
    + left. apply entry_complete. right. split; assumption.
    + apply in_flat_map in Hn. destruct Hn as (c & Hc & Hn).
      right. exists c. split; [exact Hc|]. exists n. repeat split; assumption.
Qed.

Lemma NoDup_map_inj_In {A B} (f : A -> B) (l : list A) :
  List.NoDup (map f l) ->
  forall a b, In a l -> In b l -> f a = f b -> a = b.
Proof.
  induction l as [|x l IH]; intros Hnd a b Ha Hb Hf; [destruct Ha|].
  cbn [map] in Hnd. inversion Hnd as [|? ? Hx Hl]; subst.
  destruct Ha as [<-|Ha]; destruct Hb as [<-|Hb].
  - reflexivity.
  - exfalso. apply Hx. rewrite Hf. apply in_map. exact Hb.
  - exfalso. apply Hx. rewrite <- Hf. apply in_map. exact Ha.
  - apply IH; assumption.
Qed.

(** X28.  The map built by [flattenAEs] has an entry exactly for the names
    of the account executives of the tree, and the capacity of an entry is
    the validated capacity of an executive of that name; when no two
    executives share a name, every executive finds its own capacity under
    its name. *)
Theorem flattenAEs_holds_the_executives (t : Hierarchy.OrgNode) :
  (forall nm, is_Some (flattenAEs t !! nm) <->
              exists n, In n (aeNodes t) /\ Hierarchy.name n = nm) /\
  (forall nm info, flattenAEs t !! nm = Some info ->
     exists n, In n (aeNodes t) /\ Hierarchy.name n = nm /\
               Hierarchy.validatedCapacity n = validatedCapacity info) /\
  (List.NoDup (map Hierarchy.name (aeNodes t)) ->
   forall n, In n (aeNodes t) ->
     exists info, flattenAEs t !! Hierarchy.name n = Some info /\
                  validatedCapacity info = Hierarchy.validatedCapacity n).
Proof.
  assert (Hsound : forall nm info, flattenAEs t !! nm = Some info ->
     exists n, In n (aeNodes t) /\ Hierarchy.name n = nm /\
               Hierarchy.validatedCapacity n = validatedCapacity info).
  { intros nm info H. unfold flattenAEs in H. apply walk_sound in H.
    destruct H as [H|(n & Hn & Hae & Hrest)].
    - rewrite lookup_empty in H. discriminate.
    - exists n. split; [|exact Hrest]. apply filter_In. split; assumption. }
  assert (Hcomplete : forall n, In n (aeNodes t) ->
                        is_Some (flattenAEs t !! Hierarchy.name n)).
  { intros n Hn. apply filter_In in Hn. destruct Hn as [Hn Hae].
    unfold flattenAEs. apply walk_complete. right. exists n.
    repeat split; assumption. }
  split; [|split; [exact Hsound|]].
  - intros nm. split.
    + intros [info H]. destruct (Hsound nm info H) as (n & Hn & Hnm & _).
      exists n. split; assumption.
    + intros (n & Hn & <-). apply Hcomplete. exact Hn.
  - intros Hnd n Hn. destruct (Hcomplete n Hn) as [info H].
    exists info. split; [exact H|].
    destruct (Hsound _ info H) as (n' & Hn' & Hnm & Hv).
    rewrite (NoDup_map_inj_In _ _ Hnd n n' Hn Hn' (eq_sym Hnm)). symmetry.
    exact Hv.
Qed.

Lemma flattenAEs_witness :
  exists info,
    flattenAEs Hierarchy.orgHierarchy !! "AE3"%string = Some info /\
    validatedCapacity info = Some 1100.
Proof.
  assert (Hnd : List.NoDup (map Hierarchy.name (aeNodes Hierarchy.orgHierarchy))).
  { vm_compute. repeat constructor; simpl; intros H;
      repeat (destruct H as [H|H]; [discriminate H|]); exact H. }
  apply (proj2 (proj2 (flattenAEs_holds_the_executives Hierarchy.orgHierarchy))
           Hnd (Hierarchy.aeLeaf "ae3" 7 "AE3" 1100 "Manufacturing")).
  vm_compute. do 2 right. left. reflexivity.
Defined.

End AllocatorMore.

(** * Properties of rounding to a double *)

Module Binary64Proofs.
Import Binary64.
Local Open Scope Q_scope.

Lemma pow2_pos e : 0 < pow2 e.
Proof. apply Qpower_0_lt. reflexivity. Qed.

Lemma pow2_add a b : pow2 (a + b) == pow2 a * pow2 b.
Proof. apply Qpower_plus. discriminate. Qed.

Lemma pow2_le a b : (a <= b)%Z -> pow2 a <= pow2 b.
Proof. intros H. apply Qpower_le_compat_l; [exact H | discriminate]. Qed.

Lemma pow2_lt a b : (a < b)%Z -> pow2 a < pow2 b.
Proof. intros H. apply Qpower_lt_compat_l; [exact H | reflexivity]. Qed.

Lemma pow2_Z k : (0 <= k)%Z -> pow2 k == inject_Z (2 ^ k).
Proof. intros H. unfold pow2. rewrite Zpower_Qpower by exact H. reflexivity. Qed.

Lemma pow2_inv a : pow2 (- a) == / pow2 a.
Proof. apply Qpower_opp. Qed.

Lemma pow2_cancel a : pow2 a * pow2 (- a) == 1.
Proof.
  rewrite <- pow2_add. replace (a + - a)%Z with 0%Z by lia. reflexivity.
Qed.

(** [binade a] is the exponent of the power of two at or below [a]. *)
Lemma binade_spec a : 0 < a -> pow2 (binade a) <= a /\ a < pow2 (binade a + 1).
Proof.
  intros Ha.
  destruct a as [n d].
  assert (Hn : (0 < n)%Z).
  { unfold Qlt in Ha. simpl in Ha. lia. }
  set (ln := Z.log2 n). set (ld := Z.log2 (Zpos d)).
  assert (Hln : (2 ^ ln <= n < 2 ^ (ln + 1))%Z).
  { unfold ln. replace (Z.log2 n + 1)%Z with (Z.succ (Z.log2 n)) by lia.
    apply Z.log2_spec. exact Hn. }
  assert (Hld : (2 ^ ld <= Zpos d < 2 ^ (ld + 1))%Z).
  { unfold ld. replace (Z.log2 (Zpos d) + 1)%Z with (Z.succ (Z.log2 (Zpos d))) by lia.
    apply Z.log2_spec. lia. }
  assert (Hln0 : (0 <= ln)%Z) by apply Z.log2_nonneg.
  assert (Hld0 : (0 <= ld)%Z) by apply Z.log2_nonneg.
  assert (Had : (n # d) * inject_Z (Zpos d) == inject_Z n).
  { unfold Qeq, Qmult, inject_Z. simpl. lia. }
  assert (Hup : n # d < pow2 (ln - ld + 1)).
  { replace (ln - ld + 1)%Z with ((ln + 1) + - ld)%Z by lia.
    rewrite pow2_add, pow2_inv.
    apply Qlt_shift_div_l; [apply pow2_pos|].
    apply Qle_lt_trans with ((n # d) * inject_Z (Zpos d)).
    - apply Qmult_le_l; [exact Ha|]. rewrite pow2_Z by lia.
      rewrite <- Zle_Qle. lia.
    - rewrite Had, pow2_Z by lia. rewrite <- Zlt_Qlt. lia. }
  assert (Hlow : pow2 (ln - ld - 1) <= n # d).
  { replace (ln - ld - 1)%Z with (ln + - (ld + 1))%Z by lia.
    rewrite pow2_add, pow2_inv.
    apply Qle_shift_div_r; [apply pow2_pos|].
    apply Qle_trans with ((n # d) * inject_Z (Zpos d)).
    - rewrite Had, pow2_Z by lia. rewrite <- Zle_Qle. lia.
    - apply Qmult_le_l; [exact Ha|]. rewrite pow2_Z by lia.
      rewrite <- Zle_Qle. lia. }
  unfold binade. cbn [Qnum Qden]. fold ln ld.
  destruct (Qle_bool (pow2 (ln - ld)) (n # d)) eqn:E.
  - apply Qle_bool_iff in E. split; [exact E | exact Hup].
  - split.
    + exact Hlow.
    + replace (ln - ld - 1 + 1)%Z with (ln - ld)%Z by lia.
      apply Qnot_le_lt. intros Hc. apply Qle_bool_iff in Hc. congruence.
Qed.


Lemma roundHalfEven_bounds x :
  inject_Z (roundHalfEven x) - x <= 1 # 2 /\ x - inject_Z (roundHalfEven x) <= 1 # 2.
Proof.
  unfold roundHalfEven.
  pose proof (Qfloor_le x) as Hlo. pose proof (Qlt_floor x) as Hhi.
  rewrite inject_Z_plus in Hhi. change (inject_Z 1) with 1 in Hhi.
  destruct (Qcompare (x - inject_Z (Qfloor x)) (1 # 2)) eqn:E.
  - apply Qeq_alt in E.
    destruct (Z.even (Qfloor x));
      [|rewrite inject_Z_plus; change (inject_Z 1) with 1]; split; lra.
  - apply Qlt_alt in E. split; lra.
  - apply Qgt_alt in E. rewrite inject_Z_plus. change (inject_Z 1) with 1.
    split; lra.
Qed.

Lemma roundHalfEven_exact z x : x == inject_Z z -> roundHalfEven x = z.
Proof.
  intros H. unfold roundHalfEven.
  assert (Hf : Qfloor x = z) by (rewrite H; apply Qfloor_Z).
  rewrite Hf.
  destruct (Qcompare (x - inject_Z z) (1 # 2)) eqn:E.
  - apply Qeq_alt in E. lra.
  - reflexivity.
  - apply Qgt_alt in E. lra.
Qed.

Lemma roundHalfEven_ge z x : inject_Z z <= x -> (z <= roundHalfEven x)%Z.
Proof.
  intros H.
  assert (Hf : (z <= Qfloor x)%Z).
  { rewrite <- (Qfloor_Z z). apply Qfloor_resp_le. exact H. }
  unfold roundHalfEven.
  destruct (Qcompare _ _); [destruct (Z.even _)| |]; lia.
Qed.

Lemma ulpOf_pos a : 0 < ulpOf a.
Proof. apply pow2_pos. Qed.

Lemma binade_normal a : pow2 (-1022) <= a -> (-1022 <= binade a)%Z.
Proof.
  intros H.
  assert (Ha : 0 < a) by (eapply Qlt_le_trans; [apply (pow2_pos (-1022)) | exact H]).
  destruct (binade_spec a Ha) as [_ Hup].
  destruct (Z_lt_le_dec (binade a) (-1022)) as [Hlt|]; [|assumption].
  exfalso. apply (Qlt_irrefl a).
  eapply Qlt_le_trans; [exact Hup|].
  eapply Qle_trans; [apply pow2_le|exact H]. lia.
Qed.

Lemma ulpOf_normal a : pow2 (-1022) <= a -> ulpOf a <= a * pow2 (-52).
Proof.
  intros H. pose proof (binade_normal a H) as Hb.
  assert (Ha : 0 < a) by (eapply Qlt_le_trans; [apply (pow2_pos (-1022)) | exact H]).
  destruct (binade_spec a Ha) as [Hlo _].
  unfold ulpOf. rewrite Z.max_l by lia.
  replace (binade a - 52)%Z with (binade a + -52)%Z by lia.
  rewrite pow2_add. apply Qmult_le_compat_r; [exact Hlo|].
  apply Qlt_le_weak, pow2_pos.
Qed.

Lemma ulpOf_subnormal a : 0 < a -> a < pow2 (-1022) -> ulpOf a = pow2 (-1074).
Proof.
  intros Ha H.
  destruct (binade_spec a Ha) as [Hlo _].
  unfold ulpOf. rewrite Z.max_r; [reflexivity|].
  destruct (Z_lt_le_dec (binade a) (-1022)) as [Hlt|Hge]; [lia|].
  exfalso. apply (Qlt_irrefl a).
  eapply Qlt_le_trans; [exact H|].
  eapply Qle_trans; [apply pow2_le; exact Hge|exact Hlo].
Qed.

Lemma ulpOf_grid a : exists k : Z, (0 <= k)%Z /\ ulpOf a == inject_Z (2 ^ k) * pow2 (-1074).
Proof.
  exists (Z.max (binade a) (-1022) + 1022)%Z. split; [lia|].
  unfold ulpOf. rewrite <- pow2_Z by lia. rewrite <- pow2_add.
  replace (Z.max (binade a) (-1022) + 1022 + -1074)%Z
    with (Z.max (binade a) (-1022) - 52)%Z by lia.
  reflexivity.
Qed.

Lemma round64_cases q : Rounded q (round64 q).
Proof.
  unfold round64.
  destruct (Qeq_bool q 0) eqn:E0.
  - apply Qeq_bool_iff in E0. constructor. exact E0.
  - assert (Hq : ~ q == 0).
    { intros H. apply Qeq_bool_iff in H. congruence. }
    cbv zeta.
    destruct (Qle_bool (pow2 1024) _) eqn:E.
    + apply Qle_bool_iff in E. apply RoundedOverflow; assumption.
    + apply RoundedFinite; [assumption| |reflexivity].
      apply Qnot_le_lt. intros Hc. apply Qle_bool_iff in Hc. congruence.
Qed.

(** Magnitude and sign of a finite result: the rounded magnitude [r] is
    within half an ulp of [|q|]. *)
Lemma round64_finite q q' :
  round64 q = Finite q' ->
  exists r : Q,
    0 <= r /\
    r - Qabs q <= (1 # 2) * ulpOf (Qabs q) /\
    Qabs q - r <= (1 # 2) * ulpOf (Qabs q) /\
    (exists m : Z, r == inject_Z m * ulpOf (Qabs q)) /\
    q' = Qred (if Qle_bool 0 q then r else - r).
Proof.
  intros H. pose proof (round64_cases q) as R. rewrite H in R.
  inversion R as [Hz Heq | | q0 Hq Hlt Hq' Heq]; subst.
  - exists 0.
    assert (Ha : Qabs q == 0) by (rewrite Hz; reflexivity).
    pose proof (ulpOf_pos (Qabs q)) as Hu.
    repeat split; try lra.
    + exists 0%Z. ring.
    + destruct (Qle_bool 0 q); reflexivity.
  - set (u := ulpOf (Qabs q)) in *.
    set (m := roundHalfEven (Qabs q / u)) in *.
    pose proof (ulpOf_pos (Qabs q)) as Hu. fold u in Hu.
    pose proof (roundHalfEven_bounds (Qabs q / u)) as [B1 B2]. fold m in B1, B2.
    assert (Hdiv : Qabs q / u * u == Qabs q) by (field; lra).
    assert (Hm : (0 <= m)%Z).
    { apply roundHalfEven_ge. apply Qle_shift_div_l; [exact Hu|].
      rewrite Qmult_0_l. apply Qabs_nonneg. }
    exists (inject_Z m * u). repeat split.
    + apply Qmult_le_0_compat; [|lra]. change 0 with (inject_Z 0).
      rewrite <- Zle_Qle. exact Hm.
    + assert ((inject_Z m - Qabs q / u) * u <= (1 # 2) * u).
      { apply Qmult_le_compat_r; lra. }
      lra.
    + assert ((Qabs q / u - inject_Z m) * u <= (1 # 2) * u).
      { apply Qmult_le_compat_r; lra. }
      lra.
    + exists m. reflexivity.
Qed.


Lemma round64_zero q : q == 0 -> round64 q = Finite 0.
Proof.
  intros H. unfold round64.
  destruct (Qeq_bool q 0) eqn:E; [reflexivity|].
  apply Qeq_bool_iff in H. congruence.
Qed.

Lemma Qle_bool_false a b : Qle_bool a b = false -> b < a.
Proof.
  intros H. apply Qnot_le_lt. intros Hc. apply Qle_bool_iff in Hc. congruence.
Qed.

(** A finite result is within half an ulp of the argument, has its sign,
    is in lowest terms and is a multiple of [2^-1074]. *)
Lemma round64_value q q' :
  round64 q = Finite q' ->
  Qabs (q' - q) <= (1 # 2) * ulpOf (Qabs q) /\
  (0 <= q -> 0 <= q') /\ (q <= 0 -> q' <= 0) /\
  Qred q' = q' /\ onGrid q'.
Proof.
  intros H.
  destruct (Qeq_dec q 0) as [Hz|Hnz].
  { rewrite (round64_zero q Hz) in H. injection H as <-.
    pose proof (ulpOf_pos (Qabs q)) as Hu.
    repeat split; try lra.
    - apply Qabs_Qle_condition. split; lra.
    - exists 0%Z. ring. }
  destruct (round64_finite q q' H) as (r & Hr0 & Hr1 & Hr2 & [m Hm] & Hq').
  destruct (ulpOf_grid (Qabs q)) as (k & Hk & Hgrid).
  assert (Hred : Qred q' = q').
  { rewrite Hq'. apply Qred_complete, Qred_correct. }
  destruct (Qle_bool 0 q) eqn:Es.
  - apply Qle_bool_iff in Es.
    assert (Hv : q' == r) by (rewrite Hq'; apply Qred_correct).
    assert (Ha : Qabs q == q) by (apply Qabs_pos; exact Es).
    repeat split; try assumption.
    + apply Qabs_Qle_condition. rewrite Hv. split; lra.
    + intros _. lra.
    + intros Hle. exfalso. apply Hnz. lra.
    + exists (m * 2 ^ k)%Z. rewrite Hv, Hm, Hgrid, inject_Z_mult. ring.
  - apply Qle_bool_false in Es.
    assert (Hv : q' == - r) by (rewrite Hq'; apply Qred_correct).
    assert (Ha : Qabs q == - q) by (apply Qabs_neg; lra).
    repeat split; try assumption.
    + apply Qabs_Qle_condition. rewrite Hv. split; lra.
    + intros Hle. lra.
    + intros _. lra.
    + exists (- (m * 2 ^ k))%Z.
      rewrite Hv, Hm, Hgrid, inject_Z_opp, inject_Z_mult. ring.
Qed.

Lemma Qabs_nonzero q : ~ q == 0 -> 0 < Qabs q.
Proof.
  intros Hnz. pose proof (Qabs_nonneg q) as Ha0.
  destruct (Qle_lt_or_eq _ _ Ha0) as [|E]; [assumption|].
  exfalso. apply Hnz.
  assert (Hq : Qabs q <= 0) by (rewrite <- E; apply Qle_refl).
  apply Qabs_Qle_condition in Hq. lra.
Qed.

Lemma pow2_half e : pow2 (e - 1) == (1 # 2) * pow2 e.
Proof.
  replace (e - 1)%Z with (-1 + e)%Z by lia. rewrite pow2_add. reflexivity.
Qed.

(** Relative error of one rounding: [2^-53], plus [2^-1075] for results in
    the subnormal range. *)
Lemma round64_error q q' :
  round64 q = Finite q' ->
  Qabs (q' - q) <= pow2 (-53) * Qabs q + pow2 (-1075).
Proof.
  intros H. destruct (round64_value q q' H) as (Herr & _).
  pose proof (pow2_pos (-1075)) as Hp. pose proof (pow2_pos (-53)) as Hp'.
  pose proof (Qabs_nonneg q) as Ha0.
  destruct (Qlt_le_dec (Qabs q) (pow2 (-1022))) as [Hsub|Hnorm].
  - destruct (Qeq_dec q 0) as [Hz|Hnz].
    + rewrite (round64_zero q Hz) in H. injection H as <-.
      assert (E : Qabs (0 - q) == 0).
      { rewrite Hz. reflexivity. }
      rewrite E. nra.
    + pose proof (Qabs_nonzero q Hnz) as Hpos.
      rewrite (ulpOf_subnormal _ Hpos Hsub) in Herr.
      rewrite <- (pow2_half (-1074)) in Herr.
      change (-1074 - 1)%Z with (-1075)%Z in Herr. nra.
  - pose proof (ulpOf_normal _ Hnorm) as Hu.
    pose proof (pow2_half (-52)) as Hh. change (-52 - 1)%Z with (-53)%Z in Hh.
    rewrite Hh. nra.
Qed.

(** A value that is a multiple of its own ulp is returned as it is. *)
Lemma round64_exact q (k : Z) :
  Qabs q == inject_Z k * ulpOf (Qabs q) ->
  Qabs q < pow2 1024 ->
  round64 q = Finite (Qred q).
Proof.
  intros Hk Hlt.
  destruct (Qeq_dec q 0) as [Hz|Hnz].
  { rewrite (round64_zero q Hz). f_equal.
    rewrite (Qred_complete q 0 Hz). reflexivity. }
  pose proof (ulpOf_pos (Qabs q)) as Hu.
  assert (Hm : roundHalfEven (Qabs q / ulpOf (Qabs q)) = k).
  { apply roundHalfEven_exact. rewrite Hk at 1. field. lra. }
  pose proof (round64_cases q) as R.
  inversion R as [Hz Heq | Hq Hov Heq | q0 Hq Hr Hq' Heq].
  - contradiction.
  - exfalso. rewrite Hm, <- Hk in Hov. lra.
  - f_equal. rewrite Hq', Hm. apply Qred_complete.
    destruct (Qle_bool 0 q) eqn:Es.
    + apply Qle_bool_iff in Es. rewrite <- Hk. apply Qabs_pos. exact Es.
    + apply Qle_bool_false in Es. rewrite <- Hk.
      rewrite (Qabs_neg q) by lra. ring.
Qed.


Lemma Qabs_grid (z : Z) (g : Q) :
  0 < g -> Qabs (inject_Z z * g) == inject_Z (Z.abs z) * g.
Proof.
  intros Hg. rewrite Qabs_Qmult, (Qabs_pos g) by lra. reflexivity.
Qed.

(** On multiples of [2^-1074] rounding has a relative error only: in the
    subnormal range such a value is returned as it is. *)
Lemma round64_error_grid q q' :
  onGrid q -> round64 q = Finite q' ->
  Qabs (q' - q) <= pow2 (-53) * Qabs q.
Proof.
  intros [z Hz] H.
  pose proof (pow2_pos (-1074)) as Hg. pose proof (pow2_pos (-53)) as Hp'.
  pose proof (Qabs_nonneg q) as Ha0.
  destruct (Qlt_le_dec (Qabs q) (pow2 (-1022))) as [Hsub|Hnorm].
  - destruct (Qeq_dec q 0) as [Hq0|Hnz].
    + rewrite (round64_zero q Hq0) in H. injection H as <-.
      assert (E : Qabs (0 - q) == 0) by (rewrite Hq0; reflexivity).
      rewrite E. nra.
    + pose proof (Qabs_nonzero q Hnz) as Hpos.
      assert (Hex : round64 q = Finite (Qred q)).
      { apply (round64_exact q (Z.abs z)).
        - rewrite (ulpOf_subnormal _ Hpos Hsub). rewrite Hz at 1.
          apply Qabs_grid. exact Hg.
        - eapply Qlt_trans; [exact Hsub|]. apply pow2_lt. lia. }
      rewrite Hex in H. injection H as <-.
      assert (E : Qabs (Qred q - q) == 0).
      { rewrite (Qred_correct q).
        assert (E0 : q - q == 0) by ring. rewrite E0. reflexivity. }
      rewrite E. nra.
  - destruct (round64_value q q' H) as (Herr & _).
    pose proof (ulpOf_normal _ Hnorm) as Hu.
    pose proof (pow2_half (-52)) as Hh. change (-52 - 1)%Z with (-53)%Z in Hh.
    rewrite Hh. nra.
Qed.

Lemma binade_le a k : 0 < a -> a <= pow2 k -> (binade a <= k)%Z.
Proof.
  intros Ha H. destruct (binade_spec a Ha) as [Hlo _].
  destruct (Z_lt_le_dec k (binade a)) as [Hlt|]; [|assumption].
  exfalso. apply (Qlt_irrefl a).
  eapply Qle_lt_trans; [exact H|].
  eapply Qlt_le_trans; [apply pow2_lt; exact Hlt|exact Hlo].
Qed.

Lemma binade_ge a k : pow2 k <= a -> (k <= binade a)%Z.
Proof.
  intros H.
  assert (Ha : 0 < a) by (eapply Qlt_le_trans; [apply (pow2_pos k)|exact H]).
  destruct (binade_spec a Ha) as [_ Hup].
  destruct (Z_lt_le_dec (binade a) k) as [Hlt|]; [|assumption].
  exfalso. apply (Qlt_irrefl a).
  eapply Qlt_le_trans; [exact Hup|].
  eapply Qle_trans; [apply pow2_le|exact H]. lia.
Qed.

(** No overflow below [2^1023]. *)
Lemma round64_finite_below q :
  Qabs q <= pow2 1023 -> exists q', round64 q = Finite q'.
Proof.
  intros Hle.
  pose proof (round64_cases q) as R.
  inversion R as [Hz Heq | Hq Hov Heq | q0 Hq Hr Hq' Heq].
  - eexists; reflexivity.
  - exfalso.
    pose proof (Qabs_nonzero q Hq) as Hpos.
    set (u := ulpOf (Qabs q)) in *.
    pose proof (ulpOf_pos (Qabs q)) as Hu. fold u in Hu.
    pose proof (roundHalfEven_bounds (Qabs q / u)) as [B1 _].
    assert (Hdiv : Qabs q / u * u == Qabs q) by (field; lra).
    assert (Hb : (inject_Z (roundHalfEven (Qabs q / u)) - Qabs q / u) * u
                 <= (1 # 2) * u).
    { apply Qmult_le_compat_r; lra. }
    assert (Hu' : u <= pow2 971).
    { unfold u, ulpOf. apply pow2_le.
      pose proof (binade_le _ 1023 Hpos Hle). lia. }
    assert (E1 : pow2 1024 == 2 * pow2 1023).
    { replace 1024%Z with (1 + 1023)%Z by lia. rewrite pow2_add. reflexivity. }
    assert (E2 : pow2 971 <= pow2 1023) by (apply pow2_le; lia).
    pose proof (pow2_pos 1023). lra.
  - eexists; reflexivity.
Qed.

Lemma Qred_inject_Z z : Qred (inject_Z z) = inject_Z z.
Proof.
  unfold Qred, inject_Z.
  pose proof (Z.ggcd_gcd z 1) as Hg.
  pose proof (Z.ggcd_correct_divisors z 1) as Hd.
  destruct (Z.ggcd z 1) as [g [aa bb]]. cbn [fst snd] in *.
  rewrite Z.gcd_1_r in Hg. subst g. destruct Hd as [Ha Hb].
  rewrite Z.mul_1_l in Ha, Hb. subst aa bb. reflexivity.
Qed.

(** Integers below [2^53] are doubles. *)
Lemma round64_int z :
  (Z.abs z < 2 ^ 53)%Z -> round64 (inject_Z z) = Finite (inject_Z z).
Proof.
  intros Hz.
  destruct (Z.eq_dec z 0%Z) as [->|Hnz]; [reflexivity|].
  rewrite <- (Qred_inject_Z z) at 2.
  set (a := inject_Z (Z.abs z)).
  assert (Ea : Qabs (inject_Z z) = a) by reflexivity.
  assert (Ha1 : pow2 0 <= a).
  { unfold a. change (pow2 0) with (inject_Z 1). rewrite <- Zle_Qle. lia. }
  assert (Ha2 : a < pow2 53).
  { unfold a. rewrite (pow2_Z 53) by lia. rewrite <- Zlt_Qlt. exact Hz. }
  assert (Hpos : 0 < a) by (pose proof (pow2_pos 0); lra).
  pose proof (binade_ge _ _ Ha1) as He0.
  assert (He1 : (binade a <= 52)%Z).
  { destruct (binade_spec a Hpos) as [Hlo _].
    destruct (Z_lt_le_dec 52 (binade a)) as [Hlt|]; [|assumption].
    exfalso.
    assert (Hp : pow2 53 <= pow2 (binade a)) by (apply pow2_le; lia).
    lra. }
  apply (round64_exact (inject_Z z) (Z.abs z * 2 ^ (52 - binade a))).
  - rewrite Ea. unfold ulpOf. rewrite Z.max_l by lia.
    rewrite inject_Z_mult, <- pow2_Z by lia. fold a.
    rewrite <- Qmult_assoc, <- pow2_add.
    replace (52 - binade a + (binade a - 52))%Z with 0%Z by lia.
    change (pow2 0) with 1. ring.
  - rewrite Ea. eapply Qlt_trans; [exact Ha2|]. apply pow2_lt. lia.
Qed.

(** The sign of a rounded multiple of [2^-1074] is the sign of the value:
    a difference of two doubles never rounds to zero. *)
Lemma round64_positive q :
  onGrid q -> dlt (Finite 0) (round64 q) = negb (Qle_bool q 0).
Proof.
  intros Hg.
  destruct (round64 q) as [q'| s |] eqn:E.
  - pose proof (round64_error_grid q q' Hg E) as Herr.
    destruct (round64_value q q' E) as (_ & Hs1 & Hs2 & _).
    pose proof (pow2_pos (-53)) as Hp.
    assert (Hp1 : pow2 (-53) < 1).
    { change 1 with (pow2 0). apply pow2_lt. lia. }
    cbn [dlt]. f_equal.
    destruct (Qle_bool q 0) eqn:Eq.
    + apply Qle_bool_iff in Eq. apply Qle_bool_iff. auto.
    + apply Qle_bool_false in Eq.
      destruct (Qle_bool q' 0) eqn:Eq'; [|reflexivity].
      exfalso. apply Qle_bool_iff in Eq'.
      rewrite (Qabs_pos q) in Herr by lra.
      apply Qabs_Qle_condition in Herr. nra.
  - pose proof (round64_cases q) as R. rewrite E in R.
    inversion R as [ | Hq Hov Heq | ]. subst s. cbn [dlt].
    rewrite negb_involutive.
    destruct (Qle_bool 0 q) eqn:E0, (Qle_bool q 0) eqn:E1; try reflexivity.
    + apply Qle_bool_iff in E0, E1. exfalso. apply Hq. lra.
    + apply Qle_bool_false in E0, E1. lra.
  - pose proof (round64_cases q) as R. rewrite E in R. inversion R.
Qed.


(** ** Rounding does not depend on how the rational is written *)

Lemma binade_unique a e :
  0 < a -> pow2 e <= a -> a < pow2 (e + 1) -> binade a = e.
Proof.
  intros Ha Hlo Hup. pose proof (binade_ge a e Hlo) as H1.
  destruct (binade_spec a Ha) as [Hlo' _].
  destruct (Z_lt_le_dec e (binade a)) as [Hlt|]; [|lia].
  exfalso. apply (Qlt_irrefl a).
  eapply Qlt_le_trans; [exact Hup|].
  eapply Qle_trans; [apply pow2_le|exact Hlo']. lia.
Qed.

Lemma binade_wd a b : 0 < a -> a == b -> binade a = binade b.
Proof.
  intros Ha E. assert (Hb : 0 < b) by (rewrite <- E; exact Ha).
  destruct (binade_spec b Hb) as [Hlo Hup].
  apply binade_unique; [exact Ha| |]; rewrite E; assumption.
Qed.

Lemma roundHalfEven_wd x y : x == y -> roundHalfEven x = roundHalfEven y.
Proof.
  intros E. unfold roundHalfEven.
  rewrite (Qfloor_comp x y E).
  assert (Hc : Qcompare (x - inject_Z (Qfloor y)) (1 # 2) =
               Qcompare (y - inject_Z (Qfloor y)) (1 # 2)).
  { rewrite E. reflexivity. }
  rewrite Hc. reflexivity.
Qed.

Lemma Qle_bool_wd a b c d : a == c -> b == d -> Qle_bool a b = Qle_bool c d.
Proof.
  intros E1 E2.
  destruct (Qle_bool a b) eqn:H1, (Qle_bool c d) eqn:H2; try reflexivity.
  - apply Qle_bool_iff in H1. rewrite E1, E2 in H1.
    apply Qle_bool_iff in H1. congruence.
  - apply Qle_bool_iff in H2. rewrite <- E1, <- E2 in H2.
    apply Qle_bool_iff in H2. congruence.
Qed.

Lemma round64_wd q1 q2 : q1 == q2 -> round64 q1 = round64 q2.
Proof.
  intros E.
  destruct (Qeq_dec q1 0) as [Hz|Hnz].
  { rewrite (round64_zero q1 Hz), (round64_zero q2); [reflexivity|].
    rewrite <- E. exact Hz. }
  assert (Hnz2 : ~ q2 == 0) by (rewrite <- E; exact Hnz).
  assert (Ea : Qabs q1 == Qabs q2) by (rewrite E; reflexivity).
  pose proof (Qabs_nonzero q1 Hnz) as Hpos.
  assert (Eu : ulpOf (Qabs q1) = ulpOf (Qabs q2)).
  { unfold ulpOf. rewrite (binade_wd _ _ Hpos Ea). reflexivity. }
  assert (Em : roundHalfEven (Qabs q1 / ulpOf (Qabs q1)) =
               roundHalfEven (Qabs q2 / ulpOf (Qabs q2))).
  { rewrite Eu. apply roundHalfEven_wd. rewrite Ea. reflexivity. }
  unfold round64.
  assert (E0 : Qeq_bool q1 0 = false).
  { destruct (Qeq_bool q1 0) eqn:H; [|reflexivity].
    apply Qeq_bool_iff in H. contradiction. }
  assert (E0' : Qeq_bool q2 0 = false).
  { destruct (Qeq_bool q2 0) eqn:H; [|reflexivity].
    apply Qeq_bool_iff in H. contradiction. }
  rewrite E0, E0'. cbv zeta. rewrite Em, Eu.
  rewrite (Qle_bool_wd 0 q1 0 q2 (Qeq_refl 0) E). reflexivity.
Qed.

(** ** Integers *)

Lemma dadd_int x y :
  (Z.abs (x + y) < 2 ^ 53)%Z -> dadd (ofInt x) (ofInt y) = ofInt (x + y).
Proof.
  intros H. unfold ofInt. cbn [dadd].
  rewrite (round64_wd _ (inject_Z (x + y))) by (rewrite inject_Z_plus; reflexivity).
  apply round64_int. exact H.
Qed.

Lemma dsub_int x y :
  (Z.abs (x - y) < 2 ^ 53)%Z -> dsub (ofInt x) (ofInt y) = ofInt (x - y).
Proof.
  intros H. unfold ofInt, dsub. cbn [dneg dadd].
  rewrite (round64_wd _ (inject_Z (x - y))).
  - apply round64_int. exact H.
  - rewrite Qred_correct. unfold Z.sub.
    rewrite inject_Z_plus, inject_Z_opp. reflexivity.
Qed.

Lemma ofNat_int k : (Z.of_nat k < 2 ^ 53)%Z -> ofNat k = ofInt (Z.of_nat k).
Proof. intros H. apply round64_int. lia. Qed.

Lemma dlt_int x y : dlt (ofInt x) (ofInt y) = (x <? y)%Z.
Proof.
  unfold ofInt. cbn [dlt].
  destruct (Z.ltb_spec x y) as [H|H].
  - destruct (Qle_bool (inject_Z y) (inject_Z x)) eqn:E; [|reflexivity].
    apply Qle_bool_iff in E. rewrite <- Zle_Qle in E. lia.
  - apply negb_false_iff. apply Qle_bool_iff. rewrite <- Zle_Qle. exact H.
Qed.

(** ** Values that are doubles *)

Lemma onGrid_wd a b : a == b -> onGrid a -> onGrid b.
Proof. intros E [z Hz]. exists z. rewrite <- E. exact Hz. Qed.

Lemma isDouble_onGrid q : isDouble q = true -> onGrid q.
Proof.
  unfold isDouble. destruct (round64 q) as [q'| |] eqn:E; try discriminate.
  cbn [deq]. intros H. apply Qeq_bool_iff in H.
  destruct (round64_value q q' E) as (_ & _ & _ & _ & Hg).
  exact (onGrid_wd _ _ H Hg).
Qed.

Lemma onGrid_plus a b : onGrid a -> onGrid b -> onGrid (a + b).
Proof.
  intros [x Hx] [y Hy]. exists (x + y)%Z.
  rewrite Hx, Hy, inject_Z_plus. ring.
Qed.

Lemma onGrid_opp a : onGrid a -> onGrid (- a).
Proof.
  intros [x Hx]. exists (- x)%Z. rewrite Hx, inject_Z_opp. ring.
Qed.

Lemma onGrid_int z : onGrid (inject_Z z).
Proof.
  exists (z * 2 ^ 1074)%Z. rewrite inject_Z_mult, <- (pow2_Z 1074) by lia.
  rewrite <- Qmult_assoc, pow2_cancel. ring.
Qed.

Lemma nonNegative_spec x :
  nonNegative x = true -> exists q, x = Finite q /\ 0 <= q /\ onGrid q.
Proof.
  destruct x as [q| |]; try discriminate. cbn [nonNegative].
  intros H. apply andb_true_iff in H. destruct H as [H1 H2].
  exists q. split; [reflexivity|]. split.
  - apply Qle_bool_iff. exact H1.
  - apply isDouble_onGrid. exact H2.
Qed.

(** ** Known values *)

Example tenth_value : tenth = Finite (3602879701896397 # 36028797018963968).
Proof. vm_compute. reflexivity. Qed.

Example tenths_do_not_add_up :
  dadd tenth fifth <> threeTenths /\
  dsub (dadd tenth fifth) threeTenths = Finite (1 # 18014398509481984).
Proof. split; [vm_compute; discriminate | vm_compute; reflexivity]. Qed.

Example ties_go_to_even :
  ofZ (2 ^ 53 + 1) = ofInt (2 ^ 53) /\ ofZ (2 ^ 53 + 3) = ofInt (2 ^ 53 + 4).
Proof. split; vm_compute; reflexivity. Qed.

Example sum_overflows :
  dadd (ofZ (10 ^ 308)) (ofZ (10 ^ 308)) = Infinity false.
Proof. vm_compute. reflexivity. Qed.

End Binary64Proofs.

(** * Properties of the allocator in double precision *)

Module Allocator64Proofs.
Import Binary64 Binary64Proofs TerritoryPlanning64 AllocatorProofs.
Local Open Scope Q_scope.

(** ** Error analysis of the total *)

Lemma eps_pos : 0 < eps.
Proof. apply pow2_pos. Qed.

Lemma sumQ_nonneg (ws : list Q) :
  Forall (fun w => 0 <= w) ws -> 0 <= sumQ ws.
Proof.
  induction 1 as [|w ws Hw _ IH]; simpl; [apply Qle_refl | lra].
Qed.

Lemma dadd_not_finite x c : isFinite x = false -> isFinite (dadd x c) = false.
Proof.
  destruct x as [q|s|]; [discriminate| |]; intros _.
  - destruct c as [q|s'|]; cbn; [reflexivity| |reflexivity].
    destruct (Bool.eqb s s'); reflexivity.
  - destruct c; reflexivity.
Qed.

Lemma fold_dadd_not_finite caps :
  forall x, isFinite x = false -> isFinite (fold_left dadd caps x) = false.
Proof.
  induction caps as [|c caps IH]; intros x Hx; simpl; [exact Hx|].
  apply IH, dadd_not_finite, Hx.
Qed.

(** The total computed by [reduce]: each addition rounds once, so the
    result is the exact sum up to a relative error of [eps] per term. *)
Lemma total_bounds (ws : list Q) :
  Forall (fun w => 0 <= w /\ onGrid w) ws ->
  forall t0 T,
    0 <= t0 -> onGrid t0 ->
    fold_left dadd (map Finite ws) (Finite t0) = Finite T ->
    inject_Z (Z.of_nat (length ws)) * eps <= 1 # 2 ->
    (t0 + sumQ ws) * (1 - inject_Z (Z.of_nat (length ws)) * eps) <= T /\
    T <= (t0 + sumQ ws) *
         (1 + 2 * (inject_Z (Z.of_nat (length ws)) * eps)) /\
    0 <= T /\ onGrid T.
Proof.
  induction 1 as [|w ws [Hw Hgw] Hws IH]; intros t0 T Ht0 Hg0 Hfold Hn.
  - cbn [map fold_left length] in *. injection Hfold as <-.
    change (sumQ []) with 0. change (inject_Z (Z.of_nat 0)) with 0.
    repeat split; try assumption; lra.
  - cbn [map fold_left] in Hfold. cbn [dadd] in Hfold.
    destruct (round64 (t0 + w)) as [t1| |] eqn:E.
    2:{ pose proof (fold_dadd_not_finite (map Finite ws) (Infinity negative)
                      eq_refl) as H.
        rewrite Hfold in H. discriminate. }
    2:{ pose proof (fold_dadd_not_finite (map Finite ws) NaN eq_refl) as H.
        rewrite Hfold in H. discriminate. }
    assert (Hgx : onGrid (t0 + w)) by (apply onGrid_plus; assumption).
    pose proof (round64_error_grid _ _ Hgx E) as Herr.
    destruct (round64_value _ _ E) as (_ & Hs & _ & _ & Hg1).
    assert (Hx : 0 <= t0 + w) by lra.
    rewrite (Qabs_pos _ Hx) in Herr. fold eps in Herr.
    apply Qabs_Qle_condition in Herr. destruct Herr as [Hlo Hhi].
    specialize (Hs Hx).
    cbn [length] in Hn. rewrite Nat2Z.inj_succ in Hn. unfold Z.succ in Hn.
    rewrite inject_Z_plus in Hn. change (inject_Z 1) with 1 in Hn.
    pose proof eps_pos as He.
    assert (HN : 0 <= inject_Z (Z.of_nat (length ws))).
    { change 0 with (inject_Z 0). rewrite <- Zle_Qle. lia. }
    assert (Hn' : inject_Z (Z.of_nat (length ws)) * eps <= 1 # 2) by nra.
    destruct (IH t1 T Hs Hg1 Hfold Hn') as (L & U & HT & HgT).
    pose proof (sumQ_nonneg ws) as HS.
    assert (HS' : 0 <= sumQ ws).
    { apply HS. eapply Forall_impl; [exact Hws|]. intros ? [? _]. assumption. }
    cbn [length]. rewrite Nat2Z.inj_succ. unfold Z.succ.
    rewrite inject_Z_plus. change (inject_Z 1) with 1.
    change (sumQ (w :: ws)) with (w + sumQ ws).
    set (N := inject_Z (Z.of_nat (length ws))) in *.
    set (S := sumQ ws) in *. set (x := t0 + w) in *.
    assert (Ex : t0 + (w + S) == x + S) by (unfold x; ring).
    clearbody N S x.
    assert (HNe : 0 <= N * eps) by (apply Qmult_le_0_compat; lra).
    assert (P1 : 0 <= (t1 - x * (1 - eps)) * (1 - N * eps)).
    { apply Qmult_le_0_compat; lra. }
    assert (P2 : 0 <= x * (N * eps * eps)).
    { repeat apply Qmult_le_0_compat; lra. }
    assert (P3 : 0 <= S * eps) by (apply Qmult_le_0_compat; lra).
    assert (P4 : 0 <= (x * (1 + eps) - t1) * (1 + 2 * (N * eps))).
    { apply Qmult_le_0_compat; lra. }
    assert (P5 : 0 <= x * (eps * (1 - 2 * (N * eps)))).
    { repeat apply Qmult_le_0_compat; lra. }
    assert (P6 : 0 <= S * (eps * (2 * (N * eps)))).
    { repeat apply Qmult_le_0_compat; lra. }
    rewrite Ex. repeat split; try assumption; lra.
Qed.

(** ** Error analysis of the shares *)

Lemma eps_value : eps == 1 # 9007199254740992.
Proof. reflexivity. Qed.

Lemma tiny_le_tau : pow2 (-1075) * 32769 <= tau.
Proof. apply Qle_bool_iff. vm_compute. reflexivity. Qed.

Lemma tau_small : tau * 4294967296 <= 1 # 4.
Proof. apply Qle_bool_iff. vm_compute. reflexivity. Qed.

Lemma tau_pos : 0 < tau.
Proof. apply pow2_pos. Qed.

Lemma small_is_finite q : Qabs q <= 100000 -> exists q', round64 q = Finite q'.
Proof.
  intros H. apply round64_finite_below.
  eapply Qle_trans; [exact H|].
  apply Qle_bool_iff. vm_compute. reflexivity.
Qed.

(** One computed share [(c / totalCapacity) * pool]: two roundings. *)
Lemma share_bounds w T P :
  0 <= w -> 0 < T -> w <= 2 * T -> 0 <= P -> P <= 16384 ->
  exists r,
    dmul (ddiv (Finite w) (Finite T)) (Finite P) = Finite r /\
    0 <= r /\ onGrid r /\
    r <= w / T * P * (1 + 3 * eps) + tau /\
    w / T * P * (1 - 3 * eps) - tau <= r.
Proof.
  intros Hw HT HwT HP0 HP.
  assert (HTne : Qeq_bool T 0 = false).
  { destruct (Qeq_bool T 0) eqn:E; [|reflexivity].
    apply Qeq_bool_iff in E. lra. }
  cbn [ddiv]. rewrite HTne.
  set (rho := w / T).
  assert (Hrho0 : 0 <= rho).
  { unfold rho. apply Qle_shift_div_l; [exact HT|]. lra. }
  assert (Hrho2 : rho <= 2).
  { unfold rho. apply Qle_shift_div_r; [exact HT|]. exact HwT. }
  pose proof eps_pos as He. pose proof eps_value as Hev.
  pose proof (pow2_pos (-1075)) as Ha. pose proof tiny_le_tau as Htau.
  set (a0 := pow2 (-1075)) in *.
  destruct (small_is_finite rho) as [d Ed].
  { rewrite Qabs_pos by exact Hrho0. lra. }
  rewrite Ed.
  pose proof (round64_error _ _ Ed) as Herr.
  destruct (round64_value _ _ Ed) as (_ & Hd0 & _).
  specialize (Hd0 Hrho0).
  rewrite (Qabs_pos _ Hrho0) in Herr. fold eps a0 in Herr.
  apply Qabs_Qle_condition in Herr. destruct Herr as [Hdlo Hdhi].
  assert (Hre : 0 <= eps * rho) by (apply Qmult_le_0_compat; lra).
  assert (Hre' : 0 <= (1 - eps) * rho) by (apply Qmult_le_0_compat; lra).
  pose proof tau_small as Hts. pose proof tau_pos as Htp.
  assert (Hd5 : d <= 5) by lra.
  cbn [dmul].
  assert (HdP0 : 0 <= d * P) by (apply Qmult_le_0_compat; assumption).
  assert (HdP : d * P <= 100000) by nra.
  destruct (small_is_finite (d * P)) as [r Er].
  { rewrite Qabs_pos by exact HdP0. exact HdP. }
  rewrite Er. exists r. split; [reflexivity|].
  pose proof (round64_error _ _ Er) as Herr.
  destruct (round64_value _ _ Er) as (_ & Hr0 & _ & _ & Hgr).
  specialize (Hr0 HdP0).
  rewrite (Qabs_pos _ HdP0) in Herr. fold eps a0 in Herr.
  apply Qabs_Qle_condition in Herr. destruct Herr as [Hrlo Hrhi].
  split; [exact Hr0|]. split; [exact Hgr|].
  assert (Z0 : 0 <= rho * P) by (apply Qmult_le_0_compat; assumption).
  assert (Y1 : d * P <= (rho + eps * rho + a0) * P).
  { apply Qmult_le_compat_r; lra. }
  assert (Y2 : (rho - eps * rho - a0) * P <= d * P).
  { apply Qmult_le_compat_r; lra. }
  assert (Q1 : 0 <= rho * P * eps) by (apply Qmult_le_0_compat; lra).
  assert (Q2 : 0 <= rho * P * eps * (1 - eps)).
  { apply Qmult_le_0_compat; lra. }
  assert (Q3 : 0 <= a0 * (16384 - P)) by (apply Qmult_le_0_compat; lra).
  assert (Q4 : 0 <= a0 * P) by (apply Qmult_le_0_compat; lra).
  assert (Q5 : 0 <= a0 * P * (1 - eps)) by (apply Qmult_le_0_compat; lra).
  assert (Q6 : 0 <= a0 * P * eps) by (apply Qmult_le_0_compat; lra).
  assert (Q7 : eps * (d * P) <= eps * ((rho + eps * rho + a0) * P)).
  { apply Qmult_le_l; [exact He | exact Y1]. }
  assert (Q8 : 0 <= rho * P * eps * eps) by (apply Qmult_le_0_compat; lra).
  fold rho. clearbody rho a0. split; lra.
Qed.


Lemma length_Q {A} (l : list A) : 0 <= inject_Z (Z.of_nat (length l)).
Proof. change 0 with (inject_Z 0). rewrite <- Zle_Qle. lia. Qed.

Lemma length_cons_Q {A} (x : A) (l : list A) :
  inject_Z (Z.of_nat (length (x :: l))) == inject_Z (Z.of_nat (length l)) + 1.
Proof.
  cbn [length]. rewrite Nat2Z.inj_succ. unfold Z.succ.
  rewrite inject_Z_plus. reflexivity.
Qed.

(** The computed shares of a whole weight list. *)
Lemma shares_list (T P : Q) (ws : list Q) :
  0 < T -> 0 <= P -> P <= 16384 ->
  Forall (fun w => 0 <= w /\ w <= 2 * T) ws ->
  exists rs,
    map (fun c => dmul (ddiv c (Finite T)) (Finite P)) (map Finite ws) =
      map Finite rs /\
    length rs = length ws /\
    Forall (fun r => 0 <= r /\ onGrid r) rs /\
    sumQ rs <= sumQ ws / T * P * (1 + 3 * eps) +
               inject_Z (Z.of_nat (length ws)) * tau /\
    sumQ ws / T * P * (1 - 3 * eps) -
      inject_Z (Z.of_nat (length ws)) * tau <= sumQ rs.
Proof.
  intros HT HP0 HP. induction 1 as [|w ws [Hw HwT] _ IH].
  - exists []. repeat split; try constructor; cbn [length];
      change (sumQ []) with 0; change (inject_Z (Z.of_nat 0)) with 0;
      unfold Qdiv; lra.
  - destruct IH as (rs & Hmap & Hlen & Hall & Hup & Hlo).
    destruct (share_bounds w T P Hw HT HwT HP0 HP)
      as (r & Hr & Hr0 & Hgr & Hru & Hrl).
    exists (r :: rs). cbn [map]. rewrite Hr, Hmap.
    split; [reflexivity|]. split; [cbn [length]; congruence|].
    split; [constructor; [split; assumption | exact Hall]|].
    rewrite length_cons_Q.
    change (sumQ (r :: rs)) with (r + sumQ rs).
    change (sumQ (w :: ws)) with (w + sumQ ws).
    assert (E : (w + sumQ ws) / T == w / T + sumQ ws / T).
    { field. lra. }
    rewrite E. split; lra.
Qed.

Lemma Qfloor_nonneg r : 0 <= r -> (0 <= Qfloor r)%Z.
Proof.
  intros H. rewrite <- (Qfloor_Z 0). apply Qfloor_resp_le. exact H.
Qed.

(** Floors of non-negative numbers whose sum is within [1/2] of an integer
    [pool]: the floors miss [pool] by at most one unit per term. *)
Lemma floors_sum (rs : list Q) (pool : Z) :
  Forall (fun r => 0 <= r) rs ->
  inject_Z pool - (1 # 2) <= sumQ rs ->
  sumQ rs <= inject_Z pool + (1 # 2) ->
  (pool - Z.of_nat (length rs) <= sumZ (map Qfloor rs) <= pool)%Z /\
  Forall (fun f => (0 <= f)%Z) (map Qfloor rs).
Proof.
  intros Hall Hlo Hup.
  pose proof (AllocatorProofs.sumQ_floor_frac rs) as Hsplit.
  assert (Hfr : Forall (fun r => 0 <= r /\ r < 1)
                  (map (fun u => u - inject_Z (Qfloor u)) rs)).
  { clear. induction rs as [|r rs IH]; constructor; [|exact IH].
    apply AllocatorProofs.frac_bounds. }
  destruct (AllocatorProofs.sumQ_countPos _ Hfr) as [Hf0 Hf1].
  pose proof (AllocatorProofs.countPos_le
                (map (fun u => u - inject_Z (Qfloor u)) rs)) as Hc.
  rewrite length_map in Hc.
  assert (Hc' : inject_Z (Z.of_nat (TerritoryPlanning.countPos
                  (map (fun u => u - inject_Z (Qfloor u)) rs)))
                <= inject_Z (Z.of_nat (length rs))).
  { rewrite <- Zle_Qle. lia. }
  fold sumQ in Hsplit, Hf0, Hf1.
  split.
  - split.
    + apply Z.lt_succ_r. unfold Z.succ. rewrite Zlt_Qlt.
      rewrite !inject_Z_plus. unfold Z.sub. rewrite inject_Z_plus, inject_Z_opp.
      change (inject_Z 1) with 1. lra.
    + apply Z.lt_succ_r. unfold Z.succ. rewrite Zlt_Qlt.
      rewrite !inject_Z_plus. change (inject_Z 1) with 1. lra.
  - clear -Hall. induction Hall as [|r rs Hr _ IH]; constructor; [|exact IH].
    apply Qfloor_nonneg. exact Hr.
Qed.

Lemma In_le_sumQ (ws : list Q) w :
  Forall (fun w => 0 <= w) ws -> In w ws -> w <= sumQ ws.
Proof.
  induction 1 as [|x ws Hx Hws IH]; intros Hin; [destruct Hin|].
  change (sumQ (x :: ws)) with (x + sumQ ws).
  pose proof (sumQ_nonneg ws Hws) as HS.
  destruct Hin as [<-|Hin]; [lra|]. specialize (IH Hin). lra.
Qed.

(** The floors of the computed shares miss the pool by between [0] and
    [length ws] units. *)
Lemma floors_of_shares (ws : list Q) (T : Q) (pool : Z) :
  Forall (fun w => 0 <= w /\ onGrid w) ws ->
  fold_left dadd (map Finite ws) (Finite 0) = Finite T ->
  0 < T ->
  (Z.of_nat (length ws) <= 2 ^ 32)%Z ->
  (0 <= pool <= 16384)%Z ->
  exists rs,
    map (fun c => dmul (ddiv c (Finite T)) (ofInt pool)) (map Finite ws) =
      map Finite rs /\
    length rs = length ws /\
    Forall (fun r => 0 <= r /\ onGrid r) rs /\
    (pool - Z.of_nat (length ws) <= sumZ (map Qfloor rs) <= pool)%Z /\
    Forall (fun f => (0 <= f)%Z) (map Qfloor rs).
Proof.
  intros Hws Hfold HT Hn Hpool.
  pose proof eps_pos as He. pose proof eps_value as Hev.
  pose proof tau_small as Hts. pose proof tau_pos as Htp.
  set (N := inject_Z (Z.of_nat (length ws))).
  assert (HN0 : 0 <= N) by apply length_Q.
  assert (HN : N <= 4294967296).
  { unfold N. change 4294967296 with (inject_Z (2 ^ 32)).
    rewrite <- Zle_Qle. exact Hn. }
  assert (Hx0 : 0 <= N * eps) by (apply Qmult_le_0_compat; lra).
  assert (Hx1 : N * eps <= 1 # 2097152).
  { assert (0 <= (4294967296 - N) * eps) by (apply Qmult_le_0_compat; lra).
    lra. }
  assert (Hnn : Forall (fun w => 0 <= w) ws).
  { eapply Forall_impl; [exact Hws|]. intros ? [? _]. assumption. }
  pose proof (sumQ_nonneg ws Hnn) as HS0.
  destruct (total_bounds ws Hws 0 T (Qle_refl 0)) as (L & U & _ & _).
  { exists 0%Z. ring. }
  { exact Hfold. }
  { fold N. lra. }
  fold N in L, U. rewrite Qplus_0_l in L, U.
  set (S := sumQ ws) in *.
  assert (P1 : 0 <= S * (N * eps)) by (apply Qmult_le_0_compat; lra).
  assert (P2 : 0 <= S * ((1 # 2097152) - N * eps))
    by (apply Qmult_le_0_compat; lra).
  assert (HST : S <= 2 * T) by lra.
  assert (Hw2 : Forall (fun w => 0 <= w /\ w <= 2 * T) ws).
  { apply List.Forall_forall. intros w Hin.
    pose proof (In_le_sumQ ws w Hnn Hin) as Hle. fold S in Hle.
    rewrite List.Forall_forall in Hnn. specialize (Hnn w Hin). split; lra. }
  set (P := inject_Z pool).
  assert (HP0 : 0 <= P).
  { unfold P. change 0 with (inject_Z 0). rewrite <- Zle_Qle. lia. }
  assert (HP : P <= 16384).
  { unfold P. change 16384 with (inject_Z 16384). rewrite <- Zle_Qle. lia. }
  destruct (shares_list T P ws HT HP0 HP Hw2)
    as (rs & Hmap & Hlen & Hall & Hup & Hlo).
  fold N S in Hup, Hlo.
  exists rs. split; [exact Hmap|]. split; [exact Hlen|].
  split; [exact Hall|].
  set (sigma := S / T) in *.
  assert (Hsig0 : 0 <= sigma).
  { unfold sigma. apply Qle_shift_div_l; [exact HT|]. lra. }
  assert (Hsig1 : sigma <= 1 + 2 * (N * eps)).
  { apply Qle_trans with (1 / (1 - N * eps)).
    - unfold sigma. apply Qle_shift_div_l; [lra|].
      assert (E : S / T * (1 - N * eps) == S * (1 - N * eps) / T)
        by (field; lra).
      rewrite E. apply Qle_shift_div_r; [exact HT|]. lra.
    - apply Qle_shift_div_r; [lra|].
      assert (0 <= N * eps * (1 - 2 * (N * eps)))
        by (apply Qmult_le_0_compat; lra).
      lra. }
  assert (Hsig2 : 1 - 2 * (N * eps) <= sigma).
  { apply Qle_trans with (1 / (1 + 2 * (N * eps))).
    - apply Qle_shift_div_l; [lra|].
      assert (0 <= N * eps * (N * eps)) by (apply Qmult_le_0_compat; lra).
      lra.
    - unfold sigma. apply Qle_shift_div_r; [lra|].
      assert (E : S / T * (1 + 2 * (N * eps)) == S * (1 + 2 * (N * eps)) / T)
        by (field; lra).
      rewrite E. apply Qle_shift_div_l; [exact HT|]. lra. }
  assert (HNt : N * tau <= 1 # 4).
  { assert (0 <= (4294967296 - N) * tau) by (apply Qmult_le_0_compat; lra).
    lra. }
  set (K := P * (1 + 3 * eps)).
  set (K' := P * (1 - 3 * eps)).
  assert (HK : K <= P + (1 # 1000)).
  { unfold K. assert (0 <= (16384 - P) * eps)
      by (apply Qmult_le_0_compat; lra). lra. }
  assert (HK0 : 0 <= K) by (unfold K; apply Qmult_le_0_compat; lra).
  assert (HK' : P - (1 # 1000) <= K').
  { unfold K'. assert (0 <= (16384 - P) * eps)
      by (apply Qmult_le_0_compat; lra). lra. }
  assert (HK'0 : 0 <= K') by (unfold K'; apply Qmult_le_0_compat; lra).
  assert (HK'P : K' <= P).
  { unfold K'. assert (0 <= P * eps) by (apply Qmult_le_0_compat; lra). lra. }
  assert (A1 : sigma * K <= (1 + 2 * (N * eps)) * K).
  { apply Qmult_le_compat_r; assumption. }
  assert (A2 : (1 - 2 * (N * eps)) * K' <= sigma * K').
  { apply Qmult_le_compat_r; assumption. }
  assert (A3 : 0 <= (N * eps) * (16385 - K))
    by (apply Qmult_le_0_compat; lra).
  assert (A4 : 0 <= (N * eps) * (16384 - K'))
    by (apply Qmult_le_0_compat; lra).
  assert (A5 : 0 <= (N * eps) * K') by (apply Qmult_le_0_compat; lra).
  assert (E1 : sigma * P * (1 + 3 * eps) == sigma * K) by (unfold K; ring).
  assert (E2 : sigma * P * (1 - 3 * eps) == sigma * K') by (unfold K'; ring).
  rewrite E1 in Hup. rewrite E2 in Hlo.
  rewrite <- Hlen.
  apply floors_sum.
  - eapply Forall_impl; [exact Hall|]. intros ? [? _]. assumption.
  - fold P. lra.
  - fold P. lra.
Qed.


Local Close Scope Q_scope.
Local Open Scope Z_scope.

(** ** Integer-valued arrays *)

Lemma fold_dadd_ints (fs : list Z) :
  Forall (fun f => 0 <= f) fs ->
  forall a, 0 <= a -> a + sumZ fs < 2 ^ 53 ->
    fold_left dadd (map ofInt fs) (ofInt a) = ofInt (a + sumZ fs).
Proof.
  induction 1 as [|f fs Hf Hfs IH]; intros a Ha Hlt.
  - cbn [map fold_left sumZ fold_right]. rewrite Z.add_0_r. reflexivity.
  - change (sumZ (f :: fs)) with (f + sumZ fs) in *. cbn [map fold_left].
    assert (Hs : 0 <= sumZ fs).
    { clear -Hfs. induction Hfs; simpl; lia. }
    rewrite dadd_int by lia. rewrite IH by lia. f_equal. lia.
Qed.

Lemma sumZ_nonneg (fs : list Z) : Forall (fun f => 0 <= f) fs -> 0 <= sumZ fs.
Proof. induction 1; simpl; lia. Qed.

Lemma Forall_alter_impl {A} (P Q0 : A -> Prop) (f : A -> A) (l : list A) :
  (forall x, P x -> Q0 x) -> (forall x, P x -> Q0 (f x)) ->
  Forall P l -> forall j, Forall Q0 (alter f j l).
Proof.
  intros H1 H2. induction 1 as [|x l Hx Hl IH]; intros j; [constructor|].
  destruct j as [|j]; cbn.
  - constructor; [apply H2; exact Hx|].
    eapply Forall_impl; [exact Hl|]. exact H1.
  - constructor; [apply H1; exact Hx | apply IH].
Qed.

Lemma alter_incr (fl : list Z) :
  Forall (fun v => 0 <= v /\ v + 1 < 2 ^ 53) fl ->
  forall j,
    alter (fun v => dadd v (Finite 1)) j (map ofInt fl) =
    map ofInt (alter Z.succ j fl).
Proof.
  induction 1 as [|v fl [Hv0 Hv1] _ IH]; intros j; [reflexivity|].
  destruct j as [|j]; cbn.
  - f_equal. change (Finite 1) with (ofInt 1). apply dadd_int. lia.
  - f_equal. apply IH.
Qed.

(** ** The increment loop *)

Lemma award_run (R : nat) (rest : list Fractional) :
  Z.of_nat R < 2 ^ 53 ->
  forall (k : nat) (fl : list Z),
    (k <= R <= k + length rest)%nat ->
    Forall (fun v => 0 <= v /\ v + Z.of_nat (R - k) < 2 ^ 53) fl ->
    awardExtras (ofInt (Z.of_nat R)) rest k (map ofInt fl) =
    Some (map ofInt
            (fold_left (fun acc e => alter Z.succ (TerritoryPlanning.i e) acc)
               (map conv (take (R - k) rest)) fl)).
Proof.
  intros HR. induction rest as [|e rest IH]; intros k fl Hk Hfl.
  - cbn [length] in Hk. assert (k = R) by lia. subst k.
    cbn [awardExtras]. rewrite ofNat_int by lia. rewrite dlt_int, Z.ltb_irrefl.
    rewrite Nat.sub_diag. reflexivity.
  - cbn [awardExtras]. rewrite ofNat_int by lia. rewrite dlt_int.
    destruct (Z.ltb_spec (Z.of_nat k) (Z.of_nat R)) as [Hlt|Hge].
    + assert (E : (R - k = S (R - S k))%nat) by lia.
      rewrite E. cbn [take map fold_left]. change (TerritoryPlanning.i (conv e)) with (i e).
      rewrite alter_incr.
      * apply IH; [cbn [length] in Hk; lia|].
        eapply Forall_alter_impl; [| |exact Hfl]; cbn beta; intros x [Hx0 Hx1]; lia.
      * eapply Forall_impl; [exact Hfl|]. cbn beta. intros x [Hx0 Hx1]. lia.
    + assert (E : (R - k = 0)%nat) by lia. rewrite E. reflexivity.
Qed.




Lemma imap_map {A B C} (f : nat -> B -> C) (g : A -> B) (l : list A) :
  imap f (map g l) = imap (fun k x => f k (g x)) l.
Proof.
  revert f. induction l as [|x l IH]; intros f; [reflexivity|].
  cbn [map]. rewrite !imap_cons. f_equal. apply IH.
Qed.

Lemma map_imap {A B C} (g : B -> C) (f : nat -> A -> B) (l : list A) :
  map g (imap f l) = imap (fun k x => g (f k x)) l.
Proof.
  revert f. induction l as [|x l IH]; intros f; [reflexivity|].
  rewrite !imap_cons. cbn [map]. f_equal. apply IH.
Qed.

(** The array [fractionals] over finite raw shares. *)
Lemma fractionals_shape (rs : list Q) :
  imap (fun k u =>
          MkFractional k
            (dsub u (default NaN (map dfloor (map Finite rs) !! k))))
       (map Finite rs)
  = imap (fun k r => MkFractional k (dsub (Finite r) (dfloor (Finite r)))) rs.
Proof.
  rewrite imap_map. apply imap_ext. intros k r Hk. cbn beta.
  rewrite !lookup_map, Hk. reflexivity.
Qed.

(** A computed remainder is a finite double. *)
Lemma remainder_finite (r : Q) :
  exists q, dsub (Finite r) (dfloor (Finite r)) = Finite q /\ onGrid q.
Proof.
  cbn [dfloor dsub dneg dadd].
  pose proof (AllocatorProofs.frac_bounds r) as [H0 H1].
  assert (E : (r + Qred (- inject_Z (Qfloor r)) == r - inject_Z (Qfloor r))%Q).
  { rewrite Qred_correct. reflexivity. }
  destruct (small_is_finite (r + Qred (- inject_Z (Qfloor r)))) as [q Hq].
  { rewrite E, Qabs_pos by exact H0. lra. }
  exists q. split; [exact Hq|].
  destruct (round64_value _ _ Hq) as (_ & _ & _ & _ & Hg). exact Hg.
Qed.

(** ** The comparator orders the computed remainders *)

Lemma compare_conv x y :
  goodFrac x -> goodFrac y ->
  dlt (Finite 0) (byFrac64 x y) =
  negb (Qle_bool (TerritoryPlanning.byFracDesc (conv x) (conv y)) 0).
Proof.
  intros (fx & Ex & Gx) (fy & Ey & Gy).
  unfold byFrac64, TerritoryPlanning.byFracDesc, conv. cbn [TerritoryPlanning.frac].
  rewrite Ex, Ey. cbn [valueOf dsub dneg dadd].
  rewrite round64_positive.
  - f_equal. apply Qle_bool_wd; [|reflexivity].
    rewrite Qred_correct. reflexivity.
  - apply onGrid_plus; [exact Gy|].
    apply (onGrid_wd (- fx)%Q); [symmetry; apply Qred_correct|].
    apply onGrid_opp. exact Gx.
Qed.

Lemma insertStable_perm64 {A} (cmp : A -> A -> double) x l :
  Permutation (insertStable cmp x l) (x :: l).
Proof.
  induction l as [|y l IH]; cbn [insertStable]; [reflexivity|].
  destruct (dlt (Finite 0) (cmp x y)); [|reflexivity].
  rewrite IH. apply perm_swap.
Qed.

Lemma sortStable_perm64 {A} (cmp : A -> A -> double) l :
  Permutation (sortStable cmp l) l.
Proof.
  induction l as [|x l IH]; cbn [sortStable fold_right]; [reflexivity|].
  rewrite insertStable_perm64. constructor. exact IH.
Qed.

Lemma insert_conv x l :
  goodFrac x -> Forall goodFrac l ->
  map conv (insertStable byFrac64 x l) =
  TerritoryPlanning.insertStable TerritoryPlanning.byFracDesc (conv x) (map conv l).
Proof.
  intros Hx. induction 1 as [|y l Hy _ IH]; [reflexivity|].
  cbn [insertStable map TerritoryPlanning.insertStable].
  rewrite (compare_conv x y Hx Hy).
  destruct (Qle_bool (TerritoryPlanning.byFracDesc (conv x) (conv y)) 0);
    cbn [negb map]; [reflexivity|].
  f_equal. exact IH.
Qed.

Lemma sort_conv l :
  Forall goodFrac l ->
  map conv (sortStable byFrac64 l) =
  TerritoryPlanning.sortStable TerritoryPlanning.byFracDesc (map conv l).
Proof.
  induction 1 as [|x l Hx Hl IH]; [reflexivity|].
  cbn [sortStable fold_right map TerritoryPlanning.sortStable].
  change (fold_right (insertStable byFrac64) [] l) with (sortStable byFrac64 l).
  change (fold_right (TerritoryPlanning.insertStable TerritoryPlanning.byFracDesc) []
            (map conv l))
    with (TerritoryPlanning.sortStable TerritoryPlanning.byFracDesc (map conv l)).
  rewrite insert_conv, IH; [reflexivity | exact Hx |].
  eapply Permutation_Forall; [symmetry; apply sortStable_perm64 | exact Hl].
Qed.


Lemma rank_values (qs : list Q) (k : nat) :
  rank (map Finite qs) k = TerritoryPlanning.rank qs k.
Proof.
  unfold rank, TerritoryPlanning.rank. rewrite length_map. f_equal.
  apply filter_ext. intros j.
  unfold ahead, TerritoryPlanning.ahead. rewrite !lookup_map.
  destruct (qs !! j) as [rj|], (qs !! k) as [rk|]; reflexivity.
Qed.

Lemma entry_le_sumZ (l : list Z) :
  Forall (fun v => 0 <= v) l -> Forall (fun v => 0 <= v /\ v <= sumZ l) l.
Proof.
  induction 1 as [|x l Hx Hl IH]; constructor.
  - pose proof (sumZ_nonneg l Hl). simpl. lia.
  - eapply Forall_impl; [exact IH|]. cbn beta. intros v [? ?]. simpl. lia.
Qed.

Lemma fold_is_bonus (fr : list Q) (r : nat) (fs : list Z) :
  length fs = length fr ->
  fold_left (fun acc e => alter Z.succ (TerritoryPlanning.i e) acc)
    (take r (TerritoryPlanning.sortStable TerritoryPlanning.byFracDesc
               (TerritoryPlanning.indexed fr))) fs
  = bonus fr r fs.
Proof.
  intros Hlen.
  destruct (sorted_indexed fr) as (_ & _ & _ & Hnd). cbv zeta in Hnd.
  set (sorted := TerritoryPlanning.sortStable TerritoryPlanning.byFracDesc
                   (TerritoryPlanning.indexed fr)) in *.
  assert (Hnd' : List.NoDup (map TerritoryPlanning.i (take r sorted))).
  { rewrite <- (take_drop r sorted), map_app in Hnd.
    exact (NoDup_app_remove_r _ _ Hnd). }
  apply list_eq. intros k. unfold bonus. rewrite list_lookup_imap.
  destruct (fs !! k) as [f|] eqn:Ef.
  - assert (Hk : (k < length fr)%nat).
    { rewrite <- Hlen. apply lookup_lt_is_Some. eauto. }
    destruct (lookup_lt_is_Some_2 fr k Hk) as [q Hq].
    pose proof (take_rank fr r k q Hq) as Hiff. fold sorted in Hiff.
    destruct (in_dec Nat.eq_dec k (map TerritoryPlanning.i (take r sorted)))
      as [Hin|Hout].
    + rewrite (AllocatorProofs.alter_fold_hit _ Hnd' _ _ Hin), Ef.
      apply Hiff in Hin. apply Nat.ltb_lt in Hin. rewrite Hin.
      cbn. f_equal.
    + rewrite (AllocatorProofs.alter_fold_other _ _ _ Hout), Ef.
      destruct (Nat.ltb_spec (TerritoryPlanning.rank fr k) r) as [Hlt|_].
      * exfalso. apply Hout, Hiff. exact Hlt.
      * cbn. f_equal. lia.
  - destruct (in_dec Nat.eq_dec k (map TerritoryPlanning.i (take r sorted)))
      as [Hin|Hout].
    + rewrite (AllocatorProofs.alter_fold_hit _ Hnd' _ _ Hin), Ef. reflexivity.
    + rewrite (AllocatorProofs.alter_fold_other _ _ _ Hout), Ef. reflexivity.
Qed.

Lemma bonus_sum (fr : list Q) (r : nat) (fs : list Z) :
  length fs = length fr -> (r <= length fr)%nat ->
  sumZ (bonus fr r fs) = sumZ fs + Z.of_nat r.
Proof.
  intros Hlen Hr. rewrite <- (fold_is_bonus fr r fs Hlen).
  destruct (sorted_indexed fr) as (Hperm & _ & Hlen' & _).
  cbv zeta in Hperm, Hlen'.
  rewrite AllocatorProofs.sumZ_alter_fold.
  - rewrite length_take, Hlen', Nat.min_l by exact Hr. reflexivity.
  - apply List.Forall_forall. intros e He.
    apply AllocatorProofs.In_take, (Permutation_in _ Hperm),
      (in_map TerritoryPlanning.i) in He.
    rewrite indexed_indices in He. apply in_seq in He. lia.
Qed.

(** What the rounding block computes for finite non-negative weights:
    it ends normally, every entry is the floor of the computed share plus
    one for the entities served first, and the entries sum to the pool. *)
Lemma roundToPool_run (ws : list Q) (T : Q) (pool : Z) :
  Forall (fun w => (0 <= w)%Q /\ onGrid w) ws ->
  computedTotal (map Finite ws) = Finite T ->
  (0 < T)%Q ->
  Z.of_nat (length ws) <= 2 ^ 32 ->
  0 <= pool <= 16384 ->
  exists rs fr : list Q,
    map (share (ofInt pool) (Finite T)) (map Finite ws) = map Finite rs /\
    map (remainder (ofInt pool) (Finite T)) (map Finite ws) = map Finite fr /\
    length rs = length ws /\ length fr = length ws /\
    0 <= pool - sumZ (map Qfloor rs) <= Z.of_nat (length ws) /\
    leftover (ofInt pool) (Finite T) (map Finite ws) =
      ofInt (pool - sumZ (map Qfloor rs)) /\
    Forall (fun f => 0 <= f) (map Qfloor rs) /\
    roundToPool (ofInt pool) (map Finite ws) (Finite T) =
      Some (map ofInt
              (bonus fr (Z.to_nat (pool - sumZ (map Qfloor rs)))
                 (map Qfloor rs))).
Proof.
  intros Hws Htot HT Hn Hpool.
  destruct (floors_of_shares ws T pool Hws Htot HT Hn Hpool)
    as (rs & Hmap & Hlen & Hall & Hsum & Hnn).
  set (rem := fun r : Q => dsub (Finite r) (dfloor (Finite r))).
  set (fr := map (fun r => valueOf (rem r)) rs).
  set (fs := map Qfloor rs) in *.
  assert (Hfin : forall r, rem r = Finite (valueOf (rem r))).
  { intros r. destruct (remainder_finite r) as (q & Hq & _).
    unfold rem. rewrite Hq. reflexivity. }
  assert (Hrem : map (remainder (ofInt pool) (Finite T)) (map Finite ws) =
                 map Finite fr).
  { change (map (remainder (ofInt pool) (Finite T)) (map Finite ws))
      with (map (fun c => (fun d => dsub d (dfloor d))
                            (share (ofInt pool) (Finite T) c)) (map Finite ws)).
    rewrite <- (List.map_map (share (ofInt pool) (Finite T))
                  (fun d => dsub d (dfloor d))).
    change (map (share (ofInt pool) (Finite T)) (map Finite ws))
      with (map (fun c => dmul (ddiv c (Finite T)) (ofInt pool)) (map Finite ws)).
    rewrite Hmap. unfold fr. rewrite !List.map_map.
    apply map_ext. intros r. apply Hfin. }
  assert (Hfl : map dfloor (map Finite rs) = map ofInt fs).
  { unfold fs. rewrite !List.map_map. reflexivity. }
  assert (Hlenfs : length fs = length ws) by (unfold fs; rewrite length_map; exact Hlen).
  assert (Hlenfr : length fr = length ws) by (unfold fr; rewrite length_map; exact Hlen).
  assert (Hsumfs : 0 <= sumZ fs) by (apply sumZ_nonneg; exact Hnn).
  assert (Hfold : fold_left dadd (map ofInt fs) (Finite 0) = ofInt (sumZ fs)).
  { change (Finite 0) with (ofInt 0).
    rewrite fold_dadd_ints by (try assumption; lia). reflexivity. }
  assert (Hleft : leftover (ofInt pool) (Finite T) (map Finite ws) =
                  ofInt (pool - sumZ fs)).
  { unfold leftover.
    rewrite <- (List.map_map (share (ofInt pool) (Finite T)) dfloor).
    change (map (share (ofInt pool) (Finite T)) (map Finite ws))
      with (map (fun c => dmul (ddiv c (Finite T)) (ofInt pool)) (map Finite ws)).
    rewrite Hmap, Hfl, Hfold. apply dsub_int. lia. }
  exists rs, fr. fold fs.
  split; [exact Hmap|]. split; [exact Hrem|]. split; [exact Hlen|].
  split; [exact Hlenfr|]. split; [lia|]. split; [exact Hleft|].
  split; [exact Hnn|].
  unfold roundToPool. cbv zeta. rewrite Hmap, fractionals_shape, Hfl, Hfold.
  rewrite dsub_int by lia.
  set (R := Z.to_nat (pool - sumZ fs)).
  replace (pool - sumZ fs) with (Z.of_nat R) by (unfold R; lia).
  fold rem.
  set (F := imap (fun k r => MkFractional k (rem r)) rs).
  assert (HF : Forall goodFrac F).
  { apply List.Forall_forall. intros e He.
    apply list_elem_of_In, list_elem_of_lookup in He. destruct He as [k Hk].
    unfold F in Hk. rewrite list_lookup_imap in Hk.
    destruct (rs !! k) as [r|]; [|discriminate]. injection Hk as <-.
    destruct (remainder_finite r) as (q & Hq & Hg).
    exists q. split; [exact Hq | exact Hg]. }
  assert (HcF : map conv F = TerritoryPlanning.indexed fr).
  { unfold F, TerritoryPlanning.indexed, fr. rewrite map_imap, imap_map. reflexivity. }
  assert (HlenS : length (sortStable byFrac64 F) = length ws).
  { rewrite (Permutation_length (sortStable_perm64 byFrac64 F)).
    unfold F. rewrite length_imap. exact Hlen. }
  change (sortStable (fun a b => dsub (frac b) (frac a)) F)
    with (sortStable byFrac64 F).
  rewrite (award_run R (sortStable byFrac64 F)).
  - f_equal. f_equal. rewrite Nat.sub_0_r.
    rewrite <- firstn_map, (sort_conv F HF), HcF.
    apply fold_is_bonus. congruence.
  - unfold R. lia.
  - rewrite HlenS. unfold R. lia.
  - pose proof (entry_le_sumZ fs Hnn) as Hent.
    eapply Forall_impl; [exact Hent|]. cbn beta. intros v [Hv0 Hv1].
    unfold R. split; [exact Hv0|]. rewrite Nat.sub_0_r. lia.
Qed.


(** ** The rounding block is the largest-remainder rule over computed
    shares *)

Lemma rank_le_length (fr : list Q) k :
  (TerritoryPlanning.rank fr k <= length fr)%nat.
Proof.
  unfold TerritoryPlanning.rank.
  etransitivity; [apply filter_length_le|]. rewrite length_seq. reflexivity.
Qed.

Lemma map_Finite_lookup (l : list double) (qs : list Q) k d :
  l = map Finite qs -> l !! k = Some d -> exists q, qs !! k = Some q /\ d = Finite q.
Proof.
  intros -> H. rewrite lookup_map in H.
  destruct (qs !! k) as [q|]; [|discriminate].
  injection H as <-. exists q. split; reflexivity.
Qed.

Section Rounding.
Variables (ws : list Q) (T : Q) (pool : Z).
Hypothesis Hws : Forall (fun w => (0 <= w)%Q /\ onGrid w) ws.
Hypothesis Htot : computedTotal (map Finite ws) = Finite T.
Hypothesis HT : (0 < T)%Q.
Hypothesis Hn : Z.of_nat (length ws) <= 2 ^ 32.
Hypothesis Hpool : 0 <= pool <= 16384.

Lemma winsExtra_rank (rs fr : list Q) (k : nat) :
  map (remainder (ofInt pool) (Finite T)) (map Finite ws) = map Finite fr ->
  length fr = length ws ->
  0 <= pool - sumZ (map Qfloor rs) ->
  leftover (ofInt pool) (Finite T) (map Finite ws) =
    ofInt (pool - sumZ (map Qfloor rs)) ->
  winsExtra (ofInt pool) (Finite T) (map Finite ws) k =
  (TerritoryPlanning.rank fr k <? Z.to_nat (pool - sumZ (map Qfloor rs)))%nat.
Proof.
  intros Hrem Hlen Hpos Hleft. unfold winsExtra.
  rewrite Hrem, Hleft, rank_values.
  pose proof (rank_le_length fr k) as Hr.
  rewrite ofNat_int by lia. rewrite dlt_int.
  destruct (Z.ltb_spec (Z.of_nat (TerritoryPlanning.rank fr k))
              (pool - sumZ (map Qfloor rs))) as [H|H];
    symmetry; [apply Nat.ltb_lt | apply Nat.ltb_ge]; lia.
Qed.

Lemma roundToPool_largestRemainder64 :
  roundToPool (ofInt pool) (map Finite ws) (Finite T) =
    Some (largestRemainder (ofInt pool) (Finite T) (map Finite ws)) /\
  exists us : list Z,
    largestRemainder (ofInt pool) (Finite T) (map Finite ws) = map ofInt us /\
    length us = length ws /\
    Forall (fun u => 0 <= u) us /\
    sumZ us = pool /\
    leftover (ofInt pool) (Finite T) (map Finite ws) =
      ofNat (length (winners (ofInt pool) (Finite T) (map Finite ws))).
Proof.
  destruct (roundToPool_run ws T pool Hws Htot HT Hn Hpool)
    as (rs & fr & Hshare & Hrem & Hlen & Hlenfr & HR & Hleft & Hnn & Hrun).
  set (fs := map Qfloor rs) in *.
  set (R := Z.to_nat (pool - sumZ fs)) in *.
  assert (Hlenfs : length fs = length fr).
  { unfold fs. rewrite length_map. congruence. }
  assert (Hrle : (R <= length fr)%nat) by (unfold R; lia).
  pose proof (bonus_sum fr R fs Hlenfs Hrle) as Hsum.
  assert (Hw : forall k, winsExtra (ofInt pool) (Finite T) (map Finite ws) k =
                         (TerritoryPlanning.rank fr k <? R)%nat).
  { intros k.
    apply (winsExtra_rank rs fr k);
      [exact Hrem|exact Hlenfr|exact (proj1 HR)|exact Hleft]. }
  assert (Heq : largestRemainder (ofInt pool) (Finite T) (map Finite ws) =
                map ofInt (bonus fr R fs)).
  { apply list_eq. intros k. unfold largestRemainder, alloc, bonus.
    rewrite list_lookup_imap, (lookup_map ofInt), list_lookup_imap.
    unfold fs. rewrite !lookup_map.
    pose proof (f_equal (fun l => l !! k) Hshare) as Hk. cbn beta in Hk.
    rewrite !lookup_map in Hk.
    destruct (ws !! k) as [w|] eqn:Ew; destruct (rs !! k) as [r|] eqn:Er;
      try discriminate; [|reflexivity].
    cbn [fmap option_fmap option_map] in Hk |- *. injection Hk as Hk.
    rewrite Hk, Hw. cbn [dfloor]. change (Finite (inject_Z (Qfloor r))) with (ofInt (Qfloor r)).
    destruct (TerritoryPlanning.rank fr k <? R)%nat; [|rewrite Z.add_0_r; reflexivity].
    f_equal. change (Finite 1) with (ofInt 1). apply dadd_int.
    pose proof (entry_le_sumZ fs Hnn) as Hent.
    rewrite List.Forall_forall in Hent.
    assert (Hin : In (Qfloor r) fs).
    { unfold fs. apply in_map. apply list_elem_of_In, list_elem_of_lookup. eauto. }
    specialize (Hent _ Hin). lia. }
  split; [rewrite Hrun, Heq; reflexivity|].
  exists (bonus fr R fs). split; [exact Heq|].
  split; [unfold bonus; rewrite length_imap; congruence|].
  split.
  - unfold bonus. apply List.Forall_forall. intros u Hu.
    apply list_elem_of_In, list_elem_of_lookup in Hu. destruct Hu as [k Hk].
    rewrite list_lookup_imap in Hk.
    destruct (fs !! k) as [f|] eqn:Ef; [|discriminate]. injection Hk as <-.
    rewrite List.Forall_forall in Hnn.
    assert (0 <= f).
    { apply Hnn. apply list_elem_of_In, list_elem_of_lookup. eauto. }
    destruct (TerritoryPlanning.rank fr k <? R)%nat; lia.
  - split; [rewrite Hsum; unfold R; lia|].
    rewrite Hleft.
    assert (Hcount : Z.of_nat (length (winners (ofInt pool) (Finite T) (map Finite ws))) =
                     Z.of_nat R).
    { unfold winners. rewrite (filter_ext _ _ Hw), length_map.
      unfold bonus in Hsum. rewrite (sumZ_imap_bonus (fun f => f)) in Hsum.
      rewrite map_id in Hsum. rewrite <- Hlenfr, <- Hlenfs. lia. }
    rewrite ofNat_int by (rewrite Hcount; unfold R; lia).
    rewrite Hcount. f_equal. unfold R. lia.
Qed.

End Rounding.


(** ** From the rounding block to the rows *)

Lemma weights_values (caps : list double) :
  forallb nonNegative caps = true ->
  caps = map Finite (map valueOf caps) /\
  Forall (fun w => (0 <= w)%Q /\ onGrid w) (map valueOf caps).
Proof.
  induction caps as [|c caps IH]; intros H; [split; [reflexivity|constructor]|].
  cbn [forallb] in H. apply andb_true_iff in H. destruct H as [Hc H].
  destruct (IH H) as [IH1 IH2].
  destruct (nonNegative_spec c Hc) as (q & -> & Hq0 & Hqg).
  cbn [map valueOf]. split; [f_equal; exact IH1|].
  constructor; [split; assumption | exact IH2].
Qed.

Lemma buildUpdated_rows fu ft rows :
  forall n,
    map (fun r => (units r, tam r)) (aeRows (buildUpdated rows n fu ft)) =
    map (fun k => (fu !! k, ft !! k)) (seq n (length (aeRows rows))).
Proof.
  unfold aeRows.
  induction rows as [|r rows IH]; intros n; [reflexivity|].
  cbn [buildUpdated List.filter].
  assert (HAE : isAERow r = negb (String.eqb (id r) "unassigned"))
    by reflexivity.
  rewrite HAE. destruct (String.eqb (id r) "unassigned") eqn:E; cbn [negb].
  - cbn [List.filter]. unfold isAERow at 1. cbn [id]. rewrite E. cbn [negb].
    apply IH.
  - cbn [List.filter]. unfold isAERow at 1. cbn [id]. rewrite E. cbn [negb].
    cbn [map length seq units tam]. f_equal. apply IH.
Qed.

Lemma lookups_are_entries {A} (l : list A) :
  map (fun k => l !! k) (seq 0 (length l)) = map Some l.
Proof.
  induction l as [|x l IH]; [reflexivity|].
  cbn [length seq map]. f_equal.
  rewrite <- seq_shift, List.map_map. exact IH.
Qed.

Lemma buildUpdated_units fu ft rows :
  length fu = length (aeRows rows) ->
  map units (aeRows (buildUpdated rows 0 fu ft)) = map Some fu.
Proof.
  intros Hlen.
  pose proof (f_equal (map fst) (buildUpdated_rows fu ft rows 0)) as H.
  rewrite !List.map_map in H. cbn [fst] in H.
  rewrite <- Hlen, lookups_are_entries in H. exact H.
Qed.

Lemma buildUpdated_tam fu ft rows :
  length ft = length (aeRows rows) ->
  map tam (aeRows (buildUpdated rows 0 fu ft)) = map Some ft.
Proof.
  intros Hlen.
  pose proof (f_equal (map snd) (buildUpdated_rows fu ft rows 0)) as H.
  rewrite !List.map_map in H. cbn [snd] in H.
  rewrite <- Hlen, lookups_are_entries in H. exact H.
Qed.

Lemma buildUpdated_ae_lookup64 fu ft rows :
  forall n k row,
    aeRows rows !! k = Some row ->
    aeRows (buildUpdated rows n fu ft) !! k =
    Some (MkTerritoryRow (id row) (name row) (owner row) (region row)
            (fu !! (n + k)%nat) (ft !! (n + k)%nat)).
Proof.
  unfold aeRows.
  induction rows as [|r rows IH]; intros n k row Hk; [discriminate|].
  cbn [buildUpdated List.filter] in *.
  assert (HAE : isAERow r = negb (String.eqb (id r) "unassigned"))
    by reflexivity.
  rewrite HAE in Hk.
  destruct (String.eqb (id r) "unassigned") eqn:E; cbn [negb] in Hk.
  - cbn [List.filter]. unfold isAERow at 1. cbn [id]. rewrite E. cbn [negb].
    apply IH. exact Hk.
  - cbn [List.filter]. unfold isAERow at 1. cbn [id]. rewrite E. cbn [negb].
    destruct k as [|k].
    + injection Hk as <-. rewrite Nat.add_0_r. reflexivity.
    + change ((?x :: ?l) !! S k) with (l !! k) in Hk |- *.
      rewrite (IH (S n) k row Hk), Nat.add_succ_r. reflexivity.
Qed.

(** The run of [handleOptimize] on non-negative weights with a finite
    positive computed total. *)
Lemma handleOptimize_allocates64 (aeInfoMap : gmap string AEInfo)
    (s : PlanningState) :
  let caps := capacities aeInfoMap (territoryData s) in
  let total := computedTotal caps in
  forallb nonNegative caps = true ->
  isFinite total = true ->
  dlt (Finite 0) total = true ->
  Z.of_nat (length caps) <= 2 ^ 32 ->
  handleOptimize aeInfoMap s =
    Some (MkPlanningState
            (buildUpdated (territoryData s) 0
               (largestRemainder TOTAL_UNITS total caps)
               (largestRemainder TOTAL_TAM total caps))
            true true) /\
  (exists us : list Z,
     largestRemainder TOTAL_UNITS total caps = map ofInt us /\
     length us = length caps /\ Forall (fun u => 0 <= u) us /\
     sumZ us = 1000 /\
     leftover TOTAL_UNITS total caps =
       ofNat (length (winners TOTAL_UNITS total caps))) /\
  (exists ts : list Z,
     largestRemainder TOTAL_TAM total caps = map ofInt ts /\
     length ts = length caps /\ Forall (fun t => 0 <= t) ts /\
     sumZ ts = 12000 /\
     leftover TOTAL_TAM total caps =
       ofNat (length (winners TOTAL_TAM total caps))).
Proof.
  intros caps total Hnn Hfin Hpos Hlen.
  destruct (weights_values caps Hnn) as [Hcaps Hws].
  set (ws := map valueOf caps) in *.
  destruct total as [T| |] eqn:ET; try discriminate.
  assert (HT : (0 < T)%Q).
  { cbn [dlt] in Hpos. apply negb_true_iff in Hpos.
    apply Qle_bool_false in Hpos. exact Hpos. }
  assert (Htot : computedTotal (map Finite ws) = Finite T).
  { rewrite <- Hcaps. exact ET. }
  assert (Hn : Z.of_nat (length ws) <= 2 ^ 32).
  { unfold ws. rewrite length_map. exact Hlen. }
  destruct (roundToPool_largestRemainder64 ws T 1000 Hws Htot HT Hn ltac:(lia))
    as [HrunU HU].
  destruct (roundToPool_largestRemainder64 ws T 12000 Hws Htot HT Hn ltac:(lia))
    as [HrunT HTm].
  rewrite <- Hcaps in HrunU, HU, HrunT, HTm.
  assert (Hlw : length ws = length caps) by (unfold ws; apply length_map).
  rewrite Hlw in HU, HTm.
  change (ofInt 1000) with TOTAL_UNITS in HrunU, HU.
  change (ofInt 12000) with TOTAL_TAM in HrunT, HTm.
  split; [|split; [exact HU | exact HTm]].
  unfold handleOptimize. cbv zeta. fold caps.
  change (fold_left dadd caps (Finite 0)) with (computedTotal caps).
  fold total. rewrite ET. cbn [deq].
  assert (E0 : Qeq_bool T 0 = false).
  { destruct (Qeq_bool T 0) eqn:E; [|reflexivity].
    apply Qeq_bool_iff in E. lra. }
  rewrite E0, HrunU, HrunT. reflexivity.
Qed.


(** ** The claims about the allocator, in double precision *)

(** Claim C2, as amended.  For non-negative weights whose total, computed
    in double precision, is finite and positive, [handleOptimize] ends
    normally and the entities' units and TAM amounts are non-negative
    integers that sum to exactly 1000 and exactly 12000. *)
Theorem entity_allocations_sum_to_pools (aeInfoMap : gmap string AEInfo)
    (s : PlanningState) :
  let caps := capacities aeInfoMap (territoryData s) in
  forallb nonNegative caps = true ->
  isFinite (computedTotal caps) = true ->
  dlt (Finite 0) (computedTotal caps) = true ->
  Z.of_nat (length caps) <= 2 ^ 32 ->
  sumsToPools aeInfoMap s.
Proof.
  intros caps Hnn Hfin Hpos Hlen.
  destruct (handleOptimize_allocates64 aeInfoMap s Hnn Hfin Hpos Hlen)
    as (Hrun & (us & HU & HlU & HnU & HsU & _) & (ts & HT & HlT & HnT & HsT & _)).
  fold caps in Hrun, HU, HT, HlU, HlT.
  assert (Hrows : length caps = length (aeRows (territoryData s))).
  { unfold caps, capacities, aeRows. apply length_map. }
  exists (MkPlanningState
            (buildUpdated (territoryData s) 0
               (largestRemainder TOTAL_UNITS (computedTotal caps) caps)
               (largestRemainder TOTAL_TAM (computedTotal caps) caps))
            true true), us, ts.
  split; [exact Hrun|]. cbn [territoryData].
  split.
  { rewrite buildUpdated_units, HU, List.map_map; [reflexivity|].
    rewrite HU, length_map. congruence. }
  split.
  { rewrite buildUpdated_tam, HT, List.map_map; [reflexivity|].
    rewrite HT, length_map. congruence. }
  repeat split; try assumption; congruence.
Qed.

Lemma entity_allocations_witness :
  sumsToPools (flattenAEs Hierarchy.orgHierarchy) initialState.
Proof.
  apply (entity_allocations_sum_to_pools (flattenAEs Hierarchy.orgHierarchy)
           initialState).
  - vm_compute. reflexivity.
  - vm_compute. reflexivity.
  - vm_compute. reflexivity.
  - apply Z.leb_le. vm_compute. reflexivity.
Defined.

(** Claim C2 as stated fails.  Two weights of 1e308 are positive and so is
    their total, but in double precision the total is infinite, every
    share is 0 and the loop reads past the sorted array: the run raises
    and nothing is allocated.  With weights 1e15+3 and -1e15-2 the total
    is exactly 1, the shares lose their low digits, the floors add up to
    896 and the loop again runs off a two-element array. *)
Lemma allocation_fails_outside_double_range :
  (capacities (capacityMap (ofZ (10 ^ 308)) (ofZ (10 ^ 308)) (ofZ 0) (ofZ 0))
     (territoryData initialState) = map ofZ [10 ^ 308; 10 ^ 308; 0; 0] /\
   0 < sumZ [10 ^ 308; 10 ^ 308; 0; 0] /\
   Forall (fun w => 0 <= w) [10 ^ 308; 10 ^ 308; 0; 0] /\
   handleOptimize (capacityMap (ofZ (10 ^ 308)) (ofZ (10 ^ 308)) (ofZ 0) (ofZ 0)) initialState = None /\
   ~ sumsToPools (capacityMap (ofZ (10 ^ 308)) (ofZ (10 ^ 308)) (ofZ 0) (ofZ 0)) initialState) /\
  (capacities (capacityMap (ofZ (10 ^ 15 + 3)) (ofZ (- 10 ^ 15 - 2)) (ofZ 0) (ofZ 0))
     (territoryData initialState) = map ofZ [10 ^ 15 + 3; - 10 ^ 15 - 2; 0; 0] /\
   sumZ [10 ^ 15 + 3; - 10 ^ 15 - 2; 0; 0] = 1 /\
   handleOptimize (capacityMap (ofZ (10 ^ 15 + 3)) (ofZ (- 10 ^ 15 - 2)) (ofZ 0) (ofZ 0)) initialState
     = None /\
   ~ sumsToPools (capacityMap (ofZ (10 ^ 15 + 3)) (ofZ (- 10 ^ 15 - 2)) (ofZ 0) (ofZ 0)) initialState).
Proof.
  split.
  - split; [vm_compute; reflexivity|]. split; [vm_compute; reflexivity|].
    split; [repeat constructor; vm_compute; discriminate|].
    split; [vm_compute; reflexivity|].
    intros (s' & us & ts & H & _). vm_compute in H. discriminate.
  - split; [vm_compute; reflexivity|]. split; [vm_compute; reflexivity|].
    split; [vm_compute; reflexivity|].
    intros (s' & us & ts & H & _). vm_compute in H. discriminate.
Qed.

Lemma winners_differ64 :
  winners TOTAL_UNITS (computedTotal sampleCaps) sampleCaps <>
  winners TOTAL_TAM (computedTotal sampleCaps) sampleCaps.
Proof. vm_compute. discriminate. Qed.

Lemma capacities_lookup64 aeInfoMap rows k c :
  capacities aeInfoMap rows !! k = Some c ->
  exists row, aeRows rows !! k = Some row /\ capacityOf aeInfoMap row = c.
Proof.
  unfold capacities, aeRows. rewrite lookup_map.
  destruct (List.filter isAERow rows !! k) as [row|]; [|discriminate].
  intros H. injection H as <-. exists row. split; reflexivity.
Qed.

(** Claim C5, as amended.  For non-negative weights whose computed total
    is finite and positive, each entity receives, for units and for TAM
    separately, the floor of its share as computed in double precision,
    plus one if it is among the [leftover] entities served first; entities
    are served by decreasing computed remainder and, where two computed
    remainders are the same double, in input order; exactly [leftover]
    entities receive the extra unit.  The unit winners and the TAM winners
    can differ. *)
Theorem allocation_follows_computed_remainders (aeInfoMap : gmap string AEInfo)
    (s : PlanningState) :
  let caps := capacities aeInfoMap (territoryData s) in
  let total := computedTotal caps in
  forallb nonNegative caps = true ->
  isFinite total = true ->
  dlt (Finite 0) total = true ->
  Z.of_nat (length caps) <= 2 ^ 32 ->
  exists s',
    handleOptimize aeInfoMap s = Some s' /\
    (forall k c,
       caps !! k = Some c ->
       exists row,
         aeRows (territoryData s') !! k = Some row /\
         units row = Some (alloc TOTAL_UNITS total caps k c) /\
         tam row = Some (alloc TOTAL_TAM total caps k c)) /\
    leftover TOTAL_UNITS total caps =
      ofNat (length (winners TOTAL_UNITS total caps)) /\
    leftover TOTAL_TAM total caps =
      ofNat (length (winners TOTAL_TAM total caps)) /\
    (exists caps',
       winners TOTAL_UNITS (computedTotal caps') caps' <>
       winners TOTAL_TAM (computedTotal caps') caps').
Proof.
  intros caps total Hnn Hfin Hpos Hlen.
  destruct (handleOptimize_allocates64 aeInfoMap s Hnn Hfin Hpos Hlen)
    as (Hrun & (us & _ & _ & _ & _ & HwU) & (ts & _ & _ & _ & _ & HwT)).
  eexists. split; [exact Hrun|]. cbn [territoryData].
  split; [|split; [exact HwU|split; [exact HwT|]]].
  - intros k c Hk.
    destruct (capacities_lookup64 _ _ _ _ Hk) as (row & Hrow & _).
    eexists. split; [apply (buildUpdated_ae_lookup64 _ _ _ 0%nat k row Hrow)|].
    cbn [units tam Nat.add]. unfold largestRemainder, alloc.
    rewrite !list_lookup_imap. fold caps. rewrite Hk. split; reflexivity.
  - exists sampleCaps. exact winners_differ64.
Qed.

Lemma computed_remainders_witness :
  exists s',
    handleOptimize (flattenAEs Hierarchy.orgHierarchy) initialState = Some s' /\
    option_map units (aeRows (territoryData s') !! 1%nat) =
      Some (Some (ofInt 245)).
Proof.
  assert (H1 : forallb nonNegative
                 (capacities (flattenAEs Hierarchy.orgHierarchy)
                    (territoryData initialState)) = true)
    by (vm_compute; reflexivity).
  assert (H2 : isFinite
                 (computedTotal
                    (capacities (flattenAEs Hierarchy.orgHierarchy)
                       (territoryData initialState))) = true)
    by (vm_compute; reflexivity).
  assert (H3 : dlt (Finite 0)
                 (computedTotal
                    (capacities (flattenAEs Hierarchy.orgHierarchy)
                       (territoryData initialState))) = true)
    by (vm_compute; reflexivity).
  assert (H4 : Z.of_nat
                 (length (capacities (flattenAEs Hierarchy.orgHierarchy)
                            (territoryData initialState))) <= 2 ^ 32)
    by (apply Z.leb_le; vm_compute; reflexivity).
  destruct (allocation_follows_computed_remainders
              (flattenAEs Hierarchy.orgHierarchy) initialState H1 H2 H3 H4)
    as (s' & Hs' & Hrows & _).
  exists s'. split; [exact Hs'|].
  destruct (Hrows 1%nat (ofZ 1150) ltac:(vm_compute; reflexivity))
    as (row & Hrow & Hu & _).
  rewrite Hrow. cbn [option_map]. rewrite Hu. vm_compute. reflexivity.
Defined.

(** Claim C5 as stated fails on ordinary weights.  With weights 1050,
    1100, 1100 and 1250 the exact TAM shares are 2800, 2933 1/3, 2933 1/3
    and 3333 1/3: one unit is left and the three remainders are equal, so
    the rule as stated gives it to the first of them, the entity of the
    second row.  In double precision the remainder of the last share comes
    out larger than the other two and the run gives the unit to the last
    row.  It also fails beyond the range of a double: with two weights of
    1e308 the run raises and no entity receives anything. *)
Lemma exact_tie_goes_to_later_entity :
  (capacities (capacityMap (ofZ 1050) (ofZ 1100) (ofZ 1100) (ofZ 1250))
     (territoryData initialState) = map ofZ [1050; 1100; 1100; 1250] /\
   (TerritoryPlanning.remainder 12000 4500 1100 ==
    TerritoryPlanning.remainder 12000 4500 1250)%Q /\
   TerritoryPlanning.largestRemainder 12000 4500 [1050; 1100; 1100; 1250] =
     [2800; 2934; 2933; 3333] /\
   option_map (fun s' => map tam (aeRows (territoryData s')))
     (handleOptimize (capacityMap (ofZ 1050) (ofZ 1100) (ofZ 1100) (ofZ 1250))
        initialState) =
     Some (map (fun t => Some (ofInt t)) [2800; 2933; 2933; 3334]) /\
   ~ followsExactRule
       (capacityMap (ofZ 1050) (ofZ 1100) (ofZ 1100) (ofZ 1250)) initialState
       [1050; 1100; 1100; 1250]) /\
  (capacities (capacityMap (ofZ (10 ^ 308)) (ofZ (10 ^ 308)) (ofZ 0) (ofZ 0))
     (territoryData initialState) = map ofZ [10 ^ 308; 10 ^ 308; 0; 0] /\
   ~ followsExactRule
       (capacityMap (ofZ (10 ^ 308)) (ofZ (10 ^ 308)) (ofZ 0) (ofZ 0))
       initialState [10 ^ 308; 10 ^ 308; 0; 0]).
Proof.
  split.
  - split; [vm_compute; reflexivity|]. split; [vm_compute; reflexivity|].
    split; [vm_compute; reflexivity|]. split; [vm_compute; reflexivity|].
    intros (s' & H & _ & Ht). vm_compute in H. injection H as <-.
    vm_compute in Ht. discriminate.
  - split; [vm_compute; reflexivity|].
    intros (s' & H & _). vm_compute in H. discriminate.
Qed.



(** X30.  In double precision too, for non-negative weights whose computed
    total is finite and positive, every entity receives a whole number of
    units between 0 and 1000 and a whole TAM amount between 0 and
    12000. *)
Theorem double_allocations_within_pools (aeInfoMap : gmap string AEInfo)
    (s : PlanningState) :
  let caps := capacities aeInfoMap (territoryData s) in
  forallb nonNegative caps = true ->
  isFinite (computedTotal caps) = true ->
  dlt (Finite 0) (computedTotal caps) = true ->
  Z.of_nat (length caps) <= 2 ^ 32 ->
  exists s',
    handleOptimize aeInfoMap s = Some s' /\
    length (aeRows (territoryData s')) = length (aeRows (territoryData s)) /\
    forall k row,
      aeRows (territoryData s') !! k = Some row ->
      exists u t,
        units row = Some (ofInt u) /\ tam row = Some (ofInt t) /\
        0 <= u <= 1000 /\ 0 <= t <= 12000.
Proof.
  intros caps Hnn Hfin Hpos Hlen.
  destruct (handleOptimize_allocates64 aeInfoMap s Hnn Hfin Hpos Hlen)
    as (Hrun & (us & HU & HlU & HnU & HsU & _) & (ts & HT & HlT & HnT & HsT & _)).
  fold caps in Hrun, HU, HT, HlU, HlT.
  assert (Hrows : length caps = length (aeRows (territoryData s))).
  { unfold caps, capacities, aeRows. apply length_map. }
  eexists. split; [exact Hrun|]. cbn [territoryData].
  pose proof (buildUpdated_units
                (largestRemainder TOTAL_UNITS (computedTotal caps) caps)
                (largestRemainder TOTAL_TAM (computedTotal caps) caps)
                (territoryData s)) as Hu.
  pose proof (buildUpdated_tam
                (largestRemainder TOTAL_UNITS (computedTotal caps) caps)
                (largestRemainder TOTAL_TAM (computedTotal caps) caps)
                (territoryData s)) as Ht.
  rewrite HU, HT in Hu. rewrite HU, HT in Ht. rewrite length_map in Hu, Ht.
  specialize (Hu ltac:(congruence)). specialize (Ht ltac:(congruence)).
  rewrite HU, HT. split.
  { pose proof (f_equal (@length _) Hu) as Hl. rewrite !length_map in Hl.
    congruence. }
  intros k row Hk.
  pose proof (f_equal (fun l => l !! k) Hu) as Huk.
  pose proof (f_equal (fun l => l !! k) Ht) as Htk.
  cbn beta in Huk, Htk. rewrite !lookup_map, Hk in Huk, Htk.
  destruct (us !! k) as [u|] eqn:Eu; [|discriminate].
  destruct (ts !! k) as [t|] eqn:Et; [|discriminate].
  cbn [fmap option_fmap option_map] in Huk, Htk.
  exists u, t. split; [congruence|]. split; [congruence|].
  pose proof (entry_le_sumZ us HnU) as HeU.
  pose proof (entry_le_sumZ ts HnT) as HeT.
  rewrite List.Forall_forall in HeU, HeT.
  assert (Hiu : In u us) by (apply list_elem_of_In, list_elem_of_lookup; eauto).
  assert (Hit : In t ts) by (apply list_elem_of_In, list_elem_of_lookup; eauto).
  specialize (HeU u Hiu). specialize (HeT t Hit). lia.
Qed.

Lemma double_allocations_witness :
  exists s',
    handleOptimize (flattenAEs Hierarchy.orgHierarchy) initialState = Some s' /\
    length (aeRows (territoryData s')) = 4%nat.
Proof.
  destruct (double_allocations_within_pools
              (flattenAEs Hierarchy.orgHierarchy) initialState)
    as (s' & Hs' & Hl & _).
  - vm_compute. reflexivity.
  - vm_compute. reflexivity.
  - vm_compute. reflexivity.
  - apply Z.leb_le. vm_compute. reflexivity.
  - exists s'. split; [exact Hs' | exact Hl].
Defined.

(** ** Sample runs *)

Example optimize_initial64 :
  option_map (fun s' => (map units (territoryData s'), map tam (territoryData s')))
    (handleOptimize (flattenAEs Hierarchy.orgHierarchy) initialState) =
  Some (map (fun u => Some (ofInt u)) [255; 245; 255; 245; 0],
        map (fun t => Some (ofInt t)) [3064; 2936; 3064; 2936; 0]).
Proof. vm_compute. reflexivity. Qed.

(** Weights 0, 1, 4 and 1: the exact shares of 1000 units are 0, 166 2/3,
    666 2/3 and 166 2/3; the computed remainder of the third entity is
    the smallest of the three. *)
Example optimize_one_four_one :
  option_map (fun s' => map units (aeRows (territoryData s')))
    (handleOptimize (capacityMap (ofZ 0) (ofZ 1) (ofZ 4) (ofZ 1)) initialState) =
  Some (map (fun u => Some (ofInt u)) [0; 167; 666; 167]).
Proof. vm_compute. reflexivity. Qed.

(** Weights 0.1, 0.2 and -0.3 do not cancel in double precision: the
    total is [2^-54], not 0, and the run raises. *)
Example optimize_tenths :
  computedTotal
    (capacities (capacityMap tenth fifth (dneg threeTenths) (ofZ 0))
       (territoryData initialState)) = Finite (1 # 18014398509481984) /\
  handleOptimize (capacityMap tenth fifth (dneg threeTenths) (ofZ 0))
    initialState = None.
Proof. split; vm_compute; reflexivity. Qed.

End Allocator64Proofs.
